(** * Prometheus integration core: a verification development

    Shallow embedding of the schema-widening ClickHouse writer, the
    single-flight cache refresh, the remote-read translator, the response
    builder, the JSON parameter check, the forwarding to the master
    controller and the query counters, with the properties stated about
    them. *)

From Stdlib Require Import ZArith Lia String Ascii List Bool DecimalString.
From stdpp Require Import base list gmap strings sorting.

Local Open Scope string_scope.
Local Open Scope Z_scope.
Local Open Scope list_scope.

(** ** Outcomes of fallible Go code

    A Go call either returns a value, returns a non-nil [error], or panics
    (an index out of range, a failed type assertion). *)

Inductive outcome (A : Type) : Type :=
| Ok (a : A)
| Err (e : string)
| Panic (e : string).

Arguments Ok {A} a.
Arguments Err {A} e.
Arguments Panic {A} e.

(** [strings.Contains] *)
Definition contains (s sub : string) : bool :=
  match String.index 0 sub s with
  | Some _ => true
  | None => false
  end.

(** ** The cluster-aware writer (package dbwriter) *)

Module Writer.

(** [PROMETHEUS_TABLE + "_local"] and [PROMETHEUS_TABLE]. *)
Inductive Table : Type := SamplesLocal | Samples.

#[global] Instance Table_eq_dec : EqDecision Table.
Proof. solve_decision. Defined.

(** Statements sent over the local connection [w.ckdbConn] (and by
    [ckwriter.NewCKWriter] on the same node). *)
Inductive Stmt : Type :=
| CreateTables (width : Z)
| CountColumns
| AlterAddColumn (t : Table) (i : Z).

(** Modelled from the spec: the columnar engine is outside the repository.
    A node keeps, per table, the indices [i] of its [app_label_value_id_i]
    columns in the order they were added ([None]: the table does not exist).
    [CREATE TABLE IF NOT EXISTS] creates a missing table with columns
    [1..width]; [ALTER TABLE ADD COLUMN] appends a column, or fails with
    "column with this name already exists". *)
Record ClickHouse : Type := mkCK {
  cols_local : option (list Z);
  cols_dist : option (list Z);
}.

Inductive DbError : Type := ColumnAlreadyExists | Failure.

(** [err.Error()] *)
Definition err_text (e : DbError) : string :=
  match e with
  | ColumnAlreadyExists => "Cannot add column: column with this name already exists"
  | Failure => "connection refused"
  end.

Definition table_cols (t : Table) (ck : ClickHouse) : option (list Z) :=
  match t with
  | SamplesLocal => cols_local ck
  | Samples => cols_dist ck
  end.

Definition set_table_cols (t : Table) (cs : list Z) (ck : ClickHouse) : ClickHouse :=
  match t with
  | SamplesLocal => mkCK (Some cs) (cols_dist ck)
  | Samples => mkCK (cols_local ck) (Some cs)
  end.

Definition Z_mem (i : Z) (l : list Z) : bool := existsb (Z.eqb i) l.

Definition alter_add_column (t : Table) (i : Z) (ck : ClickHouse)
  : ClickHouse * option DbError :=
  match table_cols t ck with
  | None => (ck, Some Failure)
  | Some cs =>
      if Z_mem i cs then (ck, Some ColumnAlreadyExists)
      else (set_table_cols t (cs ++ [i]) ck, None)
  end.

Definition create_if_missing (width : Z) (cs : option (list Z)) : option (list Z) :=
  match cs with
  | Some l => Some l
  | None => Some (seqZ 1 width)
  end.

Definition create_tables (width : Z) (ck : ClickHouse) : ClickHouse :=
  mkCK (create_if_missing width (cols_local ck)) (create_if_missing width (cols_dist ck)).

(** The handle [*ckwriter.CKWriter]: the width of the table it was built
    for, and whether [Run] was called. *)
Record CKWriter : Type := mkCKWriter {
  cw_width : Z;
  cw_running : bool;
}.

(** The process-wide array [prometheusCKWriters], the connection of the
    [PrometheusWriter] ([ckdbConn != nil]), the node's catalog, the outcomes
    the environment has in store for the next external operations ([true]:
    the operation fails without effect), and the statements issued so far. *)
Record World : Type := mkWorld {
  prometheusCKWriters : list (option CKWriter);
  ckdbConn : bool;
  ck : ClickHouse;
  faults : list bool;
  issued : list Stmt;
}.

Definition M (A : Type) : Type := World -> outcome A * World.

Definition ret {A} (a : A) : M A := fun w => (Ok a, w).
Definition fail {A} (e : string) : M A := fun w => (Err e, w).
Definition panic {A} (e : string) : M A := fun w => (Panic e, w).

Definition bind {A B} (m : M A) (k : A -> M B) : M B :=
  fun w =>
    match m w with
    | (Ok a, w') => k a w'
    | (Err e, w') => (Err e, w')
    | (Panic e, w') => (Panic e, w')
    end.

Notation "'do' x <- m ; k" := (bind m (fun x => k))
  (at level 10, x name, m at level 100, k at level 200).

(** The next outcome the environment has in store. *)
Definition next_fault : M bool := fun w =>
  match faults w with
  | [] => (Ok false, w)
  | f :: fs =>
      (Ok f, mkWorld (prometheusCKWriters w) (ckdbConn w) (ck w) fs (issued w))
  end.

Definition log_stmt (s : Stmt) : M unit := fun w =>
  (Ok tt, mkWorld (prometheusCKWriters w) (ckdbConn w) (ck w) (faults w) (issued w ++ [s])).

Definition set_conn (b : bool) : M unit := fun w =>
  (Ok tt, mkWorld (prometheusCKWriters w) b (ck w) (faults w) (issued w)).

Definition set_ck (c : ClickHouse) : M unit := fun w =>
  (Ok tt, mkWorld (prometheusCKWriters w) (ckdbConn w) c (faults w) (issued w)).

Definition get_world : M World := fun w => (Ok w, w).

Section WithConstant.

(** The constant is declared outside the files at hand. *)
Variable MAX_APP_LABEL_COLUMN_INDEX : nat.

(** [var prometheusCKWriters [MAX_APP_LABEL_COLUMN_INDEX]*ckwriter.CKWriter] *)
Definition empty_writers : list (option CKWriter) :=
  replicate MAX_APP_LABEL_COLUMN_INDEX None.

Definition index_ok (columnCount : Z) (arr : list (option CKWriter)) : bool :=
  (0 <=? columnCount) && (columnCount <? Z.of_nat (length arr)).

Definition getPrometheusCKWriters (columnCount : Z) : M (option CKWriter) := fun w =>
  if index_ok columnCount (prometheusCKWriters w) then
    match prometheusCKWriters w !! Z.to_nat columnCount with
    | Some slot => (Ok slot, w)
    | None => (Panic "index out of range", w)
    end
  else (Panic "index out of range", w).

Definition setPrometheusCKWriters (columnCount : Z) (cw : CKWriter) : M unit := fun w =>
  if index_ok columnCount (prometheusCKWriters w) then
    (Ok tt, mkWorld (<[Z.to_nat columnCount := Some cw]> (prometheusCKWriters w))
                    (ckdbConn w) (ck w) (faults w) (issued w))
  else (Panic "index out of range", w).

(** [common.NewCKConnections] *)
Definition NewCKConnections : M unit :=
  do f <- next_fault ;
  if (f : bool) then fail "dial failed" else set_conn true.

(** Modelled from the spec: [ckwriter.NewCKWriter] is outside the files at
    hand; it "attempt[s] local CREATE DATABASE IF NOT EXISTS, CREATE TABLE IF
    NOT EXISTS for both the local and distributed table" and returns the
    handle, not yet started. *)
Definition NewCKWriter (appLabelCount : Z) : M CKWriter :=
  do f <- next_fault ;
  if (f : bool) then fail "create table failed"
  else
    do _ <- log_stmt (CreateTables appLabelCount) ;
    do w <- get_world ;
    do _ <- set_ck (create_tables appLabelCount (ck w)) ;
    ret (mkCKWriter appLabelCount false).

(** [conn.Exec] of one ALTER statement. *)
Definition exec_alter (t : Table) (i : Z) : M (option DbError) :=
  do _ <- log_stmt (AlterAddColumn t i) ;
  do f <- next_fault ;
  if (f : bool) then ret (Some Failure)
  else
    do w <- get_world ;
    let '(c, e) := alter_add_column t i (ck w) in
    do _ <- set_ck c ;
    ret e.

Definition alter_tolerant (t : Table) (i : Z) : M unit :=
  do e <- exec_alter t i ;
  match e with
  | None => ret tt
  | Some err =>
      if contains (err_text err) "column with this name already exists"
      then ret tt
      else fail (err_text err)
  end.

(** The loop [for i := startIndex; i <= endIndex; i++] with its inner loop
    over the two table names; [n] counts the iterations left. *)
Fixpoint addAppLabelColumns_from (n : nat) (i : Z) : M unit :=
  match n with
  | O => ret tt
  | S n' =>
      do _ <- alter_tolerant SamplesLocal i ;
      do _ <- alter_tolerant Samples i ;
      addAppLabelColumns_from n' (i + 1)
  end.

Definition addAppLabelColumns (startIndex endIndex : Z) : M unit :=
  addAppLabelColumns_from (Z.to_nat (endIndex - startIndex + 1)) startIndex.

Definition getCurrentAppLabelColumnCount : M Z :=
  do _ <- log_stmt CountColumns ;
  do f <- next_fault ;
  if (f : bool) then
    do _ <- set_conn false ;
    fail "query failed"
  else
    do w <- get_world ;
    ret (match cols_dist (ck w) with
         | Some cs => Z.of_nat (length cs)
         | None => 0
         end).

(** [ckwriter.Run()] *)
Definition Run (cw : CKWriter) : CKWriter := mkCKWriter (cw_width cw) true.

(** [getOrCreateCkwriter]; the argument is [s.AppLabelValueIDs].  The
    statements replayed on the peer nodes go over other connections and
    their errors are only logged, so they leave this node's world as it
    is.  The mutex is held from the second lookup to the return. *)
Definition getOrCreateCkwriter (AppLabelValueIDs : list Z) : M CKWriter :=
  if (length AppLabelValueIDs =? 0)%nat then fail "AppLabelValueIDs is empty"
  else
    let appLabelCount := Z.of_nat (length AppLabelValueIDs) - 1 in
    if appLabelCount >? Z.of_nat MAX_APP_LABEL_COLUMN_INDEX
    then fail "the length of AppLabelValueIDs is > MAX_APP_LABEL_COLUMN_INDEX"
    else
      do writer <- getPrometheusCKWriters appLabelCount ;
      match writer with
      | Some cw => ret cw
      | None =>
          do writer <- getPrometheusCKWriters appLabelCount ;
          match writer with
          | Some cw => ret cw
          | None =>
              do w <- get_world ;
              do _ <- (if ckdbConn w then ret tt else NewCKConnections) ;
              do ckwriter <- NewCKWriter appLabelCount ;
              do currentCount <- getCurrentAppLabelColumnCount ;
              do _ <- (if currentCount <? appLabelCount
                    then addAppLabelColumns (currentCount + 1) appLabelCount
                    else ret tt) ;
              let ckwriter := Run ckwriter in
              do _ <- setPrometheusCKWriters appLabelCount ckwriter ;
              ret ckwriter
          end
      end.

(** [WriteBatch]; [batch] holds the [AppLabelValueIDs] of its samples.  The
    result is the number of samples handed to the writer. *)
Definition WriteBatch (batch : list (list Z)) : M nat :=
  match batch with
  | [] => ret O
  | prometheusMetrics :: _ => fun w =>
      match getOrCreateCkwriter prometheusMetrics w with
      | (Ok _, w') => (Ok (length batch), w')
      | (Err _, w') => (Ok O, w')
      | (Panic e, w') => (Panic e, w')
      end
  end.

(** The number of [app_label_value_id] columns of [samples], as
    [getCurrentAppLabelColumnCount] reads it from the catalog. *)
Definition column_count (w : World) : Z :=
  match cols_dist (ck w) with
  | Some cs => Z.of_nat (length cs)
  | None => 0
  end.

Definition fresh_world (fs : list bool) : World :=
  mkWorld empty_writers false (mkCK None None) fs [].

End WithConstant.

End Writer.

(** ** The single-flight refresh of the ID cache (package cache) *)

Module Cache.

(** Where a goroutine stands inside [tryRefresh]. *)
Inductive pc : Type :=
| AtSelect     (* at the [select] of the [for] loop *)
| Sleeping     (* in the [default] branch: [time.Sleep(time.Second)], then the log line *)
| Refreshing   (* received from [c.canRefresh], inside [c.refresh()] *)
| Returning    (* [refresh] returned, at [c.canRefresh <- true] *)
| Returned.    (* after [break LOOP] *)

#[global] Instance pc_eq_dec : EqDecision pc.
Proof. solve_decision. Defined.

(** One call of [tryRefresh]: its position and how many times it has entered
    [refresh]. *)
Record Call : Type := mkCall {
  at_ : pc;
  runs : nat;
}.

(** [canRefresh] is [make(chan bool, 1)]: the values buffered in it.  [calls]
    are the calls of [tryRefresh] in flight. *)
Record State : Type := mkState {
  canRefresh : list bool;
  calls : list Call;
}.

Definition capacity : nat := 1.

Definition move (t : nat) (c : Call) (p : pc) (s : State) : State :=
  mkState (canRefresh s) (<[t := mkCall p (runs c)]> (calls s)).

(** One atomic step of call [t].  The receive in the [select] takes the
    buffered value if there is one and falls to [default] otherwise; the send
    waits while the buffer is full.  [refresh] is code outside the files at
    hand: [returned] tells whether the [refresh] the call is inside returns
    in this step; while it does not, the call stays inside. *)
Definition step (returned : bool) (t : nat) (s : State) : State :=
  match calls s !! t with
  | None => s
  | Some c =>
      match at_ c with
      | AtSelect =>
          match canRefresh s with
          | _ :: rest => mkState rest (<[t := mkCall Refreshing (S (runs c))]> (calls s))
          | [] => move t c Sleeping s
          end
      | Sleeping => move t c AtSelect s
      | Refreshing => if returned then move t c Returning s else s
      | Returning =>
          if (length (canRefresh s) <? capacity)%nat
          then mkState (canRefresh s ++ [true]) (<[t := mkCall Returned (runs c)]> (calls s))
          else s
      | Returned => s
      end
  end.

(** The state after [n] steps when the scheduler picks call [sched i] for
    step [i] and [returns i] tells whether a [refresh] that is running at
    step [i] returns in it. *)
Fixpoint run (sched : nat -> nat) (returns : nat -> bool) (n : nat) (s : State) : State :=
  match n with
  | O => s
  | S n' => step (returns n') (sched n') (run sched returns n' s)
  end.

(** [Start] has sent the one token ([c.canRefresh <- true]); [k] calls of
    [tryRefresh] are about to run. *)
Definition init (k : nat) : State :=
  mkState [true] (replicate k (mkCall AtSelect O)).

Definition pc_of (s : State) (t : nat) : option pc := at_ <$> calls s !! t.

(** Every call is scheduled again and again. *)
Definition fair (k : nat) (sched : nat -> nat) : Prop :=
  forall t n, (t < k)%nat -> exists m, (n <= m)%nat /\ sched m = t.

(** Every [refresh] returns: a call that is inside [refresh] gets a step in
    which its [refresh] returns. *)
Definition refresh_returns (k : nat) (sched : nat -> nat) (returns : nat -> bool) : Prop :=
  forall n t, pc_of (run sched returns n (init k)) t = Some Refreshing ->
    exists m, (n <= m)%nat /\ sched m = t /\ returns m = true.

End Cache.

(** ** Go's string library, as far as the translator uses it *)

Module GoStrings.

Definition streq (a b : string) : bool := String.eqb a b.

(** [%d] of an integer *)
Definition itoa (z : Z) : string := NilZero.string_of_int (Z.to_int z).

(** [strings.Join] *)
Definition Join (l : list string) (sep : string) : string := String.concat sep l.

(** [strings.HasPrefix] *)
Definition HasPrefix (s p : string) : bool := String.prefix p s.

(** The text after the first [n] bytes. *)
Definition drop_bytes (n : nat) (s : string) : string :=
  substring n (String.length s - n) s.

(** [strings.TrimPrefix] *)
Definition TrimPrefix (s p : string) : string :=
  if HasPrefix s p then drop_bytes (String.length p) s else s.

(** [strings.Replace(s, old, new, 1)] for a non-empty [old] *)
Definition Replace1 (s old new : string) : string :=
  match String.index 0 old s with
  | Some i => substring 0 i s +:+ new +:+ drop_bytes (i + String.length old) s
  | None => s
  end.

(** [strings.Split] for a non-empty separator: cut at the first occurrence,
    again and again; [fuel] bounds the number of cuts. *)
Fixpoint Split_fuel (fuel : nat) (s sep : string) : list string :=
  match fuel with
  | O => [s]
  | S fuel' =>
      match String.index 0 sep s with
      | Some i =>
          substring 0 i s :: Split_fuel fuel' (drop_bytes (i + String.length sep) s) sep
      | None => [s]
      end
  end.

Definition Split (s sep : string) : list string :=
  Split_fuel (String.length s) s sep.

(** [strings.SplitN(s, sep, 2)] *)
Definition SplitN2 (s sep : string) : list string :=
  match String.index 0 sep s with
  | Some i => [substring 0 i s; drop_bytes (i + String.length sep) s]
  | None => [s]
  end.

(** [fmt.Sprintf] for a format whose only verb is [%s], with string
    arguments: a verb without argument prints [%!s(MISSING)], arguments left
    over are reported at the end. *)
Definition sprintf_extra (args : list string) : string :=
  match args with
  | [] => ""
  | _ => "%!(EXTRA " +:+ Join (map (fun a => "string=" +:+ a) args) ", " +:+ ")"
  end.

Fixpoint Sprintf (format : string) (args : list string) : string :=
  match format with
  | EmptyString => sprintf_extra args
  | String c rest =>
      if Ascii.eqb c "%" then
        match rest with
        | String c2 rest2 =>
            if Ascii.eqb c2 "s" then
              match args with
              | a :: args' => a +:+ Sprintf rest2 args'
              | [] => "%!s(MISSING)" +:+ Sprintf rest2 []
              end
            else String c (Sprintf rest args)
        | EmptyString => String c (Sprintf rest args)
        end
      else String c (Sprintf rest args)
  end.

(** [strings.ReplaceAll(s, old, new)] for one-byte [old] and [new] *)
Fixpoint ReplaceAll_byte (s : string) (old new : ascii) : string :=
  match s with
  | EmptyString => EmptyString
  | String c rest =>
      String (if Ascii.eqb c old then new else c) (ReplaceAll_byte rest old new)
  end.

(** Two's-complement wrap-around of [int32] and [int64] arithmetic. *)
Definition wrap32 (z : Z) : Z := (z + 2 ^ 31) mod 2 ^ 32 - 2 ^ 31.
Definition wrap64 (z : Z) : Z := (z + 2 ^ 63) mod 2 ^ 64 - 2 ^ 63.

(** [common.IsValueInSliceString] *)
Definition IsValueInSliceString (v : string) (l : list string) : bool :=
  existsb (streq v) l.

End GoStrings.

(** ** The remote-read translator (package service) *)

Module Service.

Import GoStrings.

Definition PROMETHEUS_METRICS_NAME : string := "__name__".
Definition EXT_METRICS_NATIVE_TAG_NAME : string := "tag".
Definition EXT_METRICS_TIME_COLUMNS : string := "timestamp".

Definition EXT_METRICS_TABLE : string := "metrics".
Definition PROMETHEUS_TABLE : string := "samples".
Definition L4_FLOW_LOG_TABLE : string := "l4_flow_log".
Definition L7_FLOW_LOG_TABLE : string := "l7_flow_log".
Definition VTAP_APP_EDGE_PORT_TABLE : string := "vtap_app_edge_port".
Definition VTAP_FLOW_EDGE_PORT_TABLE : string := "vtap_flow_edge_port".

Definition IGNORABLE_TAG_TYPE : string := "map".

Definition ignorableTagNames : list string := ["pod_ingress"; "lb_listener"; "time"].

Definition edgeTableNames : list string :=
  [VTAP_FLOW_EDGE_PORT_TABLE; VTAP_APP_EDGE_PORT_TABLE; L4_FLOW_LOG_TABLE; L7_FLOW_LOG_TABLE].

Definition matcherRules : list (string * string) :=
  [("k8s_label_", "k8s.label."); ("cloud_tag_", "cloud.tag.")].

(** Modelled from the spec: the database names ([chCommon.DB_NAME_...]) and
    the querier's function names ([view.FUNCTION_...]) are declared outside
    the files at hand; the spec names the dbs ext_metrics, deepflow_system,
    prometheus and flow_log and gives the map [sum→Sum, avg→Avg, min→Min,
    max→Max, stddev→Stddev, count_values→Count]. *)
Definition DB_NAME_EXT_METRICS : string := "ext_metrics".
Definition DB_NAME_DEEPFLOW_SYSTEM : string := "deepflow_system".
Definition DB_NAME_PROMETHEUS : string := "prometheus".
Definition DB_NAME_FLOW_LOG : string := "flow_log".

Definition FUNCTION_SUM : string := "Sum".
Definition FUNCTION_AVG : string := "Avg".
Definition FUNCTION_COUNT : string := "Count".
Definition FUNCTION_MIN : string := "Min".
Definition FUNCTION_MAX : string := "Max".
Definition FUNCTION_STDDEV : string := "Stddev".

Definition aggFunctions_table : list (string * string) :=
  [("sum", FUNCTION_SUM);
   ("avg", FUNCTION_AVG);
   ("count", FUNCTION_COUNT);
   ("min", FUNCTION_MIN);
   ("max", FUNCTION_MAX);
   ("group", "1");
   ("stddev", FUNCTION_STDDEV);
   ("stdvar", "");
   ("topk", "");
   ("bottomk", "");
   ("count_values", FUNCTION_COUNT);
   ("quantile", "")].

(** Indexing a Go [map[string]string]: the zero value for a missing key. *)
Fixpoint map_index (m : list (string * string)) (k : string) : string :=
  match m with
  | [] => ""
  | (k', v) :: m' => if streq k k' then v else map_index m' k
  end.

Definition aggFunctions (f : string) : string := map_index aggFunctions_table f.

Inductive prefix : Type := prefixNone | prefixDeepFlow | prefixTag.

(** [prompb.LabelMatcher_Type] is an int32 enum: the four declared values
    and any other number. *)
Inductive LabelMatcher_Type : Type :=
| LabelMatcher_EQ
| LabelMatcher_NEQ
| LabelMatcher_RE
| LabelMatcher_NRE
| LabelMatcher_other (n : Z).

Record LabelMatcher : Type := mkMatcher {
  Type_ : LabelMatcher_Type;
  Name : string;
  Value : string;
}.

Record ReadHints : Type := mkHints {
  StepMs : Z;
  Func : string;
  StartMs : Z;
  EndMs : Z;
  Grouping : list string;
  By : bool;
}.

Record Query : Type := mkQuery {
  StartTimestampMs : Z;
  EndTimestampMs : Z;
  Matchers : list LabelMatcher;
  Hints : option ReadHints;   (* a pointer: [None] is nil *)
}.

Record ReadRequest : Type := mkReadRequest {
  Queries : list Query;
}.

(** The two values the code keeps in the [context.Context]. *)
Record Ctx : Type := mkCtx {
  ctxShowTag : option bool;
  ctxPrefixType : option prefix;
}.

(** One row of a tag description: columns 0, 1, 2 and 4. *)
Record TagRow : Type := mkTagRow {
  tag_name : string;
  tag_client_name : string;
  tag_server_name : string;
  tag_type : string;
}.

(** A [float64], as its 64 bits. *)
Definition float64 : Type := Z.

(** What the package reads from outside: the rate limiter
    ([QPSLeakyBucket.Acquire]), the tag descriptions
    ([tagdescription.GetTagDescriptions], given db, table and statement), the
    keys of [chCommon.DB_TABLE_MAP], [config.Cfg], the conversion
    [float64(int)], [strconv.FormatFloat(val, 'f', -1, 64)], and the JSON
    decoder ([json.Unmarshal] into a [map[string]string], whose error is
    dropped): the entries of the decoded map in the order the runtime
    iterates over it. *)
Record Env : Type := mkEnv {
  Acquire : Z -> bool;
  GetTagDescriptions : string -> string -> string -> outcome (list TagRow);
  DB_TABLE_MAP : list string;
  Limit : string;
  AutoTaggingPrefix : string;
  RequestQueryWithDebug : bool;
  SeriesLimit : Z;
  float64_of_int : Z -> float64;
  FormatFloat : float64 -> string;
  Unmarshal : string -> list (string * string);
}.

(** The calls that leave the function. *)
Inductive Event : Type :=
| EvAcquire (n : Z)
| EvGetTagDescriptions (db table sql : string).

(** [getLabelMatcherType] *)
Definition getLabelMatcherType (t : LabelMatcher_Type) : string :=
  match t with
  | LabelMatcher_EQ => "="
  | LabelMatcher_NEQ => "!="
  | LabelMatcher_RE => "REGEXP"
  | LabelMatcher_NRE => "NOT REGEXP"
  | LabelMatcher_other _ => ""
  end.

(** [convertToQuerierAllowedTagName]: the two keys of [matcherRules] cannot
    both be a prefix of one name, so the order of the map does not matter. *)
Fixpoint convert_with (rules : list (string * string)) (tagName : string) : string :=
  match rules with
  | [] => tagName
  | (k, v) :: rules' =>
      if HasPrefix tagName k then Replace1 tagName k v
      else convert_with rules' tagName
  end.

Definition convertToQuerierAllowedTagName (matcherName : string) : string :=
  convert_with matcherRules matcherName.

Definition removeDeepFlowPrefix (env : Env) (tag : string) : string :=
  TrimPrefix tag (AutoTaggingPrefix env).

Definition removeTagPrefix (tag : string) : string := Replace1 tag "tag_" "".

(** The results of [parseMetric]; [metricAlias] is a format string. *)
Record Metric : Type := mkMetric {
  m_prefixType : prefix;
  m_metricName : string;
  m_db : string;
  m_table : string;
  m_dataPrecision : string;
  m_metricAlias : string;
  m_err : option string;
}.

Definition index_or_panic (l : list string) (i : nat) (k : string -> outcome Metric)
  : outcome Metric :=
  match l !! i with
  | Some x => k x
  | None => Panic "index out of range"
  end.

Definition parseMetric (env : Env) (matchers : list LabelMatcher) : outcome Metric :=
  match List.find (fun m => streq (Name m) PROMETHEUS_METRICS_NAME) matchers with
  | None => Ok (mkMetric prefixNone "" "" "" "" "" None)
  | Some matcher =>
      let metricName := Value matcher in
      if contains metricName "__" then
        let metricsSplit := Split metricName "__" in
        index_or_panic metricsSplit 0 (fun db0 =>
        if IsValueInSliceString db0 (DB_TABLE_MAP env) then
          let db := db0 in
          index_or_panic metricsSplit 1 (fun table =>
          index_or_panic metricsSplit 2 (fun metricName =>
          let dataPrecision :=
            match metricsSplit !! 3%nat with
            | Some p => p
            | None => ""
            end in
          if streq db DB_NAME_DEEPFLOW_SYSTEM then
            Ok (mkMetric prefixNone metricName db table dataPrecision "metrics.%s" None)
          else if streq db DB_NAME_EXT_METRICS then
            let realMetrics := SplitN2 metricName "_" in
            match realMetrics with
            | r0 :: r1 :: _ =>
                Ok (mkMetric prefixTag r1 db (r0 +:+ "." +:+ r1) dataPrecision
                      "metrics.%s" None)
            | _ =>
                Ok (mkMetric prefixTag metricName db table dataPrecision "metrics.%s" None)
            end
          else if streq db DB_NAME_PROMETHEUS then
            Ok (mkMetric prefixTag metricName db metricName dataPrecision
                  "value as `metrics.%s`" None)
          else
            Ok (mkMetric prefixNone metricName db table dataPrecision
                  "%s as `metrics.%s`" None)))
        else
          Ok (mkMetric prefixNone "" "" "" "" ""
                (Some ("unknown metrics " +:+ metricName))))
      else
        Ok (mkMetric prefixDeepFlow metricName "" metricName ""
              "value as `metrics.%s`" None)
  end.

Definition backquoted (s : string) : string := "`" +:+ s +:+ "`".

(** [showTags] *)
Definition showTags (env : Env) (db table : string) (startTime endTime : Z)
  : outcome (list string) * list Event :=
  let stmt d t :=
    "SHOW tags FROM " +:+ d +:+ "." +:+ t +:+ " WHERE time >= " +:+ itoa startTime
      +:+ " AND time <= " +:+ itoa endTime in
  let '(d, t) :=
    if streq db "" || streq db DB_NAME_PROMETHEUS then (DB_NAME_PROMETHEUS, PROMETHEUS_TABLE)
    else if streq db DB_NAME_EXT_METRICS then (DB_NAME_EXT_METRICS, EXT_METRICS_TABLE)
    else (db, table) in
  let ev := [EvGetTagDescriptions d t (stmt d t)] in
  match GetTagDescriptions env d t (stmt d t) with
  | Err e => (Err e, ev)
  | Panic e => (Panic e, ev)
  | Ok rows =>
      let one (row : TagRow) : list string :=
        if IsValueInSliceString (tag_name row) ignorableTagNames then []
        else if streq (tag_type row) IGNORABLE_TAG_TYPE then []
        else if IsValueInSliceString table edgeTableNames
                && negb (streq (tag_name row) (tag_client_name row))
        then [backquoted (tag_client_name row); backquoted (tag_server_name row)]
        else [backquoted (tag_name row)] in
      (Ok (flat_map one rows), ev)
  end.

(** [parseToQuerierSQL] *)
Definition parseToQuerierSQL (env : Env) (db table : string)
    (metrics filters groupBy : list string) : string :=
  if negb (streq db "") then
    ("SELECT " +:+ Join metrics "," +:+ " FROM " +:+ table +:+ " WHERE "
       +:+ Join filters " AND " +:+ " ")
    +:+ (if (0 <? length groupBy)%nat then "GROUP BY " +:+ Join groupBy "," else "")
    +:+ (" ORDER BY " +:+ EXT_METRICS_TIME_COLUMNS +:+ " desc LIMIT " +:+ Limit env)
  else
    "SELECT " +:+ Join metrics "," +:+ " FROM " +:+ table +:+ " WHERE "
      +:+ Join filters " AND " +:+ " ORDER BY " +:+ EXT_METRICS_TIME_COLUMNS
      +:+ " desc LIMIT " +:+ Limit env.

(** The db needs aggregation (line 151). *)
Definition native_db (db : string) : bool :=
  negb (streq db DB_NAME_EXT_METRICS) && negb (streq db DB_NAME_DEEPFLOW_SYSTEM)
  && negb (streq db DB_NAME_PROMETHEUS) && negb (streq db "").

(** The projection, the group-by list and [metricWithAggFunc] after the
    aggregation stage of a native db (lines 152-204). *)
Record Projection : Type := mkProjection {
  metricsArray : list string;
  groupBy : list string;
  metricWithAggFunc : string;
}.

Definition aggregation (h : ReadHints) (db metricName : string) (metricsArray : list string)
  : string + Projection :=
  if (length (Grouping h) =? 0)%nat then inl "unknown series"
  else if negb (By h) then inl "not support for 'without' clause for aggregation"
  else
    let aggOperator := aggFunctions (Func h) in
    if streq aggOperator "" then
      inl ("aggregation operator: " +:+ Func h +:+ " is not supported yet")
    else
      let metricsArray :=
        if StepMs h >? 0
        then <[0%nat := "time(time, " +:+ itoa (Z.quot (StepMs h) 1000) +:+ ") AS "
                         +:+ EXT_METRICS_TIME_COLUMNS]> metricsArray
        else metricsArray in
      let labels := map (fun g => backquoted (convertToQuerierAllowedTagName g)) (Grouping h) in
      let groupBy := EXT_METRICS_TIME_COLUMNS :: labels in
      let metricsArray := metricsArray ++ labels in
      if streq aggOperator FUNCTION_SUM || streq aggOperator FUNCTION_AVG
         || streq aggOperator FUNCTION_MIN || streq aggOperator FUNCTION_MAX
         || streq aggOperator FUNCTION_STDDEV
      then inr (mkProjection metricsArray groupBy
                  (aggOperator +:+ "(" +:+ backquoted metricName +:+ ")"))
      else if streq aggOperator "1"
      then inr (mkProjection metricsArray groupBy aggOperator)
      else if streq aggOperator FUNCTION_COUNT
      then
        if negb (streq db DB_NAME_FLOW_LOG) then inl "only supported Count for flow_log"
        else if streq (Func h) "count_values"
        then inr (mkProjection (metricsArray ++ [backquoted metricName])
                    (groupBy ++ [backquoted metricName]) "Sum(`log_count`)")
        else inr (mkProjection metricsArray groupBy "Sum(`log_count`)")
      else inr (mkProjection metricsArray groupBy "").

(** The metric column (lines 208-222). *)
Definition append_metric (db metricAlias metricName metricWithAggFunc : string)
    (metricsArray : list string) : list string :=
  if streq db "" || streq db DB_NAME_EXT_METRICS || streq db DB_NAME_DEEPFLOW_SYSTEM
     || streq db DB_NAME_PROMETHEUS
  then metricsArray ++ [Sprintf metricAlias [metricName]]
                    ++ [backquoted EXT_METRICS_NATIVE_TAG_NAME]
  else if negb (streq metricWithAggFunc "")
  then metricsArray ++ [Sprintf metricAlias [metricWithAggFunc; metricName]]
  else metricsArray ++ [Sprintf metricAlias [metricName; metricName]].

(** The loop over the matchers (lines 226-265): the filters and the
    projection grow together; an unknown matcher type ends it. *)
Fixpoint filter_matchers (env : Env) (db : string) (matchers : list LabelMatcher)
    (filters metricsArray : list string) : string + (list string * list string) :=
  match matchers with
  | [] => inr (filters, metricsArray)
  | matcher :: rest =>
      if streq (Name matcher) PROMETHEUS_METRICS_NAME
      then filter_matchers env db rest filters metricsArray
      else
        let operation := getLabelMatcherType (Type_ matcher) in
        if streq operation ""
        then inl ("unknown match type " +:+
                  match Type_ matcher with
                  | LabelMatcher_other n => itoa n
                  | _ => ""
                  end)
        else
          let cond (col : string) :=
            backquoted col +:+ " " +:+ operation +:+ " '" +:+ Value matcher +:+ "'" in
          if streq db "" || streq db DB_NAME_DEEPFLOW_SYSTEM then
            if HasPrefix (Name matcher) (AutoTaggingPrefix env) then
              let tagName :=
                convertToQuerierAllowedTagName (removeDeepFlowPrefix env (Name matcher)) in
              filter_matchers env db rest (filters ++ [cond tagName])
                (if RequestQueryWithDebug env then metricsArray ++ [tagName]
                 else metricsArray)
            else
              filter_matchers env db rest (filters ++ [cond ("tag." +:+ Name matcher)])
                (metricsArray ++ [backquoted ("tag." +:+ Name matcher)])
          else
            if HasPrefix (Name matcher) "tag_" then
              let tagName := removeTagPrefix (Name matcher) in
              filter_matchers env db rest (filters ++ [cond ("tag." +:+ tagName)])
                (if RequestQueryWithDebug env
                 then metricsArray ++ [backquoted ("tag." +:+ tagName)]
                 else metricsArray)
            else
              let tagName := convertToQuerierAllowedTagName (Name matcher) in
              filter_matchers env db rest (filters ++ [cond tagName]) metricsArray
  end.

(** What [promReaderTransToSQL] hands back: the context, the statement, the
    db, the data precision and the error; or a panic. *)
Inductive Translation : Type :=
| Returned (ctx : Ctx) (sql db dataPrecision : string) (err : option string)
| Panicked (e : string).

Definition failed (ctx : Ctx) (e : string) : Translation := Returned ctx "" "" "" (Some e).

Definition promReaderTransToSQL (env : Env) (ctx : Ctx) (req : ReadRequest)
  : Translation * list Event :=
  if negb (Acquire env 1000)
  then (failed ctx "Prometheus query rate exceeded!", [EvAcquire 1000])
  else
    match Queries req with
    | [] =>
        (failed ctx "len(req.Queries) == 0, this feature is not yet implemented!",
         [EvAcquire 1000])
    | q :: _ =>
        match Hints q with
        | None => (Panicked "nil pointer dereference", [EvAcquire 1000])
        | Some h =>
            let startTime := Z.quot (StartMs h) 1000 in
            let endTime :=
              if Z.rem (EndTimestampMs q) 1000 >? 0
              then Z.quot (EndMs h) 1000 + 1
              else Z.quot (EndMs h) 1000 in
            match parseMetric env (Matchers q) with
            | Panic e | Err e => (Panicked e, [EvAcquire 1000])
            | Ok m =>
                let ctx := mkCtx (ctxShowTag ctx) (Some (m_prefixType m)) in
                match m_err m with
                | Some e => (failed ctx e, [EvAcquire 1000])
                | None =>
                    let db := m_db m in
                    let table := m_table m in
                    let metricName := m_metricName m in
                    let metricsArray0 :=
                      ["toUnixTimestamp(time) AS " +:+ EXT_METRICS_TIME_COLUMNS] in
                    let isShowTagStatement :=
                      match ctxShowTag ctx with
                      | Some st => st
                      | None => false
                      end in
                    let continue (p : Projection) (evs : list Event) :=
                      let metricsArray :=
                        append_metric db (m_metricAlias m) metricName
                          (metricWithAggFunc p) (metricsArray p) in
                      let filters0 :=
                        ["(time >= " +:+ itoa startTime +:+ " AND time <= "
                           +:+ itoa endTime +:+ ")"] in
                      match filter_matchers env db (Matchers q) filters0 metricsArray with
                      | inl e => (failed ctx e, evs)
                      | inr (filters, metricsArray) =>
                          (Returned ctx
                             (parseToQuerierSQL env db table metricsArray filters (groupBy p))
                             db (m_dataPrecision m) None,
                           evs)
                      end in
                    if isShowTagStatement then
                      match showTags env db table startTime endTime with
                      | (Err e, evs) => (failed ctx e, EvAcquire 1000 :: evs)
                      | (Panic e, evs) => (Panicked e, EvAcquire 1000 :: evs)
                      | (Ok tagsArray, evs) =>
                          continue (mkProjection (metricsArray0 ++ tagsArray) [] "")
                            (EvAcquire 1000 :: evs)
                      end
                    else if native_db db then
                      match aggregation h db metricName metricsArray0 with
                      | inl e => (failed ctx e, [EvAcquire 1000])
                      | inr p => continue p [EvAcquire 1000]
                      end
                    else continue (mkProjection metricsArray0 [] "") [EvAcquire 1000]
                end
            end
        end
    end.


(** *** The response builder *)

(** A cell of a result row, an [interface{}]: [CTime] carries the text
    [val.String()] gives; [COther] is any other dynamic type. *)
Inductive Cell : Type :=
| CInt (z : Z)
| CFloat (f : float64)
| CTime (s : string)
| CString (s : string)
| CNil
| COther.

Record Label : Type := mkLabel {
  LName : string;
  LValue : string;
}.

Record Sample : Type := mkSample {
  Timestamp : Z;
  SampleValue : float64;
}.

Record TimeSeries : Type := mkTimeSeries {
  Labels : list Label;
  Samples : list Sample;
}.

(** [common.Result]: the column names, the rows, and the [ValueType] of
    each column's schema. *)
Record Result : Type := mkResult {
  Columns : list string;
  Values : list (list Cell);
  Schemas : list string;
}.

(** [getValue] *)
Definition getValue (env : Env) (value : Cell) : outcome string :=
  match value with
  | CInt val => Ok (itoa val)
  | CFloat val => Ok (FormatFloat env val)
  | CTime val => Ok val
  | CNil => Ok ""
  | CString val => Ok val
  | COther => Panic "interface conversion: interface {} is not string"
  end.

(** [isZero] *)
Definition isZero (value : Cell) : bool :=
  match value with
  | CString val => streq val "" || streq val "{}"
  | CInt val => val =? 0
  | CNil => true
  | _ => false
  end.

(** [formatTagName] *)
Definition formatTagName (tagName : string) : string :=
  ReplaceAll_byte (ReplaceAll_byte (ReplaceAll_byte tagName "." "_") "-" "_") "/" "_".

Definition appendDeepFlowPrefix (env : Env) (tag : string) : string :=
  AutoTaggingPrefix env +:+ tag.

Definition appendPrometheusPrefix (tag : string) : string := "tag_" +:+ tag.

(** The indices the first loop over [result.Columns] leaves behind. *)
Record ColumnIndex : Type := mkColumnIndex {
  tagIndex : Z;
  metricsIndex : Z;
  timeIndex : Z;
  metricsName : string;
  tagsFieldIndex : list Z;
  otherTagCount : Z;
}.

Fixpoint scan_columns (i : Z) (columns : list string) (ci : ColumnIndex) : ColumnIndex :=
  match columns with
  | [] => ci
  | tag :: rest =>
      scan_columns (i + 1) rest
        (if streq tag EXT_METRICS_NATIVE_TAG_NAME then
           mkColumnIndex i (metricsIndex ci) (timeIndex ci) (metricsName ci)
             (tagsFieldIndex ci) (otherTagCount ci)
         else if HasPrefix tag "tag." then
           mkColumnIndex (tagIndex ci) (metricsIndex ci) (timeIndex ci) (metricsName ci)
             (i :: tagsFieldIndex ci) (otherTagCount ci)
         else if HasPrefix tag "metrics." then
           mkColumnIndex (tagIndex ci) i (timeIndex ci) (TrimPrefix tag "metrics.")
             (tagsFieldIndex ci) (otherTagCount ci)
         else if streq tag EXT_METRICS_TIME_COLUMNS then
           mkColumnIndex (tagIndex ci) (metricsIndex ci) i (metricsName ci)
             (tagsFieldIndex ci) (otherTagCount ci)
         else
           mkColumnIndex (tagIndex ci) (metricsIndex ci) (timeIndex ci) (metricsName ci)
             (tagsFieldIndex ci) (otherTagCount ci + 1))
  end.

Definition Z_in (i : Z) (l : list Z) : bool := existsb (Z.eqb i) l.

(** [allDeepFlowNativeTags] *)
Definition native_tags (ci : ColumnIndex) (columns : list string) : list Z :=
  List.filter
    (fun i => negb ((i =? tagIndex ci) || (i =? metricsIndex ci) || (i =? timeIndex ci)
                    || Z_in i (tagsFieldIndex ci)))
    (seqZ 0 (Z.of_nat (length columns))).

(** [values[idx]] *)
Definition cell_at (values : list Cell) (idx : Z) : outcome Cell :=
  if idx <? 0 then Panic "index out of range"
  else match values !! Z.to_nat idx with
       | Some c => Ok c
       | None => Panic "index out of range"
       end.

(** [values[tagIndex].(string)] when there is a [tag] column *)
Definition prom_tag_json (ci : ColumnIndex) (values : list Cell) : outcome string :=
  if tagIndex ci >? -1 then
    match cell_at values (tagIndex ci) with
    | Ok (CString s) => Ok s
    | Ok _ => Panic "interface conversion: interface {} is not string"
    | Err e => Err e
    | Panic e => Panic e
    end
  else Ok "".

(** [tagsStrList] of a row: index and value of every native tag column. *)
Fixpoint tags_str_list (env : Env) (natives : list Z) (values : list Cell)
  : outcome (list string) :=
  match natives with
  | [] => Ok []
  | idx :: rest =>
      match cell_at values idx with
      | Ok c =>
          match getValue env c with
          | Ok v =>
              match tags_str_list env rest values with
              | Ok l => Ok (itoa idx :: v :: l)
              | Err e => Err e
              | Panic e => Panic e
              end
          | Err e => Err e
          | Panic e => Panic e
          end
      | Err e => Err e
      | Panic e => Panic e
      end
  end.

(** [deepflowNativeTagString], the key of the row in [seriesIndexMap]. *)
Definition series_key (env : Env) (ci : ColumnIndex) (natives : list Z)
    (values : list Cell) : outcome string :=
  match prom_tag_json ci values with
  | Ok promTagJson =>
      if (0 <? length natives)%nat then
        match tags_str_list env natives values with
        | Ok tagsStrList => Ok (promTagJson +:+ Join tagsStrList "-")
        | Err e => Err e
        | Panic e => Panic e
        end
      else Ok promTagJson
  | Err e => Err e
  | Panic e => Panic e
  end.

(** The labels of the native tag columns: zero values are left out. *)
Fixpoint native_labels (env : Env) (pfx : prefix) (ci : ColumnIndex)
    (columns : list string) (natives : list Z) (values : list Cell)
  : outcome (list Label) :=
  match natives with
  | [] => Ok []
  | idx :: rest =>
      match cell_at values idx with
      | Ok c =>
          if isZero c then native_labels env pfx ci columns rest values
          else
            match columns !! Z.to_nat idx, getValue env c with
            | Some col, Ok v =>
                let name :=
                  if (tagIndex ci >? -1)
                     && match pfx with prefixDeepFlow => true | _ => false end
                  then appendDeepFlowPrefix env (formatTagName col)
                  else formatTagName col in
                match native_labels env pfx ci columns rest values with
                | Ok l => Ok (mkLabel name v :: l)
                | Err e => Err e
                | Panic e => Panic e
                end
            | None, _ => Panic "index out of range"
            | _, Err e => Err e
            | _, Panic e => Panic e
            end
      | Err e => Err e
      | Panic e => Panic e
      end
  end.

(** The labels of a new series. *)
Definition series_labels (env : Env) (pfx : prefix) (ci : ColumnIndex)
    (columns : list string) (natives : list Z) (values : list Cell) (promTagJson : string)
  : outcome (list Label) :=
  let tagPairs :=
    if tagIndex ci >? -1 then
      map (fun kv : string * string =>
             match pfx with
             | prefixTag => mkLabel (appendPrometheusPrefix (fst kv)) (snd kv)
             | _ => mkLabel (fst kv) (snd kv)
             end)
          (Unmarshal env promTagJson)
    else [] in
  match native_labels env pfx ci columns natives values with
  | Ok l => Ok (tagPairs ++ l ++ [mkLabel PROMETHEUS_METRICS_NAME (metricsName ci)])
  | Err e => Err e
  | Panic e => Panic e
  end.

(** The variables of the first pass over the rows. *)
Record Pass1 : Type := mkPass1 {
  seriesIndexMap : gmap string Z;
  seriesArray : list TimeSeries;
  sampleSeriesIndex : list Z;
  seriesSampleCount : list Z;
  initialSeriesIndex : Z;
}.

(** [arr[i] = f(arr[i])] on a slice of [int32] *)
Definition slice_update (arr : list Z) (i : Z) (f : Z -> Z) : outcome (list Z) :=
  if i <? 0 then Panic "index out of range"
  else match arr !! Z.to_nat i with
       | Some x => Ok (<[Z.to_nat i := f x]> arr)
       | None => Panic "index out of range"
       end.

(** The body of the first loop for row [i]. *)
Definition assign_row (env : Env) (pfx : prefix) (ci : ColumnIndex) (columns : list string)
    (natives : list Z) (i : Z) (values : list Cell) (st : Pass1) : outcome Pass1 :=
  match prom_tag_json ci values, series_key env ci natives values with
  | Ok promTagJson, Ok key =>
      match seriesIndexMap st !! key with
      | Some index =>
          match slice_update (sampleSeriesIndex st) i (fun _ => index),
                slice_update (seriesSampleCount st) index (fun c => wrap32 (c + 1)) with
          | Ok ssi, Ok ssc =>
              Ok (mkPass1 (seriesIndexMap st) (seriesArray st) ssi ssc
                    (initialSeriesIndex st))
          | Panic e, _ | _, Panic e => Panic e
          | Err e, _ | _, Err e => Err e
          end
      | None =>
          if Z.of_nat (size (seriesIndexMap st)) >=? SeriesLimit env then
            match slice_update (sampleSeriesIndex st) i (fun _ => -1) with
            | Ok ssi =>
                Ok (mkPass1 (seriesIndexMap st) (seriesArray st) ssi
                      (seriesSampleCount st) (initialSeriesIndex st))
            | Err e => Err e
            | Panic e => Panic e
            end
          else
            match series_labels env pfx ci columns natives values promTagJson with
            | Ok pairs =>
                match slice_update (sampleSeriesIndex st) i
                        (fun _ => initialSeriesIndex st),
                      slice_update (seriesSampleCount st) (initialSeriesIndex st)
                        (fun _ => 1) with
                | Ok ssi, Ok ssc =>
                    Ok (mkPass1
                          (<[key := initialSeriesIndex st]> (seriesIndexMap st))
                          (seriesArray st ++ [mkTimeSeries pairs []])
                          ssi ssc
                          (wrap32 (initialSeriesIndex st + 1)))
                | Panic e, _ | _, Panic e => Panic e
                | Err e, _ | _, Err e => Err e
                end
            | Err e => Err e
            | Panic e => Panic e
            end
      end
  | Panic e, _ | _, Panic e => Panic e
  | Err e, _ | _, Err e => Err e
  end.

Fixpoint assign_rows (env : Env) (pfx : prefix) (ci : ColumnIndex) (columns : list string)
    (natives : list Z) (i : Z) (rows : list (list Cell)) (st : Pass1) : outcome Pass1 :=
  match rows with
  | [] => Ok st
  | values :: rest =>
      match assign_row env pfx ci columns natives i values st with
      | Ok st' => assign_rows env pfx ci columns natives (i + 1) rest st'
      | Err e => Err e
      | Panic e => Panic e
      end
  end.

(** The body of the second loop for row [i]: [None] when the row adds no
    sample. *)
Definition row_sample (env : Env) (ci : ColumnIndex) (metricsType : string)
    (values : list Cell) : outcome (option Sample) :=
  match cell_at values (metricsIndex ci) with
  | Ok CNil => Ok None
  | Ok cell =>
      let with_value (metricsValue : float64) : outcome (option Sample) :=
        match cell_at values (timeIndex ci) with
        | Ok (CInt t) => Ok (Some (mkSample (wrap64 (t * 1000)) metricsValue))
        | Ok _ => Panic "interface conversion: interface {} is not int"
        | Err e => Err e
        | Panic e => Panic e
        end in
      if streq metricsType "Int" then
        match cell with
        | CInt v => with_value (float64_of_int env v)
        | _ => Panic "interface conversion: interface {} is not int"
        end
      else if streq metricsType "Float64" then
        match cell with
        | CFloat v => with_value v
        | _ => Panic "interface conversion: interface {} is not float64"
        end
      else Err ("Unknown metrics type " +:+ metricsType)
  | Err e => Err e
  | Panic e => Panic e
  end.

Definition append_sample (series : list TimeSeries) (seriesIndex : Z) (s : Sample)
  : outcome (list TimeSeries) :=
  if seriesIndex <? 0 then Panic "index out of range"
  else match series !! Z.to_nat seriesIndex with
       | Some ts =>
           Ok (<[Z.to_nat seriesIndex := mkTimeSeries (Labels ts) (Samples ts ++ [s])]>
                 series)
       | None => Panic "index out of range"
       end.

(** The second loop, over the rows from the last to the first: [rev_rows]
    pairs each row with its entry of [sampleSeriesIndex]. *)
Fixpoint fill_samples (env : Env) (ci : ColumnIndex) (metricsType : string)
    (rev_rows : list (Z * list Cell)) (series : list TimeSeries)
  : outcome (list TimeSeries) :=
  match rev_rows with
  | [] => Ok series
  | (seriesIndex, values) :: rest =>
      if seriesIndex =? -1 then fill_samples env ci metricsType rest series
      else
        match row_sample env ci metricsType values with
        | Ok None => fill_samples env ci metricsType rest series
        | Ok (Some s) =>
            match append_sample series seriesIndex s with
            | Ok series' => fill_samples env ci metricsType rest series'
            | Err e => Err e
            | Panic e => Panic e
            end
        | Err e => Err e
        | Panic e => Panic e
        end
  end.

Definition columns_of (result : Result) : ColumnIndex :=
  scan_columns 0 (Columns result) (mkColumnIndex (-1) (-1) (-1) "" [] 0).

Definition first_pass (env : Env) (ctx : Ctx) (result : Result) : outcome Pass1 :=
  let ci := columns_of result in
  let pfx := match ctxPrefixType ctx with Some p => p | None => prefixNone end in
  let natives := native_tags ci (Columns result) in
  let maxPossibleSeries :=
    if Z.of_nat (length (Values result)) >? SeriesLimit env
    then SeriesLimit env
    else Z.of_nat (length (Values result)) in
  if maxPossibleSeries <? 0 then Panic "makeslice: cap out of range"
  else
    assign_rows env pfx ci (Columns result) natives 0 (Values result)
      (mkPass1 ∅ [] (replicate (length (Values result)) 0)
         (replicate (Z.to_nat maxPossibleSeries) 0) 0).

(** [respTransToProm]: the time series of [resp.Results[0]]. *)
Definition respTransToProm (env : Env) (ctx : Ctx) (result : Result)
  : outcome (list TimeSeries) :=
  let ci := columns_of result in
  if (metricsIndex ci <? 0) || (timeIndex ci <? 0)
  then Err ("metricsIndex(" +:+ itoa (metricsIndex ci) +:+ "), timeIndex("
            +:+ itoa (timeIndex ci) +:+ ") get failed")
  else
    match Schemas result !! Z.to_nat (metricsIndex ci) with
    | None => Panic "index out of range"
    | Some metricsType =>
        match first_pass env ctx result with
        | Ok st =>
            fill_samples env ci metricsType
              (rev (zip (sampleSeriesIndex st) (Values result))) (seriesArray st)
        | Err e => Err e
        | Panic e => Panic e
        end
    end.

End Service.

(** ** The JSON parameter check (package common) *)

Module Common.

Import GoStrings.

(** A decoded JSON text.  The members of an object are kept in the order of
    the text; a Go map holds, for a name that occurs twice, the value of
    its last occurrence. *)
#[warnings="-register-all"]
Inductive JSON : Type :=
| JNull
| JBool (b : bool)
| JNumber (n : string)
| JString (s : string)
| JArray (items : list JSON)
| JObject (members : list (string * JSON)).

(** A Go type as [reflect] shows it: a struct with, per field, the value of
    its [json] tag (empty when there is none) and the field's type; pointer,
    array, slice and map with their element type; any other kind.  Types
    are finite trees here: on a type that refers to itself the Go function
    does not return. *)
#[warnings="-register-all"]
Inductive GoType : Type :=
| TStruct (fields : list (string * GoType))
| TPtr (elem : GoType)
| TArray (elem : GoType)
| TSlice (elem : GoType)
| TMap (elem : GoType)
| TOther.

(** What the package takes from the runtime: the decoder of
    [encoding/json] (the error text, or the value), and the order in which
    [range] visits the keys of a map. *)
Record Runtime : Type := mkRuntime {
  decode : string -> string + JSON;
  range_order : gset string -> list string;
}.

Definition shadowed (name : string) (later : list (string * JSON)) : bool :=
  existsb (fun kv => streq (fst kv) name) later.

(** [getAllKeys]: the keys it adds to the map, in the order of the text. *)
Fixpoint getAllKeys (data : JSON) : list string :=
  match data with
  | JObject members =>
      (fix each (ms : list (string * JSON)) : list string :=
         match ms with
         | [] => []
         | (key, value) :: rest =>
             key :: (if shadowed key rest then [] else getAllKeys value) ++ each rest
         end) members
  | JArray items =>
      (fix each (l : list JSON) : list string :=
         match l with
         | [] => []
         | item :: rest => getAllKeys item ++ each rest
         end) items
  | _ => []
  end.

Definition newline : string := String (ascii_of_nat 10) EmptyString.

(** [GetAllKeys]: [json.Unmarshal] into a [map[string]interface{}] accepts
    an object and [null] and nothing else. *)
Definition GetAllKeys (rt : Runtime) (jsonString : string) : string + gset string :=
  let invalid (e : string) : string + gset string :=
    inl ("not a valid JSON string: " +:+ jsonString +:+ newline +:+ "err: " +:+ e) in
  match decode rt jsonString with
  | inl e => invalid e
  | inr (JObject members) => inr (list_to_set (getAllKeys (JObject members)))
  | inr JNull => inr ∅
  | inr (JArray _) =>
      invalid "json: cannot unmarshal array into Go value of type map[string]interface {}"
  | inr (JString _) =>
      invalid "json: cannot unmarshal string into Go value of type map[string]interface {}"
  | inr (JNumber _) =>
      invalid "json: cannot unmarshal number into Go value of type map[string]interface {}"
  | inr (JBool _) =>
      invalid "json: cannot unmarshal bool into Go value of type map[string]interface {}"
  end.

(** [getAllJSONTags]: the tags it adds to the map. *)
Fixpoint getAllJSONTags (typ : GoType) : list string :=
  let each :=
    fix each (fields : list (string * GoType)) : list string :=
      match fields with
      | [] => []
      | (tag, ftype) :: rest =>
          if streq tag "" then each rest
          else
            tag ::
            match ftype with
            | TStruct _ | TPtr _ => getAllJSONTags ftype
            | TArray elem | TSlice elem | TMap elem => getAllJSONTags elem
            | TOther => []
            end ++ each rest
      end in
  match typ with
  | TPtr (TStruct fields) => each fields
  | TStruct fields => each fields
  | _ => []
  end.

(** [GetJsonTags] *)
Definition GetJsonTags (v : GoType) : gset string := list_to_set (getAllJSONTags v).

(** [CheckJSONParam]: [None] is the nil error. *)
Definition CheckJSONParam (rt : Runtime) (jsonString : string) (v : GoType) : option string :=
  let jsonTags := GetJsonTags v in
  match GetAllKeys rt jsonString with
  | inl err => Some err
  | inr keyMap =>
      match List.find (fun key => negb (bool_decide (key ∈ jsonTags))) (range_order rt keyMap) with
      | Some key => Some ("rogue field(" +:+ key +:+ ")")
      | None => None
      end
  end.

End Common.

(** ** The writer: table initialisation (package dbwriter) *)

Module WriterInit.

Import Writer.

Section WithConstant.

Variable MAX_APP_LABEL_COLUMN_INDEX : nat.

(** [w.ckdbConn.Exec("CREATE DATABASE IF NOT EXISTS prometheus")]: the
    statement leaves the tables as they are; [Some e] is the error it
    returned. *)
Definition exec_create_database : M (option string) :=
  do f <- next_fault ;
  ret (if (f : bool) then Some "create database failed" else None).

(** A call whose error is dropped. *)
Definition dropped {A} (m : M A) : M unit := fun w =>
  match m w with
  | (Ok _, w') => (Ok tt, w')
  | (Err _, w') => (Ok tt, w')
  | (Panic e, w') => (Panic e, w')
  end.

(** [InitTable]: the sample it asks a writer for has [AppLabelValueIDs =
    make([]uint32, 1)]. *)
Definition InitTable : M unit :=
  do w <- get_world ;
  do _ <- (if ckdbConn w then ret tt else NewCKConnections) ;
  do err <- exec_create_database ;
  do _ <- dropped (getOrCreateCkwriter MAX_APP_LABEL_COLUMN_INDEX [0]) ;
  match err with
  | Some e => fail e
  | None => ret tt
  end.

End WithConstant.

End WriterInit.

(** ** Forwarding to the master controller (package common) *)

Module Forward.

Import GoStrings.

(** [ForwardMasterController]: the host the request is sent on with,
    [c.Request.Host] after the first statement.  [Replace1] with an empty
    [old] puts [new] in front, as [strings.Replace(s, "", new, 1)] does. *)
Definition ForwardMasterController_host (host masterControllerName : string) (port : Z)
  : string :=
  let requestHosts := Split host ":" in
  if (1 <? length requestHosts)%nat then
    match requestHosts with
    | first :: _ => Replace1 host first masterControllerName
    | [] => host
    end
  else masterControllerName +:+ ":" +:+ itoa port.

End Forward.

(** ** The query counters (package statsd) *)

Module Statsd.

(** [uint64] arithmetic wraps around. *)
Definition u64 (z : Z) : Z := z mod 2 ^ 64.

Record ClickhouseCounter : Type := mkClickhouseCounter {
  QueryCount : Z;
  ResponseSize : Z;
  RowCount : Z;
  ColumnCount : Z;
  QueryTime : Z;
  QueryTimeSum : Z;
  QueryTimeAvg : Z;
  QueryTimeMax : Z;
  ApiTime : Z;
  ApiTimeSum : Z;
  ApiTimeAvg : Z;
  ApiTimeMax : Z;
  ApiCount : Z;
}.

(** [&ClickhouseCounter{}] *)
Definition zero : ClickhouseCounter := mkClickhouseCounter 0 0 0 0 0 0 0 0 0 0 0 0 0.

(** The body of the goroutine [WriteCk] starts, run with the mutex held:
    [ck] is [*c.ck] before and after.  The division panics when
    [QueryCount] has wrapped around to 0. *)
Definition WriteCk (ck qc : ClickhouseCounter) : outcome ClickhouseCounter :=
  let responseSize := u64 (ResponseSize ck + ResponseSize qc) in
  let rowCount := u64 (RowCount ck + RowCount qc) in
  let columnCount := u64 (ColumnCount ck + u64 (ColumnCount qc * RowCount qc)) in
  let queryCount := u64 (QueryCount ck + 1) in
  let queryTimeSum := u64 (QueryTimeSum ck + QueryTime qc) in
  if queryCount =? 0 then Panic "runtime error: integer divide by zero"
  else
    let queryTimeAvg := queryTimeSum / queryCount in
    let queryTimeMax :=
      if QueryTime qc >? QueryTimeMax ck then QueryTime qc else QueryTimeMax ck in
    Ok (mkClickhouseCounter queryCount responseSize rowCount columnCount (QueryTime ck)
          queryTimeSum queryTimeAvg queryTimeMax
          (ApiTime ck) (ApiTimeSum ck) (ApiTimeAvg ck) (ApiTimeMax ck) (ApiCount ck)).

(** The body of the goroutine [WriteApi] starts. *)
Definition WriteApi (ck qc : ClickhouseCounter) : outcome ClickhouseCounter :=
  let apiCount := u64 (ApiCount ck + 1) in
  let apiTimeSum := u64 (ApiTimeSum ck + ApiTime qc) in
  if apiCount =? 0 then Panic "runtime error: integer divide by zero"
  else
    let apiTimeAvg := apiTimeSum / apiCount in
    let apiTimeMax := if ApiTime qc >? ApiTimeMax ck then ApiTime qc else ApiTimeMax ck in
    Ok (mkClickhouseCounter (QueryCount ck) (ResponseSize ck) (RowCount ck) (ColumnCount ck)
          (QueryTime ck) (QueryTimeSum ck) (QueryTimeAvg ck) (QueryTimeMax ck)
          (ApiTime ck) apiTimeSum apiTimeAvg apiTimeMax apiCount).

(** [GetCounter]: the counter handed out, and the fresh one left in
    [c.ck]. *)
Definition GetCounter (ck : ClickhouseCounter) : ClickhouseCounter * ClickhouseCounter :=
  (ck, zero).

(** The goroutines started by calls of [WriteCk] and [WriteApi] take the
    mutex one after the other, in an order the scheduler chooses. *)
Inductive Write : Type :=
| Ck (qc : ClickhouseCounter)
| Api (qc : ClickhouseCounter).

Definition write (ck : ClickhouseCounter) (op : Write) : outcome ClickhouseCounter :=
  match op with
  | Ck qc => WriteCk ck qc
  | Api qc => WriteApi ck qc
  end.

Fixpoint writes (ops : list Write) (ck : ClickhouseCounter) : outcome ClickhouseCounter :=
  match ops with
  | [] => Ok ck
  | op :: rest =>
      match write ck op with
      | Ok ck' => writes rest ck'
      | Err e => Err e
      | Panic e => Panic e
      end
  end.

End Statsd.

(** * Properties *)

(** ** The writer: array bounds and schema widening *)

Section WriterProperties.

Import Writer.

Variable MAX : nat.

(** Columns are only ever appended. *)
Definition extends (w w' : World) : Prop :=
  forall t cs, table_cols t (ck w) = Some cs ->
    exists more, table_cols t (ck w') = Some (cs ++ more).

(** The statements a call added to the log. *)
Definition issued_by (w w' : World) (stmts : list Stmt) : Prop :=
  issued w' = issued w ++ stmts.

Fixpoint alter_statements (n : nat) (i : Z) : list Stmt :=
  match n with
  | O => []
  | S n' =>
      AlterAddColumn SamplesLocal i :: AlterAddColumn Samples i
        :: alter_statements n' (i + 1)
  end.

(** The columns of [samples] are numbered [1..K] without a gap, and a
    cached writer of width [k] has its [k] columns. *)
Record wf (w : World) : Prop := mkWf {
  wf_length : length (prometheusCKWriters w) = MAX;
  wf_dense : forall cs, cols_dist (ck w) = Some cs ->
               cs = seqZ 1 (Z.of_nat (length cs));
  wf_cached : forall k cw, prometheusCKWriters w !! k = Some (Some cw) ->
               Z.of_nat k <= column_count w;
}.

Lemma extends_refl w : extends w w.
Proof. intros t cs H. exists []. by rewrite app_nil_r. Qed.

Lemma extends_trans w1 w2 w3 : extends w1 w2 -> extends w2 w3 -> extends w1 w3.
Proof.
  intros H12 H23 t cs H.
  destruct (H12 t cs H) as [m1 H1].
  destruct (H23 t _ H1) as [m2 H2].
  exists (m1 ++ m2). by rewrite app_assoc.
Qed.

Lemma extends_column_count w w' : extends w w' -> column_count w <= column_count w'.
Proof.
  intros H. unfold column_count.
  destruct (cols_dist (ck w)) as [cs|] eqn:E.
  - destruct (H Samples cs E) as [more Hm]. simpl in Hm. rewrite Hm.
    rewrite length_app. lia.
  - destruct (cols_dist (ck w')); lia.
Qed.

Lemma Z_mem_spec i l : Z_mem i l = true <-> i ∈ l.
Proof.
  unfold Z_mem. rewrite existsb_exists. split.
  - intros [x [Hin Heq]]. apply Z.eqb_eq in Heq. subst. by apply list_elem_of_In.
  - intros Hin. exists i. split; [by apply list_elem_of_In | apply Z.eqb_refl].
Qed.

Lemma seqZ_snoc (n : nat) :
  seqZ 1 (Z.of_nat n) ++ [Z.of_nat n + 1] = seqZ 1 (Z.of_nat (S n)).
Proof.
  replace (Z.of_nat (S n)) with (Z.of_nat n + 1) by lia.
  rewrite seqZ_app by lia. simpl.
  replace (1 + Z.of_nat n) with (Z.of_nat n + 1) by lia. reflexivity.
Qed.

Definition is_alter (s : Stmt) : bool :=
  match s with
  | AlterAddColumn _ _ => true
  | _ => false
  end.

Ltac run_world w :=
  destruct w as [ws conn [cl cd] fs iss]; cbn in *.

Lemma alter_tolerant_spec t i w r w' :
  alter_tolerant t i w = (r, w') ->
  prometheusCKWriters w' = prometheusCKWriters w /\
  ckdbConn w' = ckdbConn w /\
  issued w' = issued w ++ [AlterAddColumn t i] /\
  (forall t', t' <> t -> table_cols t' (ck w') = table_cols t' (ck w)) /\
  (table_cols t (ck w') = table_cols t (ck w) \/
   exists cs, table_cols t (ck w) = Some cs /\ table_cols t (ck w') = Some (cs ++ [i])) /\
  ((r = Ok tt /\ exists cs, table_cols t (ck w') = Some cs /\ i ∈ cs) \/
   ((exists e, r = Err e) /\ ck w' = ck w)).
Proof.
  unfold alter_tolerant, exec_alter, bind, log_stmt, next_fault, get_world, set_ck, ret, fail.
  run_world w.
  destruct fs as [|[|] fs]; cbn.
  - unfold alter_add_column.
    destruct t; cbn; [destruct cl as [cs|] | destruct cd as [cs|]]; cbn;
      try (destruct (Z_mem i cs) eqn:Hm; cbn);
      intros [= <- <-]; cbn; repeat split; try (intros [] ?; cbn; congruence);
      try (apply Z_mem_spec in Hm); eauto 10;
      try (left; split; [done|]; eexists; split; [done|]; set_solver).
  - intros [= <- <-]; cbn. repeat split; eauto.
  - unfold alter_add_column.
    destruct t; cbn; [destruct cl as [cs|] | destruct cd as [cs|]]; cbn;
      try (destruct (Z_mem i cs) eqn:Hm; cbn);
      intros [= <- <-]; cbn; repeat split; try (intros [] ?; cbn; congruence);
      try (apply Z_mem_spec in Hm); eauto 10;
      try (left; split; [done|]; eexists; split; [done|]; set_solver).
Qed.

Lemma alter_tolerant_extends t i w r w' :
  alter_tolerant t i w = (r, w') -> extends w w'.
Proof.
  intros H. apply alter_tolerant_spec in H as (_ & _ & _ & Hother & Hthis & _).
  intros t' cs Hcs. destruct (decide (t' = t)) as [->|Hne].
  - destruct Hthis as [Hsame | (cs' & Hcs' & Hnew)].
    + exists []. rewrite Hsame, Hcs. by rewrite app_nil_r.
    + exists [i]. rewrite Hnew. congruence.
  - exists []. rewrite (Hother t' Hne), Hcs. by rewrite app_nil_r.
Qed.

Lemma seqZ_extend (i : Z) : 1 <= i -> seqZ 1 (i - 1) ++ [i] = seqZ 1 i.
Proof.
  intros Hi. replace i with (Z.of_nat (Z.to_nat (i - 1)) + 1) at 2 3 by lia.
  replace (i - 1) with (Z.of_nat (Z.to_nat (i - 1))) at 1 by lia.
  rewrite seqZ_snoc. f_equal. lia.
Qed.

Lemma not_in_seqZ_below (i : Z) : i ∉ seqZ 1 (i - 1).
Proof. rewrite elem_of_seqZ. lia. Qed.

Lemma addAppLabelColumns_from_spec n : forall i w r w',
  addAppLabelColumns_from n i w = (r, w') ->
  cols_dist (ck w) = Some (seqZ 1 (i - 1)) -> 1 <= i ->
  prometheusCKWriters w' = prometheusCKWriters w /\
  ckdbConn w' = ckdbConn w /\
  extends w w' /\
  (exists stmts, issued w' = issued w ++ stmts /\
     stmts `prefix_of` alter_statements n i /\
     (r = Ok tt -> stmts = alter_statements n i)) /\
  ((r = Ok tt /\ cols_dist (ck w') = Some (seqZ 1 (i - 1 + Z.of_nat n))) \/
   ((exists e, r = Err e) /\
    exists m, i - 1 <= m /\ cols_dist (ck w') = Some (seqZ 1 m))).
Proof.
  induction n as [|n IH]; intros i w r w' Hrun Hdist Hi.
  - injection Hrun as <- <-. repeat split; auto using extends_refl.
    + exists []. rewrite app_nil_r. repeat split; auto. 
    + left. split; [done|]. rewrite Hdist. f_equal. f_equal. lia.
  - cbn [addAppLabelColumns_from] in Hrun. unfold bind in Hrun.
    destruct (alter_tolerant SamplesLocal i w) as [r1 w1] eqn:H1.
    pose proof (alter_tolerant_extends _ _ _ _ _ H1) as Hx1.
    apply alter_tolerant_spec in H1 as (Hw1 & Hc1 & Hi1 & Ho1 & _ & Hr1).
    assert (Hd1 : cols_dist (ck w1) = Some (seqZ 1 (i - 1))).
    { specialize (Ho1 Samples). cbn in Ho1. rewrite Ho1; [done | congruence]. }
    destruct Hr1 as [[-> _] | [[e ->] Hck]].
    2:{ injection Hrun as <- <-. repeat split; auto.
        - exists [AlterAddColumn SamplesLocal i]. repeat split; auto.
          + cbn. by eexists.
          + discriminate.
        - right. split; [by eexists|]. exists (i - 1). split; [lia | done]. }
    destruct (alter_tolerant Samples i w1) as [r2 w2] eqn:H2.
    pose proof (alter_tolerant_extends _ _ _ _ _ H2) as Hx2.
    apply alter_tolerant_spec in H2 as (Hw2 & Hc2 & Hi2 & _ & Ht2 & Hr2).
    cbn in Ht2.
    destruct Hr2 as [[-> (cs & Hcs & Hin)] | [[e ->] Hck]].
    2:{ injection Hrun as <- <-. repeat split; try congruence.
        - eauto using extends_trans.
        - exists [AlterAddColumn SamplesLocal i; AlterAddColumn Samples i].
          repeat split.
          + rewrite Hi2, Hi1. by rewrite <- app_assoc.
          + cbn. by eexists.
          + discriminate.
        - right. split; [by eexists|]. exists (i - 1). split; [lia | congruence]. }
    assert (Hd2 : cols_dist (ck w2) = Some (seqZ 1 (i + 1 - 1))).
    { cbn in Hcs. destruct Ht2 as [Hsame | (cs' & Hcs' & Hnew)].
      - rewrite Hsame, Hd1 in Hcs. injection Hcs as <-.
        by apply not_in_seqZ_below in Hin.
      - rewrite Hd1 in Hcs'. injection Hcs' as <-. rewrite Hnew.
        rewrite seqZ_extend by done. f_equal. f_equal. lia. }
    destruct (IH (i + 1) w2 r w' Hrun Hd2 ltac:(lia))
      as (Hw & Hc & Hx & (stmts & Hiss & Hpre & Hok) & Hres).
    repeat split; try congruence.
    + eauto using extends_trans.
    + exists (AlterAddColumn SamplesLocal i :: AlterAddColumn Samples i :: stmts).
      repeat split.
      * rewrite Hiss, Hi2, Hi1. rewrite <- !app_assoc. reflexivity.
      * cbn. by do 2 apply prefix_cons.
      * intros Hr. cbn. by rewrite (Hok Hr).
    + destruct Hres as [[-> Hd] | [He (m & Hm & Hd)]].
      * left. split; [done|]. rewrite Hd. f_equal. f_equal. lia.
      * right. split; [done|]. exists m. split; [lia | done].
Qed.

Lemma NewCKConnections_spec w r w' :
  NewCKConnections w = (r, w') ->
  prometheusCKWriters w' = prometheusCKWriters w /\ ck w' = ck w /\
  issued w' = issued w /\ (r = Ok tt \/ exists e, r = Err e).
Proof.
  unfold NewCKConnections, bind, next_fault, set_conn, fail. run_world w.
  destruct fs as [|[|] fs]; cbn; intros [= <- <-]; cbn; eauto 10.
Qed.

Lemma NewCKWriter_spec width w r w' :
  NewCKWriter width w = (r, w') ->
  prometheusCKWriters w' = prometheusCKWriters w /\
  ((r = Ok (mkCKWriter width false) /\ ck w' = create_tables width (ck w) /\
    issued w' = issued w ++ [CreateTables width]) \/
   ((exists e, r = Err e) /\ ck w' = ck w /\ issued w' = issued w)).
Proof.
  unfold NewCKWriter, bind, next_fault, log_stmt, get_world, set_ck, ret, fail.
  run_world w.
  destruct fs as [|[|] fs]; cbn; intros [= <- <-]; cbn; eauto 10.
Qed.

Lemma getCurrentAppLabelColumnCount_spec w r w' :
  getCurrentAppLabelColumnCount w = (r, w') ->
  prometheusCKWriters w' = prometheusCKWriters w /\ ck w' = ck w /\
  issued w' = issued w ++ [CountColumns] /\
  (r = Ok (column_count w) \/ exists e, r = Err e).
Proof.
  unfold getCurrentAppLabelColumnCount, bind, next_fault, log_stmt, get_world,
    set_conn, ret, fail, column_count.
  run_world w.
  destruct fs as [|[|] fs]; cbn; intros [= <- <-]; cbn; eauto 10.
Qed.

Lemma dense_seqZ (m : Z) : seqZ 1 m = seqZ 1 (Z.of_nat (length (seqZ 1 m))).
Proof.
  rewrite length_seqZ. destruct (decide (0 <= m)).
  - by rewrite Z2Nat.id.
  - replace (Z.to_nat m) with O by lia. unfold seqZ.
    by replace (Z.to_nat m) with O by lia.
Qed.

(** [len(s.AppLabelValueIDs) - 1] *)
Definition app_label_count (ids : list Z) : Z := Z.of_nat (length ids) - 1.

(** The catalog count [K_cur] a call reads: the count once the missing
    tables are created for the requested width. *)
Definition count_after_create (width : Z) (w : World) : Z :=
  match cols_dist (create_tables width (ck w)) with
  | Some cs => Z.of_nat (length cs)
  | None => 0
  end.

Lemma count_after_create_ge width w :
  column_count w <= count_after_create width w.
Proof.
  unfold column_count, count_after_create. cbn.
  destruct (cols_dist (ck w)); cbn; lia.
Qed.

Lemma create_tables_extends width ws c k fs iss ws' c' fs' iss' :
  extends (mkWorld ws c k fs iss) (mkWorld ws' c' (create_tables width k) fs' iss').
Proof.
  intros t cs. destruct k as [cl cd]. destruct t; cbn; intros ->; cbn;
    exists []; by rewrite app_nil_r.
Qed.

Lemma lookup_writers_in_range (arr : list (option CKWriter)) (c : Z) :
  index_ok c arr = true -> exists slot, arr !! Z.to_nat c = Some slot.
Proof.
  unfold index_ok. intros H. apply andb_true_iff in H as [H0 H1].
  apply Z.leb_le in H0. apply Z.ltb_lt in H1.
  apply lookup_lt_is_Some_2. lia.
Qed.

(** What a call of width [c] leaves behind. *)
Definition call_post (c : Z) (w : World) (r : outcome CKWriter) (w' : World) : Prop :=
  wf w' /\ extends w w' /\
  (forall cw, r = Ok cw -> c <= column_count w') /\
  exists stmts, issued w' = issued w ++ stmts /\
    let K := count_after_create c w in
    let expected := alter_statements (Z.to_nat (c - K)) (K + 1) in
    filter is_alter stmts `prefix_of` expected /\
    (forall cw, r = Ok cw -> filter is_alter stmts = expected).

Lemma call_post_unchanged c w r :
  wf w -> (forall cw, r = Ok cw -> c <= column_count w) -> call_post c w r w.
Proof.
  intros Hwf Hok. repeat split; auto using extends_refl; try apply Hwf.
  exists []. rewrite app_nil_r. split; [done|]. cbn. split.
  - apply prefix_nil.
  - intros cw Hr. pose proof (count_after_create_ge c w). specialize (Hok cw Hr).
    by replace (Z.to_nat (c - count_after_create c w)) with O by lia.
Qed.

(** The body of [getOrCreateCkwriter] past the second lookup. *)
Definition create_writer (appLabelCount : Z) : M CKWriter :=
  do w <- get_world ;
  do _ <- (if ckdbConn w then ret tt else NewCKConnections) ;
  do ckwriter <- NewCKWriter appLabelCount ;
  do currentCount <- getCurrentAppLabelColumnCount ;
  do _ <- (if currentCount <? appLabelCount
           then addAppLabelColumns (currentCount + 1) appLabelCount
           else ret tt) ;
  let ckwriter := Run ckwriter in
  do _ <- setPrometheusCKWriters appLabelCount ckwriter ;
  ret ckwriter.

Lemma wf_same_catalog w w' :
  wf w -> prometheusCKWriters w' = prometheusCKWriters w -> ck w' = ck w -> wf w'.
Proof.
  intros [Hl Hd Hc] Hw Hk. split; unfold column_count; rewrite ?Hw, ?Hk; auto.
Qed.

Lemma wf_of w w' :
  wf w -> prometheusCKWriters w' = prometheusCKWriters w -> extends w w' ->
  (forall cs, cols_dist (ck w') = Some cs -> cs = seqZ 1 (Z.of_nat (length cs))) ->
  wf w'.
Proof.
  intros [Hl Hd Hc] Hw Hx Hdense. split; rewrite ?Hw; auto.
  intros k cw Hk. specialize (Hc k cw Hk).
  pose proof (extends_column_count _ _ Hx). lia.
Qed.

Lemma wf_insert w w' c cw :
  wf w -> 0 <= c <= column_count w ->
  prometheusCKWriters w' = <[Z.to_nat c := Some cw]> (prometheusCKWriters w) ->
  ck w' = ck w -> wf w'.
Proof.
  intros [Hl Hd Hc] Hle Hw Hk. split; unfold column_count in *; rewrite ?Hw, ?Hk; auto.
  - by rewrite length_insert.
  - intros k cw' Hlk. destruct (decide (k = Z.to_nat c)) as [->|Hne].
    + lia.
    + rewrite list_lookup_insert_ne in Hlk by done. eauto.
Qed.

Lemma setPrometheusCKWriters_spec c cw w :
  index_ok c (prometheusCKWriters w) = true ->
  exists w', setPrometheusCKWriters c cw w = (Ok tt, w') /\
    prometheusCKWriters w' = <[Z.to_nat c := Some cw]> (prometheusCKWriters w) /\
    ck w' = ck w /\ issued w' = issued w.
Proof.
  intros H. unfold setPrometheusCKWriters. rewrite H. eexists. split; [done|]. done.
Qed.

Lemma create_tables_dense c w :
  wf w -> exists cs, cols_dist (create_tables c (ck w)) = Some cs /\
            cs = seqZ 1 (Z.of_nat (length cs)).
Proof.
  intros [_ Hd _]. cbn. destruct (cols_dist (ck w)) as [cs|] eqn:E; cbn.
  - exists cs. split; [done|]. by apply Hd.
  - eexists. split; [done|]. apply dense_seqZ.
Qed.

Lemma extends_create c w w' :
  ck w' = create_tables c (ck w) -> extends w w'.
Proof.
  intros H t cs. rewrite H. destruct (ck w) as [cl cd].
  destruct t; cbn; intros ->; cbn; exists []; by rewrite app_nil_r.
Qed.

Lemma extends_same w w' : ck w' = ck w -> extends w w'.
Proof. intros H t cs Hcs. rewrite H. exists []. by rewrite app_nil_r. Qed.

Lemma call_post_err c w e w' stmts :
  wf w' -> extends w w' -> issued w' = issued w ++ stmts ->
  filter is_alter stmts `prefix_of`
    alter_statements (Z.to_nat (c - count_after_create c w)) (count_after_create c w + 1) ->
  call_post c w (Err e) w'.
Proof.
  intros Hwf Hx Hi Hp. repeat split; try apply Hwf; auto; try discriminate.
  exists stmts. repeat split; auto. discriminate.
Qed.

Lemma alter_statements_all n : forall i, Forall (fun s => is_alter s = true) (alter_statements n i).
Proof. induction n; intros i; cbn; repeat constructor; auto. Qed.

Lemma filter_is_alter_id (l : list Stmt) :
  Forall (fun s => is_alter s = true) l -> filter is_alter l = l.
Proof.
  induction 1 as [|x l Hx Hl IH]; [done|].
  rewrite filter_cons. destruct (decide (is_alter x)) as [|Hn].
  - by rewrite IH.
  - by rewrite Hx in Hn.
Qed.

Lemma prefix_alter_statements stmts n i :
  stmts `prefix_of` alter_statements n i -> filter is_alter stmts = stmts.
Proof.
  intros [more Hm]. apply filter_is_alter_id.
  pose proof (alter_statements_all n i) as Hall. rewrite Hm in Hall.
  by apply Forall_app in Hall as [? _].
Qed.

Lemma create_writer_spec c w r w' :
  wf w -> 0 <= c < Z.of_nat MAX ->
  create_writer c w = (r, w') ->
  (forall e, r <> Panic e) /\ call_post c w r w'.
Proof.
  intros Hwf Hc. unfold create_writer, bind at 1, get_world at 1.
  unfold bind at 1.
  destruct ((if ckdbConn w then ret () else NewCKConnections) w) as [r0 w0] eqn:H0.
  assert (Hs0 : prometheusCKWriters w0 = prometheusCKWriters w /\ ck w0 = ck w /\
                issued w0 = issued w /\ (r0 = Ok tt \/ exists e, r0 = Err e)).
  { destruct (ckdbConn w).
    - injection H0 as <- <-. eauto.
    - by apply NewCKConnections_spec. }
  destruct Hs0 as (Hw0 & Hk0 & Hi0 & Hr0).
  destruct Hr0 as [-> | [e ->]].
  2:{ intros [= <- <-]. split; [discriminate|].
      apply call_post_err with (stmts := []).
      - by apply (wf_same_catalog w).
      - by apply extends_same.
      - by rewrite app_nil_r.
      - apply prefix_nil. }
  unfold bind at 1. destruct (NewCKWriter c w0) as [r1 w1] eqn:H1.
  apply NewCKWriter_spec in H1 as (Hw1 & [(-> & Hk1 & Hi1) | ([e ->] & Hk1 & Hi1)]).
  2:{ intros [= <- <-]. split; [discriminate|].
      apply call_post_err with (stmts := []).
      - apply (wf_same_catalog w); congruence.
      - apply extends_same. congruence.
      - rewrite app_nil_r. congruence.
      - apply prefix_nil. }
  assert (Hck1 : ck w1 = create_tables c (ck w)) by congruence.
  destruct (create_tables_dense c w Hwf) as (cs & Hcs & Hdense).
  assert (Hwf1 : wf w1).
  { apply (wf_of w); [done | congruence | by apply (extends_create c) |].
    intros cs'. rewrite Hck1, Hcs. by intros [= <-]. }
  unfold bind at 1. destruct (getCurrentAppLabelColumnCount w1) as [r2 w2] eqn:H2.
  apply getCurrentAppLabelColumnCount_spec in H2 as (Hw2 & Hk2 & Hi2 & Hr2).
  assert (Hwf2 : wf w2) by (by apply (wf_same_catalog w1)).
  assert (Hx2 : extends w w2).
  { apply extends_create with c. congruence. }
  destruct Hr2 as [-> | [e ->]].
  2:{ intros [= <- <-]. split; [discriminate|].
      apply call_post_err with (stmts := [CreateTables c; CountColumns]); auto.
      - rewrite Hi2, Hi1, Hi0. by rewrite <- app_assoc.
      - cbn. apply prefix_nil. }
  assert (HK : column_count w1 = count_after_create c w).
  { unfold column_count, count_after_create. by rewrite Hck1. }
  rewrite HK. set (K := count_after_create c w) in *.
  assert (HKcs : K = Z.of_nat (length cs)).
  { unfold K, count_after_create. by rewrite Hcs. }
  unfold bind at 1.
  destruct ((if K <? c then addAppLabelColumns (K + 1) c else ret ()) w2)
    as [r3 w3] eqn:H3.
  assert (Hs3 : prometheusCKWriters w3 = prometheusCKWriters w2 /\
    extends w2 w3 /\
    (exists stmts, issued w3 = issued w2 ++ stmts /\
       stmts `prefix_of` alter_statements (Z.to_nat (c - K)) (K + 1) /\
       (r3 = Ok tt -> stmts = alter_statements (Z.to_nat (c - K)) (K + 1)) /\
       filter is_alter stmts = stmts) /\
    ((r3 = Ok tt /\ c <= column_count w3 /\ wf w3) \/
     ((exists e, r3 = Err e) /\ wf w3))).
  { destruct (K <? c) eqn:HKc.
    - apply Z.ltb_lt in HKc. unfold addAppLabelColumns in H3.
      replace (Z.to_nat (c - (K + 1) + 1)) with (Z.to_nat (c - K)) in H3 by lia.
      apply addAppLabelColumns_from_spec in H3
        as (Hw3 & _ & Hx3 & (stmts & Hi3 & Hp3 & Hok3) & Hr3); [| | lia].
      2:{ rewrite Hk2, Hck1, Hcs. f_equal. rewrite Hdense. f_equal. lia. }
      split; [done|]. split; [done|]. split.
      { exists stmts. repeat split; auto. by apply prefix_alter_statements in Hp3. }
      destruct Hr3 as [[-> Hd3] | [He (m & Hm & Hd3)]].
      + left. split; [done|].
        assert (Hcc : column_count w3 = c).
        { unfold column_count. rewrite Hd3, length_seqZ. lia. }
        split; [lia|]. apply (wf_of w2); auto.
        intros cs'. rewrite Hd3. intros [= <-]. apply dense_seqZ.
      + right. split; [done|]. apply (wf_of w2); auto.
        intros cs'. rewrite Hd3. intros [= <-]. apply dense_seqZ.
    - apply Z.ltb_ge in HKc. injection H3 as <- <-.
      split; [done|]. split; [apply extends_refl|]. split.
      { exists []. rewrite app_nil_r. repeat split; auto using prefix_nil.
        intros _. by replace (Z.to_nat (c - K)) with O by lia. }
      left. split; [done|]. split; [|done].
      replace (column_count w2) with (column_count w1); [lia|].
      unfold column_count. by rewrite Hk2. }
  destruct Hs3 as (Hw3 & Hx3 & (stmts & Hi3 & Hp3 & Hok3 & Hf3) & Hr3).
  assert (Hiss : issued w3 = issued w ++ ([CreateTables c; CountColumns] ++ stmts)).
  { rewrite Hi3, Hi2, Hi1, Hi0. by rewrite <- !app_assoc. }
  assert (Hfil : filter is_alter ([CreateTables c; CountColumns] ++ stmts) = stmts).
  { rewrite filter_app, Hf3. reflexivity. }
  destruct Hr3 as [(-> & Hcc & Hwf3) | ([e ->] & Hwf3)].
  2:{ intros [= <- <-]. split; [discriminate|].
      apply call_post_err with (stmts := [CreateTables c; CountColumns] ++ stmts);
        eauto using extends_trans. by rewrite Hfil. }
  destruct (setPrometheusCKWriters_spec c
              (Run {| cw_width := c; cw_running := false |}) w3)
    as (w4 & Hset & Hw4 & Hk4 & Hi4).
  { unfold index_ok. destruct Hwf3 as [Hl _ _]. rewrite Hl.
    apply andb_true_iff. split; [apply Z.leb_le | apply Z.ltb_lt]; lia. }
  unfold bind at 1. rewrite Hset. unfold ret. intros [= <- <-].
  split; [discriminate|].
  assert (Hwf4 : wf w4) by (eapply (wf_insert w3 w4 c); eauto; lia).
  repeat split; try apply Hwf4.
  - apply extends_trans with w3; [eauto using extends_trans|]. by apply extends_same.
  - intros _ _. unfold column_count in *. by rewrite Hk4.
  - exists ([CreateTables c; CountColumns] ++ stmts). split; [congruence|].
    cbn zeta. rewrite Hfil. split; [done|]. intros _ _. by apply Hok3.
Qed.

Lemma getOrCreateCkwriter_at_max ids w :
  length (prometheusCKWriters w) = MAX ->
  app_label_count ids = Z.of_nat MAX ->
  getOrCreateCkwriter MAX ids w = (Panic "index out of range", w).
Proof.
  intros Hl Hc. unfold getOrCreateCkwriter. fold (app_label_count ids).
  destruct (length ids =? 0)%nat eqn:E0.
  { apply Nat.eqb_eq in E0. unfold app_label_count in Hc. lia. }
  destruct (app_label_count ids >? Z.of_nat MAX) eqn:E1.
  { apply Z.gtb_gt in E1. lia. }
  unfold bind, getPrometheusCKWriters, index_ok. rewrite Hl, Hc.
  rewrite (proj2 (Z.ltb_ge _ _)) by lia. by rewrite andb_false_r.
Qed.

Lemma getOrCreateCkwriter_spec ids w r w' :
  wf w ->
  getOrCreateCkwriter MAX ids w = (r, w') ->
  (forall e, r = Panic e -> app_label_count ids = Z.of_nat MAX /\ w' = w) /\
  call_post (app_label_count ids) w r w'.
Proof.
  intros Hwf Hrun.
  destruct (decide (app_label_count ids = Z.of_nat MAX)) as [Hmax|Hlt].
  { rewrite (getOrCreateCkwriter_at_max ids w (wf_length _ Hwf) Hmax) in Hrun.
    injection Hrun as <- <-. split; [done|].
    apply call_post_unchanged; [done | discriminate]. }
  revert Hrun. unfold getOrCreateCkwriter. fold (app_label_count ids).
  set (c := app_label_count ids) in *.
  destruct (length ids =? 0)%nat eqn:E0.
  { intros [= <- <-]. split; [discriminate|].
    apply call_post_unchanged; [done | discriminate]. }
  destruct (c >? Z.of_nat MAX) eqn:E1.
  { intros [= <- <-]. split; [discriminate|].
    apply call_post_unchanged; [done | discriminate]. }
  apply Nat.eqb_neq in E0.
  assert (Hc : 0 <= c <= Z.of_nat MAX).
  { pose proof (Zgt_cases c (Z.of_nat MAX)) as Hgt. rewrite E1 in Hgt.
    unfold c, app_label_count in *. lia. }
  fold (create_writer c).
  unfold bind at 1, getPrometheusCKWriters at 1.
  assert (Hidx : index_ok c (prometheusCKWriters w) = true).
  { unfold index_ok. rewrite (wf_length _ Hwf).
    apply andb_true_iff. split; [apply Z.leb_le | apply Z.ltb_lt]; lia. }
  rewrite Hidx. destruct (lookup_writers_in_range _ _ Hidx) as [slot Hslot].
  rewrite Hslot. destruct slot as [cw|].
  { intros [= <- <-]. split; [discriminate|].
    apply call_post_unchanged; [done|]. intros _ _.
    pose proof (wf_cached _ Hwf _ _ Hslot). lia. }
  unfold bind at 1, getPrometheusCKWriters at 1. rewrite Hidx, Hslot.
  intros Hrun. apply create_writer_spec in Hrun as [Hnp Hpost]; [|done|lia].
  split; [|done]. intros e ->. by destruct (Hnp e).
Qed.

(** The width of a batch is read off its first sample. *)
Definition batch_width (batch : list (list Z)) : Z :=
  match batch with
  | [] => 0
  | ids :: _ => app_label_count ids
  end.

(** What one [WriteBatch] guarantees: the catalog only grows; a batch that
    reached a writer has its columns; the ALTER statements are those of the
    columns [K_cur+1 .. width], both tables each, cut short by a failure. *)
Definition batch_post (batch : list (list Z)) (w : World) (r : outcome nat) (w' : World)
  : Prop :=
  wf w' /\ extends w w' /\
  (forall n, r = Ok (S n) -> batch_width batch <= column_count w') /\
  exists stmts, issued w' = issued w ++ stmts /\
    let K := count_after_create (batch_width batch) w in
    let expected := alter_statements (Z.to_nat (batch_width batch - K)) (K + 1) in
    filter is_alter stmts `prefix_of` expected /\
    (forall n, r = Ok (S n) -> filter is_alter stmts = expected).

Lemma WriteBatch_spec batch w r w' :
  wf w -> WriteBatch MAX batch w = (r, w') -> batch_post batch w r w'.
Proof.
  intros Hwf. destruct batch as [|ids rest]; cbn [WriteBatch].
  - intros [= <- <-]. repeat split; try apply Hwf; auto using extends_refl.
    + discriminate.
    + exists []. rewrite app_nil_r. repeat split; auto using prefix_nil. discriminate.
  - destruct (getOrCreateCkwriter MAX ids w) as [r0 w0] eqn:Hg.
    apply getOrCreateCkwriter_spec in Hg as [_ (Hwf0 & Hx & Hok & stmts & Hi & Hp & Heq)];
      [|done].
    cbn zeta in Hp, Heq.
    destruct r0 as [cw|e|e]; intros [= <- <-]; (split; [done|]); (split; [done|]); split;
      try discriminate; eauto; exists stmts; cbn [batch_width]; repeat split; eauto;
      discriminate.
Qed.

(** [WriteBatch] on each batch in turn; a panic ends the process. *)
Fixpoint WriteBatches (batches : list (list (list Z))) (w : World)
  : list (outcome nat * World) :=
  match batches with
  | [] => []
  | b :: bs =>
      let rw := WriteBatch MAX b w in
      rw :: match fst rw with
            | Panic _ => []
            | _ => WriteBatches bs (snd rw)
            end
  end.

(** The world before the first call and after each call. *)
Definition worlds (batches : list (list (list Z))) (w : World) : list World :=
  w :: map snd (WriteBatches batches w).

(** Table [t] has the column [app_label_value_id_i]. *)
Definition has_column (w : World) (t : Table) (i : Z) : Prop :=
  exists cs, table_cols t (ck w) = Some cs /\ i ∈ cs.

(** The distributed table holds exactly the columns [1..K], in order: the
    state of a node on which only this writer has added columns. *)
Definition dense (w : World) : Prop :=
  forall cs, cols_dist (ck w) = Some cs -> cs = seqZ 1 (Z.of_nat (length cs)).

(** What a call for the width [c] does on any catalog, [ok] saying that it
    returned a writer: columns are only appended; the ALTER statements are
    those of the columns [K_cur+1 .. c], both tables each, cut short by a
    failure; a call that returned a writer either found it in the array and
    did nothing, or issued all of them and left each of these columns in
    both tables. *)
Definition call_frame (c : Z) (w : World) (ok : Prop) (w' : World) : Prop :=
  extends w w' /\
  exists stmts, issued w' = issued w ++ stmts /\
    let K := count_after_create c w in
    let expected := alter_statements (Z.to_nat (c - K)) (K + 1) in
    filter is_alter stmts `prefix_of` expected /\
    (ok ->
     (w' = w /\ exists cw, prometheusCKWriters w !! Z.to_nat c = Some (Some cw)) \/
     (filter is_alter stmts = expected /\
      forall i t, K < i <= c -> has_column w' t i)).

Lemma has_column_extends w w' t i :
  extends w w' -> has_column w t i -> has_column w' t i.
Proof.
  intros Hx (cs & Hcs & Hin). destruct (Hx t cs Hcs) as [more Hm].
  exists (cs ++ more). split; [done|]. set_solver.
Qed.

Lemma call_frame_unchanged c w (ok : Prop) :
  (ok -> exists cw, prometheusCKWriters w !! Z.to_nat c = Some (Some cw)) ->
  call_frame c w ok w.
Proof.
  intros Hok. split; [apply extends_refl|]. exists []. rewrite app_nil_r.
  split; [done|]. cbn zeta. split; [apply prefix_nil|]. intros H. left. auto.
Qed.

Lemma call_frame_failed c w (ok : Prop) w' stmts :
  ~ ok -> extends w w' -> issued w' = issued w ++ stmts ->
  filter is_alter stmts `prefix_of`
    alter_statements (Z.to_nat (c - count_after_create c w)) (count_after_create c w + 1) ->
  call_frame c w ok w'.
Proof.
  intros Hno Hx Hi Hp. split; [done|]. exists stmts. split; [done|]. cbn zeta.
  split; [done|]. intros H. by destruct Hno.
Qed.

Lemma addAppLabelColumns_from_any n : forall i w r w',
  addAppLabelColumns_from n i w = (r, w') ->
  prometheusCKWriters w' = prometheusCKWriters w /\
  extends w w' /\
  (exists stmts, issued w' = issued w ++ stmts /\
     stmts `prefix_of` alter_statements n i /\
     (r = Ok tt -> stmts = alter_statements n i)) /\
  (r = Ok tt \/ exists e, r = Err e) /\
  (r = Ok tt -> forall j t, i <= j < i + Z.of_nat n -> has_column w' t j).
Proof.
  induction n as [|n IH]; intros i w r w' Hrun.
  - injection Hrun as <- <-. split; [done|]. split; [apply extends_refl|]. split.
    + exists []. rewrite app_nil_r. repeat split; auto.
    + split; [by left|]. intros _ j t Hj. lia.
  - cbn [addAppLabelColumns_from] in Hrun. unfold bind in Hrun.
    destruct (alter_tolerant SamplesLocal i w) as [r1 w1] eqn:H1.
    pose proof (alter_tolerant_extends _ _ _ _ _ H1) as Hx1.
    apply alter_tolerant_spec in H1 as (Hw1 & _ & Hi1 & _ & _ & Hr1).
    destruct Hr1 as [[-> Hl] | [[e ->] _]].
    2:{ injection Hrun as <- <-. split; [done|]. split; [done|]. split.
        - exists [AlterAddColumn SamplesLocal i]. repeat split; auto.
          + cbn. by eexists.
          + discriminate.
        - split; [right; eauto | discriminate]. }
    destruct (alter_tolerant Samples i w1) as [r2 w2] eqn:H2.
    pose proof (alter_tolerant_extends _ _ _ _ _ H2) as Hx2.
    apply alter_tolerant_spec in H2 as (Hw2 & _ & Hi2 & _ & _ & Hr2).
    destruct Hr2 as [[-> Hd] | [[e ->] _]].
    2:{ injection Hrun as <- <-. split; [congruence|].
        split; [eauto using extends_trans|]. split.
        - exists [AlterAddColumn SamplesLocal i; AlterAddColumn Samples i].
          repeat split.
          + rewrite Hi2, Hi1. by rewrite <- app_assoc.
          + cbn. by eexists.
          + discriminate.
        - split; [right; eauto | discriminate]. }
    destruct (IH (i + 1) w2 r w' Hrun) as (Hw & Hx & (stmts & Hiss & Hpre & Hok) & Hr & Hcols).
    split; [congruence|]. split; [eauto using extends_trans|]. split.
    + exists (AlterAddColumn SamplesLocal i :: AlterAddColumn Samples i :: stmts).
      repeat split.
      * rewrite Hiss, Hi2, Hi1. rewrite <- !app_assoc. reflexivity.
      * cbn. by do 2 apply prefix_cons.
      * intros Hr'. cbn. by rewrite (Hok Hr').
    + split; [done|]. intros Hr' j t Hj.
      destruct (decide (j = i)) as [->|Hne].
      * destruct t.
        -- apply (has_column_extends w1 w'); [eauto using extends_trans | exact Hl].
        -- apply (has_column_extends w2 w'); [done | exact Hd].
      * apply (Hcols Hr'). lia.
Qed.

Lemma create_writer_any c w r w' :
  create_writer c w = (r, w') ->
  prometheusCKWriters w !! Z.to_nat c = Some None ->
  call_frame c w (exists cw, r = Ok cw) w'.
Proof.
  intros Hrun Hslot. revert Hrun.
  unfold create_writer, bind at 1, get_world at 1. unfold bind at 1.
  destruct ((if ckdbConn w then ret () else NewCKConnections) w) as [r0 w0] eqn:H0.
  assert (Hs0 : ck w0 = ck w /\ issued w0 = issued w /\ (r0 = Ok tt \/ exists e, r0 = Err e)).
  { destruct (ckdbConn w).
    - injection H0 as <- <-. eauto.
    - apply NewCKConnections_spec in H0 as (_ & ? & ? & ?). auto. }
  destruct Hs0 as (Hk0 & Hi0 & [-> | [e ->]]).
  2:{ intros [= <- <-]. apply call_frame_failed with (stmts := []).
      - by intros [cw ?].
      - by apply extends_same.
      - by rewrite app_nil_r.
      - apply prefix_nil. }
  unfold bind at 1. destruct (NewCKWriter c w0) as [r1 w1] eqn:H1.
  apply NewCKWriter_spec in H1 as (_ & [(-> & Hk1 & Hi1) | ([e ->] & Hk1 & Hi1)]).
  2:{ intros [= <- <-]. apply call_frame_failed with (stmts := []).
      - by intros [cw ?].
      - apply extends_same. congruence.
      - rewrite app_nil_r. congruence.
      - apply prefix_nil. }
  assert (Hck1 : ck w1 = create_tables c (ck w)) by congruence.
  unfold bind at 1. destruct (getCurrentAppLabelColumnCount w1) as [r2 w2] eqn:H2.
  apply getCurrentAppLabelColumnCount_spec in H2 as (_ & Hk2 & Hi2 & Hr2).
  assert (Hx2 : extends w w2).
  { apply extends_create with c. congruence. }
  destruct Hr2 as [-> | [e ->]].
  2:{ intros [= <- <-].
      apply call_frame_failed with (stmts := [CreateTables c; CountColumns]); auto.
      - by intros [cw ?].
      - rewrite Hi2, Hi1, Hi0. by rewrite <- app_assoc.
      - cbn. apply prefix_nil. }
  assert (HK : column_count w1 = count_after_create c w).
  { unfold column_count, count_after_create. by rewrite Hck1. }
  rewrite HK. set (K := count_after_create c w) in *.
  unfold bind at 1.
  destruct ((if K <? c then addAppLabelColumns (K + 1) c else ret ()) w2)
    as [r3 w3] eqn:H3.
  assert (Hs3 : extends w2 w3 /\
    (exists stmts, issued w3 = issued w2 ++ stmts /\
       stmts `prefix_of` alter_statements (Z.to_nat (c - K)) (K + 1) /\
       (r3 = Ok tt -> stmts = alter_statements (Z.to_nat (c - K)) (K + 1)) /\
       filter is_alter stmts = stmts) /\
    (r3 = Ok tt \/ exists e, r3 = Err e) /\
    (r3 = Ok tt -> forall j t, K < j <= c -> has_column w3 t j)).
  { destruct (K <? c) eqn:HKc.
    - apply Z.ltb_lt in HKc. unfold addAppLabelColumns in H3.
      replace (Z.to_nat (c - (K + 1) + 1)) with (Z.to_nat (c - K)) in H3 by lia.
      apply addAppLabelColumns_from_any in H3
        as (_ & Hx3 & (stmts & Hi3 & Hp3 & Hok3) & Hr3 & Hcols).
      split; [done|]. split.
      { exists stmts. repeat split; auto. by apply prefix_alter_statements in Hp3. }
      split; [done|]. intros Hr j t Hj. apply (Hcols Hr). lia.
    - apply Z.ltb_ge in HKc. injection H3 as <- <-.
      split; [apply extends_refl|]. split.
      { exists []. rewrite app_nil_r. repeat split; auto using prefix_nil.
        intros _. by replace (Z.to_nat (c - K)) with O by lia. }
      split; [by left|]. intros _ j t Hj. lia. }
  destruct Hs3 as (Hx3 & (stmts & Hi3 & Hp3 & Hok3 & Hf3) & Hr3 & Hcols).
  assert (Hiss : issued w3 = issued w ++ ([CreateTables c; CountColumns] ++ stmts)).
  { rewrite Hi3, Hi2, Hi1, Hi0. by rewrite <- !app_assoc. }
  assert (Hfil : filter is_alter ([CreateTables c; CountColumns] ++ stmts) = stmts).
  { rewrite filter_app, Hf3. reflexivity. }
  destruct Hr3 as [-> | [e ->]].
  2:{ intros [= <- <-].
      apply call_frame_failed with (stmts := [CreateTables c; CountColumns] ++ stmts);
        eauto using extends_trans.
      - by intros [cw ?].
      - by rewrite Hfil. }
  unfold bind at 1, setPrometheusCKWriters.
  destruct (index_ok c (prometheusCKWriters w3)).
  2:{ intros [= <- <-].
      apply call_frame_failed with (stmts := [CreateTables c; CountColumns] ++ stmts);
        eauto using extends_trans.
      - by intros [cw ?].
      - by rewrite Hfil. }
  intros [= <- <-]. split.
  { apply extends_trans with w3; [eauto using extends_trans|]. by apply extends_same. }
  exists ([CreateTables c; CountColumns] ++ stmts). split; [done|].
  cbn zeta. fold K. rewrite Hfil. split; [done|]. intros _. right.
  split; [by apply Hok3|]. intros i t Hi.
  destruct (Hcols eq_refl i t Hi) as (cs & Hcs & Hin). by exists cs.
Qed.

Lemma getOrCreateCkwriter_any ids w r w' :
  getOrCreateCkwriter MAX ids w = (r, w') ->
  call_frame (app_label_count ids) w (exists cw, r = Ok cw) w'.
Proof.
  unfold getOrCreateCkwriter. fold (app_label_count ids).
  set (c := app_label_count ids).
  assert (Hno : forall e : string, ~ (exists cw : CKWriter, Err e = Ok cw))
    by (by intros e [cw ?]).
  assert (Hnp : forall e : string, ~ (exists cw : CKWriter, Panic e = Ok cw))
    by (by intros e [cw ?]).
  destruct (length ids =? 0)%nat.
  { intros [= <- <-]. apply call_frame_unchanged. intros H. by destruct (Hno _ H). }
  destruct (c >? Z.of_nat MAX).
  { intros [= <- <-]. apply call_frame_unchanged. intros H. by destruct (Hno _ H). }
  fold (create_writer c).
  unfold bind at 1, getPrometheusCKWriters at 1.
  destruct (index_ok c (prometheusCKWriters w)) eqn:Hidx.
  2:{ intros [= <- <-]. apply call_frame_unchanged. intros H. by destruct (Hnp _ H). }
  destruct (prometheusCKWriters w !! Z.to_nat c) as [[cw|]|] eqn:Hslot.
  - intros [= <- <-]. apply call_frame_unchanged. eauto.
  - unfold bind at 1, getPrometheusCKWriters at 1. rewrite Hidx, Hslot.
    intros Hrun. by apply create_writer_any.
  - intros [= <- <-]. apply call_frame_unchanged. intros H. by destruct (Hnp _ H).
Qed.

Lemma WriteBatch_any batch w r w' :
  WriteBatch MAX batch w = (r, w') ->
  call_frame (batch_width batch) w (exists n, r = Ok (S n)) w'.
Proof.
  destruct batch as [|ids rest]; cbn [WriteBatch batch_width].
  - intros [= <- <-]. split; [apply extends_refl|]. exists []. rewrite app_nil_r.
    split; [done|]. cbn zeta. split; [apply prefix_nil|]. by intros [n ?].
  - destruct (getOrCreateCkwriter MAX ids w) as [r0 w0] eqn:Hg.
    apply getOrCreateCkwriter_any in Hg as (Hx & stmts & Hi & Hp & Hok).
    cbn zeta in Hp, Hok.
    destruct r0 as [cw|e|e]; intros [= <- <-]; (split; [done|]); exists stmts;
      (split; [done|]); cbn zeta; (split; [done|]).
    + intros _. apply Hok. eauto.
    + by intros [n ?].
    + by intros [n ?].
Qed.

Lemma WriteBatches_lookup batches : forall w0 i r w',
  WriteBatches batches w0 !! i = Some (r, w') ->
  exists b w, batches !! i = Some b /\ worlds batches w0 !! i = Some w /\
    WriteBatch MAX b w = (r, w').
Proof.
  unfold worlds.
  induction batches as [|b bs IH]; intros w0 i r w'; [done|].
  cbn [WriteBatches]. destruct (WriteBatch MAX b w0) as [r1 w1] eqn:H1. cbn [fst snd].
  destruct i as [|i]; cbn [lookup list_lookup].
  - intros [= <- <-]. exists b, w0. auto.
  - intros Hi.
    assert (Hrun : WriteBatches bs w1 !! i = Some (r, w')).
    { destruct r1; [done | done | by destruct i]. }
    destruct (IH w1 i r w' Hrun) as (b' & w & Hb & Hw & Hcall).
    exists b', w. split; [done|]. split; [|done].
    destruct r1; done.
Qed.

Lemma worlds_step batches w0 i r w' :
  WriteBatches batches w0 !! i = Some (r, w') -> worlds batches w0 !! S i = Some w'.
Proof.
  intros Hi. unfold worlds. change ((snd <$> WriteBatches batches w0) !! i = Some w').
  by rewrite list_lookup_fmap, Hi.
Qed.

Lemma worlds_extend batches : forall w0 i j w wj,
  (i <= j)%nat ->
  worlds batches w0 !! i = Some w -> worlds batches w0 !! j = Some wj ->
  extends w wj.
Proof.
  induction batches as [|b bs IH]; intros w0 i j w wj Hij Hi Hj.
  - destruct i, j; cbn in *; try done. injection Hi as <-. injection Hj as <-.
    apply extends_refl.
  - unfold worlds in *. cbn [WriteBatches] in *.
    destruct (WriteBatch MAX b w0) as [r1 w1] eqn:H1. cbn [fst snd map] in *.
    pose proof (WriteBatch_any _ _ _ _ H1) as [Hx1 _].
    assert (Htail : forall k wk,
      (w1 :: map snd match r1 with Panic _ => [] | _ => WriteBatches bs w1 end) !! k = Some wk ->
      (w1 :: map snd (WriteBatches bs w1)) !! k = Some wk).
    { intros k wk. destruct r1; try done. destruct k as [|[|k]]; done. }
    destruct i as [|i], j as [|j]; cbn in Hi, Hj.
    + injection Hi as <-. injection Hj as <-. apply extends_refl.
    + injection Hi as <-. apply extends_trans with w1; [done|].
      apply (IH w1 O j w1 wj); [lia | done | by apply Htail].
    + lia.
    + apply (IH w1 i j w wj); [lia | by apply Htail | by apply Htail].
Qed.

Lemma worlds_wf batches : forall w0 i w,
  wf w0 -> worlds batches w0 !! i = Some w -> wf w.
Proof.
  unfold worlds.
  induction batches as [|b bs IH]; intros w0 i w Hwf Hi.
  - destruct i; cbn in Hi; [|done]. by injection Hi as <-.
  - destruct i as [|i]; cbn in Hi; [by injection Hi as <-|].
    cbn [WriteBatches] in Hi.
    destruct (WriteBatch MAX b w0) as [r1 w1] eqn:H1. cbn [fst snd map] in Hi.
    pose proof (WriteBatch_spec _ _ _ _ Hwf H1) as (Hwf1 & _).
    destruct i as [|i]; cbn in Hi; [by injection Hi as <-|].
    apply (IH w1 (S i) w Hwf1). cbn. destruct r1; try done.
Qed.

Lemma fresh_world_wf fs : wf (fresh_world MAX fs).
Proof.
  split; cbn.
  - apply length_replicate.
  - discriminate.
  - intros k cw Hk. unfold empty_writers in Hk.
    apply lookup_replicate in Hk as [Hk _]. discriminate.
Qed.

(** A node at process start: no writer in the array yet. *)
Lemma start_wf w :
  prometheusCKWriters w = empty_writers MAX -> dense w -> wf w.
Proof.
  intros Hw Hd. split; [| done |].
  - rewrite Hw. apply length_replicate.
  - intros k cw Hk. rewrite Hw in Hk. unfold empty_writers in Hk.
    apply lookup_replicate in Hk as [Hk _]. discriminate.
Qed.


End WriterProperties.

(** C1: a sample within the stated precondition, [len(AppLabelValueIDs) >= 1]
    and [appLabelCount <= MAX_APP_LABEL_COLUMN_INDEX], whose width equals the
    constant passes the guard [appLabelCount > MAX_APP_LABEL_COLUMN_INDEX]
    and indexes the array of [MAX_APP_LABEL_COLUMN_INDEX] slots at
    [MAX_APP_LABEL_COLUMN_INDEX]: the first lookup panics. *)
Theorem writer_array_overrun (MAX : nat) (fs : list bool) :
  let ids := replicate (S MAX) 0 in
  (1 <= length ids)%nat /\
  app_label_count ids <= Z.of_nat MAX /\
  length (Writer.prometheusCKWriters (Writer.fresh_world MAX fs)) = MAX /\
  fst (Writer.getOrCreateCkwriter MAX ids (Writer.fresh_world MAX fs))
    = Panic "index out of range".
Proof.
  cbn zeta. unfold app_label_count. rewrite !length_replicate.
  split; [lia|]. split; [lia|]. split; [apply length_replicate|].
  rewrite getOrCreateCkwriter_at_max; [done | apply length_replicate |].
  unfold app_label_count. rewrite length_replicate. lia.
Qed.

Definition widening_run : list (list (list Z)) := [[[7; 0]]; [[7; 0; 0; 0]]].
Definition widening_faults : list bool := [false; false; false; false; false; true].



(** [createTableOnCluster] and [addAppLabelColumnsOnCluster] on one peer
    whose statements all succeed: the CREATE TABLE IF NOT EXISTS of the
    caller's width, then [addAppLabelColumns] with the caller's
    [startIndex] and [endIndex] over the connection to the peer. *)
Definition peer_after_replay (width startIndex endIndex : Z) (peer : Writer.ClickHouse)
  : Writer.ClickHouse :=
  Writer.ck
    (snd (Writer.addAppLabelColumns startIndex endIndex
            (Writer.mkWorld [] true (Writer.create_tables width peer) [] []))).

(** A node with the columns [1..4] widens to 6 and replays its range
    [5..6] on a peer that has the columns [1..2]: the peer is left with a
    gap. *)
Example replay_leaves_gap :
  peer_after_replay 6 5 6 (Writer.mkCK (Some [1; 2]) (Some [1; 2]))
  = Writer.mkCK (Some [1; 2; 5; 6]) (Some [1; 2; 5; 6]).
Proof. reflexivity. Qed.

(** The peer at process start, with that catalog. *)
Definition gapped_world : Writer.World :=
  Writer.mkWorld (Writer.empty_writers 8) true
    (Writer.mkCK (Some [1; 2; 5; 6]) (Some [1; 2; 5; 6])) [] [].

(** On the catalog with the gap a batch of width 6 reaches a writer: the
    count read is 4, the columns 5 and 6 exist already, and the count stays
    at 4, with the columns 3 and 4 missing. *)
Example gapped_catalog_stays_short :
  let rw := Writer.WriteBatch 8 [[7; 0; 0; 0; 0; 0; 0]] gapped_world in
  fst rw = Ok 1%nat /\
  Writer.column_count (snd rw) = 4 /\
  Writer.ck (snd rw) = Writer.ck gapped_world /\
  Writer.prometheusCKWriters (snd rw) !! 6%nat = Some (Some (Writer.mkCKWriter 6 true)) /\
  filter is_alter (Writer.issued (snd rw)) = alter_statements 2 5.
Proof. vm_compute. repeat split. Qed.

(** Scenario S4: widths 3, then 7, then 5 on a fresh node. *)
Example widening_3_7_5 :
  map (fun w => (Writer.column_count w, filter is_alter (Writer.issued w)))
    (worlds 8 [[[1; 0; 0; 0]]; [[1; 0; 0; 0; 0; 0; 0; 0]]; [[1; 0; 0; 0; 0; 0]]]
       (Writer.fresh_world 8 []))
  = let alters := alter_statements 4 4 in
    [(0, []); (3, []); (7, alters); (7, alters)].
Proof. vm_compute. reflexivity. Qed.

(** ** The cache: single-flight refresh *)

Section CacheProperties.

Import Cache.

Definition holding (c : Call) : nat :=
  match at_ c with
  | Refreshing | Returning => 1
  | _ => 0
  end.

Definition pending (c : Call) : nat :=
  match at_ c with
  | Returned => 0
  | _ => 1
  end.

Definition runs_ok (c : Call) : Prop :=
  runs c = match at_ c with
           | AtSelect | Sleeping => O
           | _ => 1%nat
           end.

(** The token is either buffered in the channel or held by one call. *)
Definition token_inv (s : State) : Prop :=
  (length (canRefresh s) + sum_list_with holding (calls s) = 1)%nat /\
  Forall runs_ok (calls s).

(** Call [t] is outside [refresh] in [s] and inside it in [s']: the step
    between the two is its call of [c.refresh()]. *)
Definition enters (s s' : State) (t : nat) : bool :=
  negb (bool_decide (pc_of s t = Some Refreshing))
  && bool_decide (pc_of s' t = Some Refreshing).

(** How many times call [t] has called [refresh] in the first [n] steps,
    counted on the states the run goes through. *)
Fixpoint entries (sched : nat -> nat) (returns : nat -> bool) (k t n : nat) : nat :=
  match n with
  | O => O
  | S n' =>
      (entries sched returns k t n'
       + if enters (run sched returns n' (init k)) (run sched returns (S n') (init k)) t
         then 1 else 0)%nat
  end.

Lemma sum_list_with_insert (f : Call -> nat) (l : list Call) t c c' :
  l !! t = Some c ->
  (sum_list_with f (<[t := c']> l) + f c = sum_list_with f l + f c')%nat.
Proof.
  revert t. induction l as [|x l IH]; intros t Ht; [done|].
  destruct t as [|t]; simpl in *.
  - injection Ht as ->. lia.
  - specialize (IH t Ht). lia.
Qed.

Lemma step_length fin t s : length (calls (step fin t s)) = length (calls s).
Proof.
  unfold step, move. repeat case_match; simpl; by rewrite ?length_insert.
Qed.

Lemma step_other fin t t' s : t <> t' -> calls (step fin t s) !! t' = calls s !! t'.
Proof.
  intros Hne. unfold step, move.
  repeat case_match; simpl; by rewrite ?list_lookup_insert_ne.
Qed.

Ltac weigh f Hc c' :=
  let H := fresh "Hsum" in
  pose proof (sum_list_with_insert f _ _ _ c' Hc) as H;
  repeat match type of H with
    | context [f (mkCall ?p ?r)] =>
        let v := eval cbv in (f (mkCall p r)) in
        change (f (mkCall p r)) with v in H
    end.

Ltac token_moved Hc c' := weigh holding Hc c'.

Lemma step_inv fin t s : token_inv s -> token_inv (step fin t s).
Proof.
  intros [Htok Hruns]. unfold step, move.
  destruct (calls s !! t) as [c|] eqn:Hc; [|done].
  assert (Hrc : runs_ok c).
  { rewrite Forall_lookup in Hruns. by apply (Hruns t). }
  unfold runs_ok in Hrc.
  destruct c as [p r]; simpl in *. destruct p; simpl.
  - destruct (canRefresh s) as [|v rest] eqn:Hch; split; simpl in *.
    + token_moved Hc (mkCall Sleeping r). lia.
    + apply Forall_insert; [done|]. by unfold runs_ok.
    + token_moved Hc (mkCall Refreshing (S r)). lia.
    + apply Forall_insert; [done|]. unfold runs_ok. simpl. lia.
  - split; simpl.
    + token_moved Hc (mkCall AtSelect r). lia.
    + apply Forall_insert; [done|]. by unfold runs_ok.
  - destruct fin; [|done]. split; simpl.
    + token_moved Hc (mkCall Returning r). lia.
    + apply Forall_insert; [done|]. by unfold runs_ok.
  - destruct (length (canRefresh s) <? capacity)%nat eqn:Hfull; [|done].
    split; simpl.
    + token_moved Hc (mkCall Returned r). rewrite length_app. simpl. lia.
    + apply Forall_insert; [done|]. by unfold runs_ok.
  - done.
Qed.

Lemma init_inv k : token_inv (init k).
Proof.
  split; cbn.
  - induction k; cbn; [done | lia].
  - apply Forall_replicate. by unfold runs_ok.
Qed.

Lemma run_inv sched returns k n : token_inv (run sched returns n (init k)).
Proof. induction n; cbn; [apply init_inv | by apply step_inv]. Qed.

Lemma run_length sched returns k n : length (calls (run sched returns n (init k))) = k.
Proof.
  induction n; cbn; [apply length_replicate | by rewrite step_length].
Qed.

(** Only [true] is ever sent on the channel. *)
Lemma step_chan fin t s :
  Forall (fun v => v = true) (canRefresh s) ->
  Forall (fun v => v = true) (canRefresh (step fin t s)).
Proof.
  intros Hall. unfold step, move.
  destruct (calls s !! t) as [c|]; [|done].
  destruct (at_ c); simpl; try done.
  - destruct (canRefresh s) as [|v rest]; simpl; [done|].
    by apply Forall_cons in Hall as [_ ?].
  - by destruct fin.
  - destruct (length (canRefresh s) <? capacity)%nat; simpl; [|done].
    apply Forall_app. split; [done|]. by repeat constructor.
Qed.

Lemma run_chan sched returns k n :
  Forall (fun v => v = true) (canRefresh (run sched returns n (init k))).
Proof.
  induction n; cbn [run]; [by repeat constructor | by apply step_chan].
Qed.

Lemma holding_le (l : list Call) t c :
  l !! t = Some c -> (holding c <= sum_list_with holding l)%nat.
Proof.
  revert t. induction l as [|x l IH]; intros t Ht; [done|].
  destruct t as [|t]; simpl in *.
  - injection Ht as ->. lia.
  - specialize (IH t Ht). lia.
Qed.

Lemma holding_two (l : list Call) t1 t2 c1 c2 :
  t1 <> t2 -> l !! t1 = Some c1 -> l !! t2 = Some c2 ->
  (holding c1 + holding c2 <= sum_list_with holding l)%nat.
Proof.
  revert t1 t2. induction l as [|x l IH]; intros t1 t2 Hne H1 H2; [done|].
  destruct t1 as [|t1], t2 as [|t2]; simpl in *; try done.
  - injection H1 as ->. pose proof (holding_le _ _ _ H2). lia.
  - injection H2 as ->. pose proof (holding_le _ _ _ H1). lia.
  - assert (t1 <> t2) by congruence. specialize (IH t1 t2 H H1 H2). lia.
Qed.

Lemma pc_of_Some s t p :
  pc_of s t = Some p <-> exists c, calls s !! t = Some c /\ at_ c = p.
Proof.
  unfold pc_of. destruct (calls s !! t) as [c|]; simpl; split.
  - intros [= <-]. eauto.
  - intros (c' & [= <-] & <-). done.
  - done.
  - by intros (c' & ? & _).
Qed.

(** A call that holds the token finds the channel empty. *)
Lemma holder_alone s t c :
  token_inv s -> calls s !! t = Some c -> holding c = 1%nat -> canRefresh s = [].
Proof.
  intros [Htok _] Hc Hh. pose proof (holding_le _ _ _ Hc) as Hle.
  destruct (canRefresh s); [done|]. simpl in Htok. lia.
Qed.

(** One step, seen from call [t]: what it was doing and what became of the
    channel. *)
Lemma step_enters fin u s t :
  token_inv s -> Forall (fun v => v = true) (canRefresh s) ->
  enters s (step fin u s) t = true ->
  u = t /\ pc_of s t = Some AtSelect /\ canRefresh s = [true]
  /\ canRefresh (step fin u s) = [].
Proof.
  intros [Htok _] Hch. unfold enters. intros H.
  apply andb_true_iff in H as [Hn Hy].
  apply negb_true_iff, bool_decide_eq_false in Hn. apply bool_decide_eq_true in Hy.
  destruct (decide (u = t)) as [->|Hne].
  2:{ unfold pc_of in *. by rewrite step_other in Hy. }
  split; [done|]. revert Hn Hy. unfold pc_of, step.
  destruct (calls s !! t) as [[p r]|] eqn:Hc; [|by rewrite Hc].
  assert (Hlt : (t < length (calls s))%nat) by (by apply lookup_lt_Some in Hc).
  unfold move. destruct p; simpl.
  - destruct (canRefresh s) as [|v rest] eqn:Hcs; simpl.
    + rewrite list_lookup_insert_eq by done. done.
    + intros _ _. apply Forall_cons in Hch as [-> _].
      assert (rest = []) as ->; [|done].
      destruct rest; [done|]. simpl in Htok. lia.
  - rewrite list_lookup_insert_eq by done. done.
  - done.
  - destruct (length (canRefresh s) <? capacity)%nat; simpl;
      rewrite ?list_lookup_insert_eq, ?Hc by done; done.
  - by rewrite Hc.
Qed.

Lemma step_leaves fin u s t :
  pc_of s t = Some Refreshing -> pc_of (step fin u s) t <> Some Refreshing ->
  u = t /\ fin = true /\ pc_of (step fin u s) t = Some Returning.
Proof.
  intros Hin Hout.
  destruct (decide (u = t)) as [->|Hne].
  2:{ unfold pc_of in *. by rewrite step_other in Hout. }
  split; [done|]. revert Hin Hout. unfold pc_of, step.
  destruct (calls s !! t) as [[p r]|] eqn:Hc; [|done].
  intros [= ->]. unfold move. simpl.
  destruct fin; simpl.
  - intros _. split; [done|]. rewrite list_lookup_insert_eq; [done|].
    by apply lookup_lt_Some in Hc.
  - by rewrite Hc.
Qed.

Lemma step_returns fin u s t :
  token_inv s ->
  pc_of s t <> Some Returned -> pc_of (step fin u s) t = Some Returned ->
  u = t /\ pc_of s t = Some Returning /\ canRefresh s = []
  /\ canRefresh (step fin u s) = [true].
Proof.
  intros Hinv Hn Hy.
  destruct (decide (u = t)) as [->|Hne].
  2:{ unfold pc_of in *. by rewrite step_other in Hy. }
  split; [done|]. revert Hn Hy. unfold pc_of, step.
  destruct (calls s !! t) as [[p r]|] eqn:Hc; [|by rewrite Hc].
  assert (Hlt : (t < length (calls s))%nat) by (by apply lookup_lt_Some in Hc).
  pose proof (holder_alone s t _ Hinv Hc) as Hempty.
  unfold move. destruct p; simpl.
  - destruct (canRefresh s); simpl; by rewrite list_lookup_insert_eq.
  - by rewrite list_lookup_insert_eq.
  - destruct fin; simpl; by rewrite ?list_lookup_insert_eq, ?Hc.
  - rewrite (Hempty eq_refl). done.
  - done.
Qed.

Lemma step_waits fin s t :
  (pc_of s t = Some AtSelect -> canRefresh s <> [] ->
   pc_of (step fin t s) t = Some Refreshing) /\
  (pc_of s t = Some AtSelect -> canRefresh s = [] ->
   pc_of (step fin t s) t = Some Sleeping) /\
  (pc_of s t = Some Sleeping -> pc_of (step fin t s) t = Some AtSelect).
Proof.
  unfold pc_of, step.
  destruct (calls s !! t) as [[p r]|] eqn:Hc; [|done].
  assert (Hlt : (t < length (calls s))%nat) by (by apply lookup_lt_Some in Hc).
  unfold move. split; [|split].
  - intros [= ->] Hne. simpl. destruct (canRefresh s); [done|]. simpl.
    by rewrite list_lookup_insert_eq.
  - intros [= ->] ->. simpl. by rewrite list_lookup_insert_eq.
  - intros [= ->]. simpl. by rewrite list_lookup_insert_eq.
Qed.

Lemma step_hands_back fin s t :
  token_inv s ->
  (pc_of s t = Some Refreshing -> fin = true ->
   pc_of (step fin t s) t = Some Returning) /\
  (pc_of s t = Some Returning -> pc_of (step fin t s) t = Some Returned).
Proof.
  intros Hinv. unfold pc_of, step.
  destruct (calls s !! t) as [[p r]|] eqn:Hc; [|done].
  assert (Hlt : (t < length (calls s))%nat) by (by apply lookup_lt_Some in Hc).
  pose proof (holder_alone s t _ Hinv Hc) as Hempty.
  unfold move. split.
  - intros [= ->] ->. simpl. by rewrite list_lookup_insert_eq.
  - intros [= ->]. simpl. rewrite (Hempty eq_refl). simpl.
    by rewrite list_lookup_insert_eq.
Qed.

(** The field [runs] counts the steps that enter [refresh]. *)
Lemma step_runs fin u s t c :
  calls s !! t = Some c ->
  exists c', calls (step fin u s) !! t = Some c' /\
    runs c' = (runs c + if enters s (step fin u s) t then 1 else 0)%nat.
Proof.
  intros Hc. unfold enters, pc_of.
  destruct (decide (u = t)) as [->|Hne].
  2:{ rewrite step_other by done. rewrite Hc. exists c. split; [done|]. simpl.
      destruct (bool_decide (Some (at_ c) = Some Refreshing)); simpl; lia. }
  assert (Hlt : (t < length (calls s))%nat) by (by apply lookup_lt_Some in Hc).
  rewrite Hc. unfold step, move. rewrite Hc. destruct c as [p r]. simpl.
  destruct p; simpl.
  - destruct (canRefresh s); simpl; rewrite list_lookup_insert_eq by done;
      eexists; (split; [done|]); simpl; lia.
  - rewrite list_lookup_insert_eq by done. eexists. split; [done|]. simpl. lia.
  - destruct fin; simpl; rewrite ?list_lookup_insert_eq, ?Hc by done;
      eexists; (split; [done|]); simpl; lia.
  - destruct (length (canRefresh s) <? capacity)%nat; simpl;
      rewrite ?list_lookup_insert_eq, ?Hc by done;
      eexists; (split; [done|]); simpl; lia.
  - rewrite Hc. eexists. split; [done|]. simpl. lia.
Qed.

Lemma entries_runs sched returns k t n :
  match calls (run sched returns n (init k)) !! t with
  | Some c => runs c = entries sched returns k t n
  | None => entries sched returns k t n = O
  end.
Proof.
  induction n as [|n IH].
  - cbn [run entries]. unfold init. cbn [calls].
    destruct (replicate k (mkCall AtSelect O) !! t) as [c|] eqn:Hc; [|done].
    apply lookup_replicate in Hc as [-> _]. done.
  - cbn [entries]. cbn [run] in *.
    set (s := run sched returns n (init k)) in *.
    destruct (calls s !! t) as [c|] eqn:Hc.
    + destruct (step_runs (returns n) (sched n) s t c Hc) as (c' & Hc' & Hr).
      rewrite Hc', Hr, IH. done.
    + assert (Hnone : calls (step (returns n) (sched n) s) !! t = None).
      { apply lookup_ge_None. rewrite step_length. by apply lookup_ge_None. }
      rewrite Hnone, IH. unfold enters, pc_of. rewrite Hnone. simpl.
      by rewrite andb_false_r.
Qed.

Definition pending_total (s : State) : nat := sum_list_with pending (calls s).

Lemma step_pending fin t s :
  (pending_total (step fin t s) <= pending_total s)%nat.
Proof.
  unfold pending_total, step, move.
  destruct (calls s !! t) as [c|] eqn:Hc; [|done].
  destruct c as [p r]; simpl in *.
  destruct p; simpl; repeat case_match; simpl; try done;
    match goal with
    | |- context [<[t := ?c']> _] =>
        weigh pending Hc c'; lia
    end.
Qed.

Section Schedule.

Variable k : nat.
Variable sched : nat -> nat.
Variable returns : nat -> bool.

Local Notation "'at_time' n" := (run sched returns n (init k)) (at level 10, n at level 9).

Lemma pending_mono n m :
  (n <= m)%nat -> (pending_total (at_time m) <= pending_total (at_time n))%nat.
Proof.
  induction 1 as [|m Hle IH]; [done|]. simpl.
  pose proof (step_pending (returns m) (sched m) (at_time m)). lia.
Qed.

Lemma pc_stable t n m :
  (n <= m)%nat -> (forall j, (n <= j < m)%nat -> sched j <> t) ->
  calls (at_time m) !! t = calls (at_time n) !! t.
Proof.
  induction 1 as [|m Hle IH]; intros Hfree; [done|]. simpl.
  rewrite step_other by (apply Hfree; lia). apply IH. intros j Hj. apply Hfree. lia.
Qed.

(** A call inside [refresh] stays there until a step in which [refresh]
    returns. *)
Lemma refresh_stable t r n m :
  (n <= m)%nat ->
  (forall j, (n <= j < m)%nat -> ~ (sched j = t /\ returns j = true)) ->
  calls (at_time n) !! t = Some (mkCall Refreshing r) ->
  calls (at_time m) !! t = Some (mkCall Refreshing r).
Proof.
  induction 1 as [|m Hle IH]; intros Hfree Hn; [done|]. simpl.
  assert (Hm : calls (at_time m) !! t = Some (mkCall Refreshing r)).
  { apply IH; [|done]. intros j Hj. apply Hfree. lia. }
  destruct (decide (sched m = t)) as [Hs|Hs].
  - destruct (returns m) eqn:Hr.
    + destruct (Hfree m); [lia | done].
    + rewrite Hs. unfold step. by rewrite Hm.
  - by rewrite step_other.
Qed.

Lemma first_within (P : nat -> Prop) `{!forall j, Decision (P j)} d : forall n,
  (exists m0, (n <= m0 <= n + d)%nat /\ P m0) ->
  exists m, (n <= m)%nat /\ P m /\ forall j, (n <= j < m)%nat -> ~ P j.
Proof.
  induction d as [|d IH]; intros n (m0 & Hm0 & Hs).
  - assert (m0 = n) as -> by lia. exists n. repeat split; [lia | done | lia].
  - destruct (decide (P n)) as [Hn|Hn].
    + exists n. repeat split; [lia | done | lia].
    + assert (m0 <> n) by congruence.
      destruct (IH (S n)) as (m & Hm & Hsm & Hfree).
      { exists m0. split; [lia | done]. }
      exists m. repeat split; [lia | done |].
      intros j Hj. destruct (decide (j = n)) as [->|]; [done|]. apply Hfree. lia.
Qed.

Hypothesis Hfair : fair k sched.
Hypothesis Hreturns : refresh_returns k sched returns.

Lemma next_sched t n :
  (t < k)%nat ->
  exists m, (n <= m)%nat /\ sched m = t /\ forall j, (n <= j < m)%nat -> sched j <> t.
Proof.
  intros Ht. destruct (Hfair t n Ht) as (m0 & Hm0 & Hs).
  apply (first_within (fun j => sched j = t) (m0 - n)). exists m0. split; [lia | done].
Qed.

Lemma next_return t r n :
  calls (at_time n) !! t = Some (mkCall Refreshing r) ->
  exists m, (n <= m)%nat /\ sched m = t /\ returns m = true /\
    calls (at_time m) !! t = Some (mkCall Refreshing r).
Proof.
  intros Hn. destruct (Hreturns n t) as (m0 & Hm0 & Hs & Hr).
  { unfold pc_of. by rewrite Hn. }
  destruct (first_within (fun j => sched j = t /\ returns j = true) (m0 - n) n)
    as (m & Hm & [Hsm Hrm] & Hfree).
  { exists m0. split; [lia | done]. }
  exists m. repeat split; try done. by apply (refresh_stable t r n m).
Qed.

Lemma lookup_lt_k n t c : calls (at_time n) !! t = Some c -> (t < k)%nat.
Proof. intros H. apply lookup_lt_Some in H. by rewrite run_length in H. Qed.

Lemma returning_finishes n u r :
  calls (at_time n) !! u = Some (mkCall Returning r) ->
  exists m, (n < m)%nat /\ (pending_total (at_time m) < pending_total (at_time n))%nat.
Proof.
  intros Hu. destruct (next_sched u n (lookup_lt_k _ _ _ Hu)) as (m & Hm & Hs & Hfree).
  pose proof (pc_stable u n m Hm Hfree) as Hst. rewrite Hu in Hst.
  exists (S m). split; [lia|].
  pose proof (pending_mono n m Hm) as Hmono.
  destruct (run_inv sched returns k m) as [Htok _].
  pose proof (holding_le _ _ _ Hst) as Hh.
  change (holding (mkCall Returning r)) with 1%nat in Hh.
  assert (Hlen : length (canRefresh (at_time m)) = O) by lia.
  simpl. rewrite Hs. unfold step. rewrite Hst. simpl. rewrite Hlen. simpl.
  unfold pending_total in *. simpl.
  weigh pending Hst (mkCall Returned r). lia.
Qed.

Lemma holder_finishes n u c :
  calls (at_time n) !! u = Some c -> holding c = 1%nat ->
  exists m, (n < m)%nat /\ (pending_total (at_time m) < pending_total (at_time n))%nat.
Proof.
  intros Hu Hh. destruct c as [p r]. unfold holding in Hh. simpl in Hh.
  destruct p; try discriminate.
  - destruct (next_return u r n Hu) as (m & Hm & Hs & Hr & Hst).
    assert (Hnext : calls (at_time (S m)) !! u = Some (mkCall Returning r)).
    { simpl. rewrite Hs, Hr. unfold step. rewrite Hst. simpl.
      apply list_lookup_insert_eq. by apply lookup_lt_Some in Hst. }
    destruct (returning_finishes _ _ _ Hnext) as (m' & Hm' & Hlt).
    exists m'. split; [lia|]. pose proof (pending_mono n (S m) ltac:(lia)). lia.
  - by apply (returning_finishes n u r).
Qed.

Lemma sum_pos (f : Call -> nat) (l : list Call) :
  (0 < sum_list_with f l)%nat -> exists t c, l !! t = Some c /\ (0 < f c)%nat.
Proof.
  induction l as [|x l IH]; simpl; [lia|]. intros H.
  destruct (decide (0 < f x)%nat).
  - by exists O, x.
  - destruct IH as (t & c & Ht & Hc); [lia|]. by exists (S t), c.
Qed.

Lemma some_holder n :
  canRefresh (at_time n) = [] ->
  exists u c, calls (at_time n) !! u = Some c /\ holding c = 1%nat.
Proof.
  intros Hch. destruct (run_inv sched returns k n) as [Htok _]. rewrite Hch in Htok.
  destruct (sum_pos holding (calls (at_time n))) as (u & c & Hu & Hc); [simpl in *; lia|].
  exists u, c. split; [done|]. unfold holding in *. destruct (at_ c); lia.
Qed.

Lemma select_gets_holder n t r :
  calls (at_time n) !! t = Some (mkCall AtSelect r) ->
  exists m u c, (n <= m)%nat /\ calls (at_time m) !! u = Some c /\ holding c = 1%nat.
Proof.
  intros Ht. destruct (next_sched t n (lookup_lt_k _ _ _ Ht)) as (m & Hm & Hs & Hfree).
  pose proof (pc_stable t n m Hm Hfree) as Hst. rewrite Ht in Hst.
  destruct (canRefresh (at_time m)) as [|v rest] eqn:Hch.
  - destruct (some_holder m Hch) as (u & c & Hu & Hc). exists m, u, c. auto.
  - exists (S m), t, (mkCall Refreshing (S r)). split; [lia|]. split; [|done].
    simpl. rewrite Hs. unfold step. rewrite Hst. simpl. rewrite Hch. simpl.
    apply list_lookup_insert_eq. by apply lookup_lt_Some in Hst.
Qed.

Lemma pending_gets_holder n :
  (0 < pending_total (at_time n))%nat ->
  exists m u c, (n <= m)%nat /\ calls (at_time m) !! u = Some c /\ holding c = 1%nat.
Proof.
  intros Hp. destruct (sum_pos pending _ Hp) as (t & [p r] & Ht & Hc).
  unfold pending in Hc. simpl in Hc. destruct p; try lia.
  - by apply (select_gets_holder n t r).
  - destruct (next_sched t n (lookup_lt_k _ _ _ Ht)) as (m & Hm & Hs & Hfree).
    pose proof (pc_stable t n m Hm Hfree) as Hst. rewrite Ht in Hst.
    assert (Hnext : calls (at_time (S m)) !! t = Some (mkCall AtSelect r)).
    { simpl. rewrite Hs. unfold step. rewrite Hst. simpl.
      apply list_lookup_insert_eq. by apply lookup_lt_Some in Hst. }
    destruct (select_gets_holder _ _ _ Hnext) as (m' & u & c & Hm' & Hu & Hh).
    exists m', u, c. split; [lia | done].
  - exists n, t, (mkCall Refreshing r). auto.
  - exists n, t, (mkCall Returning r). auto.
Qed.

Lemma progress n :
  (0 < pending_total (at_time n))%nat ->
  exists m, (n < m)%nat /\ (pending_total (at_time m) < pending_total (at_time n))%nat.
Proof.
  intros Hp. destruct (pending_gets_holder n Hp) as (m1 & u & c & Hm1 & Hu & Hh).
  destruct (holder_finishes m1 u c Hu Hh) as (m2 & Hm2 & Hlt).
  exists m2. split; [lia|]. pose proof (pending_mono n m1 Hm1). lia.
Qed.

Lemma all_return p : forall n,
  (pending_total (at_time n) <= p)%nat ->
  exists m, (n <= m)%nat /\ pending_total (at_time m) = O.
Proof.
  induction p as [|p IH]; intros n Hp.
  - exists n. split; [done | lia].
  - destruct (decide (pending_total (at_time n) = O)) as [H0|Hpos].
    + exists n. done.
    + destruct (progress n ltac:(lia)) as (m & Hm & Hlt).
      destruct (IH m ltac:(lia)) as (m' & Hm' & Hz). exists m'. split; [lia | done].
Qed.

Lemma none_pending n t c :
  pending_total (at_time n) = O -> calls (at_time n) !! t = Some c ->
  c = mkCall Returned 1.
Proof.
  intros Hz Ht. destruct (run_inv sched returns k n) as [_ Hruns].
  rewrite Forall_lookup in Hruns. specialize (Hruns t c Ht). unfold runs_ok in Hruns.
  assert (Hc : pending c = O).
  { unfold pending_total in Hz. clear Hruns. revert t Ht Hz.
    induction (calls (at_time n)) as [|x l IH]; intros t Ht Hz; [done|].
    destruct t as [|t]; simpl in *.
    - injection Ht as ->. lia.
    - apply (IH t Ht). lia. }
  destruct c as [p r]. unfold pending in Hc. simpl in *. destruct p; try discriminate.
  by subst.
Qed.

Lemma every_call_returns t :
  (t < k)%nat ->
  exists n, forall m, (n <= m)%nat ->
    calls (at_time m) !! t = Some (mkCall Returned 1).
Proof.
  intros Ht. destruct (all_return (pending_total (at_time O)) O ltac:(lia)) as (n & _ & Hz).
  exists n. intros m Hm.
  pose proof (pending_mono n m Hm) as Hmono.
  destruct (calls (at_time m) !! t) as [c|] eqn:Hc.
  - f_equal. apply (none_pending m t c); [lia | done].
  - apply lookup_ge_None in Hc. rewrite run_length in Hc. lia.
Qed.

End Schedule.


End CacheProperties.

Definition round_robin2 (n : nat) : nat := (n mod 2)%nat.

Lemma round_robin2_fair : Cache.fair 2 round_robin2.
Proof.
  intros t n Ht. exists (t + n * 2)%nat. split; [lia|].
  unfold round_robin2. rewrite Nat.Div0.mod_add. apply Nat.mod_small. lia.
Qed.

(** Every [refresh] returns in the first step its call is given. *)
Definition at_once (n : nat) : bool := true.

Lemma round_robin2_returns : Cache.refresh_returns 2 round_robin2 at_once.
Proof.
  intros n t Hpc.
  assert (Ht : (t < 2)%nat).
  { unfold Cache.pc_of in Hpc.
    destruct (Cache.calls (Cache.run round_robin2 at_once n (Cache.init 2)) !! t)
      as [c|] eqn:Hc; [|done].
    apply lookup_lt_Some in Hc. by rewrite run_length in Hc. }
  destruct (round_robin2_fair t n Ht) as (m & Hm & Hs). exists m. auto.
Qed.


(** Two calls under round robin: the second sleeps while the first holds
    the token, then takes its turn. *)
Example two_calls_round_robin :
  map (fun n => let s := Cache.run round_robin2 at_once n (Cache.init 2) in
                (Cache.canRefresh s, map Cache.at_ (Cache.calls s)))
      [0; 1; 2; 5; 6; 11]%nat
  = [([true], [Cache.AtSelect; Cache.AtSelect]);
     ([], [Cache.Refreshing; Cache.AtSelect]);
     ([], [Cache.Refreshing; Cache.Sleeping]);
     ([true], [Cache.Returned; Cache.AtSelect]);
     ([], [Cache.Returned; Cache.Refreshing]);
     ([true], [Cache.Returned; Cache.Returned])].
Proof. vm_compute. reflexivity. Qed.

(** Busy-waiting: as long as the [refresh] of the first call has not
    returned, the token stays with it, and the second call sleeps and comes
    back to the [select], again and again, without entering [refresh]. *)
Lemma waiting_state (n : nat) :
  exists p, (p = Cache.AtSelect \/ p = Cache.Sleeping) /\
    Cache.run round_robin2 (fun _ => false) (S n) (Cache.init 2)
    = Cache.mkState [] [Cache.mkCall Cache.Refreshing 1; Cache.mkCall p 0].
Proof.
  induction n as [|n (p & Hp & Hs)].
  - exists Cache.AtSelect. split; [by left | reflexivity].
  - change (Cache.run round_robin2 (fun _ => false) (S (S n)) (Cache.init 2))
      with (Cache.step false (round_robin2 (S n))
              (Cache.run round_robin2 (fun _ => false) (S n) (Cache.init 2))).
    rewrite Hs. unfold round_robin2.
    pose proof (Nat.mod_upper_bound (S n) 2 ltac:(lia)) as Hlt.
    destruct (S n mod 2)%nat as [|[|m]]; [| |lia].
    + exists p. split; [done | reflexivity].
    + destruct Hp as [-> | ->].
      * exists Cache.Sleeping. split; [by right | reflexivity].
      * exists Cache.AtSelect. split; [by left | reflexivity].
Qed.

Example waiting_for_refresh (n : nat) :
  let s := Cache.run round_robin2 (fun _ => false) (S n) (Cache.init 2) in
  Cache.canRefresh s = [] /\ Cache.pc_of s 0 = Some Cache.Refreshing /\
  (Cache.pc_of s 1 = Some Cache.AtSelect \/ Cache.pc_of s 1 = Some Cache.Sleeping) /\
  entries round_robin2 (fun _ => false) 2 1 (S n) = O.
Proof.
  cbn zeta. destruct (waiting_state n) as (p & Hp & Hs). rewrite Hs.
  split; [done|]. split; [done|]. split.
  - unfold Cache.pc_of. simpl. destruct Hp as [-> | ->]; auto.
  - pose proof (entries_runs round_robin2 (fun _ => false) 2 1 (S n)) as He.
    rewrite Hs in He. symmetry. exact He.
Qed.

(** ** Go strings: examples *)

Section GoStringsExamples.
Import GoStrings.
Example split_metric :
  Split "flow_metrics__vtap_flow_port__byte_rx__1m" "__"
  = ["flow_metrics"; "vtap_flow_port"; "byte_rx"; "1m"].
Proof. reflexivity. Qed.
Example split_three_underscores : Split "a___b" "__" = ["a"; "_b"].
Proof. reflexivity. Qed.
Example splitn_source : SplitN2 "prometheus_node_cpu" "_" = ["prometheus"; "node_cpu"].
Proof. reflexivity. Qed.
Example sprintf_alias : Sprintf "%s as `metrics.%s`" ["Sum(`byte_rx`)"; "byte_rx"]
  = "Sum(`byte_rx`) as `metrics.byte_rx`".
Proof. reflexivity. Qed.
Example sprintf_extra_arg : Sprintf "" ["up"] = "%!(EXTRA string=up)".
Proof. reflexivity. Qed.
Example replace_prefix : Replace1 "k8s_label_app" "k8s_label_" "k8s.label." = "k8s.label.app".
Proof. reflexivity. Qed.
Example trim_prefix : TrimPrefix "df_pod" "df_" = "pod".
Proof. reflexivity. Qed.
End GoStringsExamples.

(** ** The translator: admission, aggregation, shape of the statement *)

Section ServiceProperties.

Import GoStrings Service.

Lemma append_assoc (a b c : string) : (a +:+ b) +:+ c = a +:+ (b +:+ c).
Proof.
  induction a as [|x a IH]; [reflexivity|].
  change (String x ((a +:+ b) +:+ c) = String x (a +:+ (b +:+ c))). by f_equal.
Qed.

Lemma streq_true (a b : string) : streq a b = true <-> a = b.
Proof. apply String.eqb_eq. Qed.

Lemma streq_false (a b : string) : streq a b = false <-> a <> b.
Proof. apply String.eqb_neq. Qed.

(** The time column of the projection: the step-aligned bucket when the
    aggregation stage ran with a positive step, the plain timestamp
    otherwise. *)
Definition time_projection (grouping_applies : bool) (h : ReadHints) : string :=
  if grouping_applies && (StepMs h >? 0)
  then "time(time, " +:+ itoa (Z.quot (StepMs h) 1000) +:+ ") AS timestamp"
  else "toUnixTimestamp(time) AS timestamp".

Definition show_tag (ctx : Ctx) : bool :=
  match ctxShowTag ctx with
  | Some st => st
  | None => false
  end.

Lemma filter_matchers_appends env db ms : forall fs arr fs' arr',
  filter_matchers env db ms fs arr = inr (fs', arr') ->
  (exists x, arr' = arr ++ x) /\ (exists y, fs' = fs ++ y).
Proof.
  induction ms as [|m ms IH]; intros fs arr fs' arr'; simpl.
  - intros [= <- <-]. split; exists []; by rewrite app_nil_r.
  - repeat case_match; try discriminate; intros Hrun;
      apply IH in Hrun as [[x ->] [y ->]]; rewrite <- ?app_assoc; eauto.
Qed.

Lemma append_metric_appends db alias name agg arr :
  exists x xs, append_metric db alias name agg arr = arr ++ x :: xs.
Proof.
  unfold append_metric. repeat case_match; rewrite <- ?app_assoc; simpl; eauto.
Qed.

Lemma aggregation_shape h db name p :
  aggregation h db name ["toUnixTimestamp(time) AS " +:+ EXT_METRICS_TIME_COLUMNS] = inr p ->
  (exists rest, metricsArray p = time_projection true h :: rest) /\
  (exists labels, groupBy p = "timestamp" :: labels).
Proof.
  unfold aggregation, time_projection. simpl.
  destruct (StepMs h >? 0); simpl;
    repeat case_match; try discriminate; intros [= <-]; simpl; eauto.
Qed.

(** A translation that returned a statement went through these steps. *)
Lemma translation_returned env ctx req ctx' sql db prec evs :
  promReaderTransToSQL env ctx req = (Returned ctx' sql db prec None, evs) ->
  exists q rest h m p filters metrics,
    Acquire env 1000 = true /\
    Queries req = q :: rest /\ Hints q = Some h /\
    parseMetric env (Matchers q) = Ok m /\ m_err m = None /\ db = m_db m /\
    prec = m_dataPrecision m /\
    ctx' = mkCtx (ctxShowTag ctx) (Some (m_prefixType m)) /\
    (if show_tag ctx
     then (exists tags, p = mkProjection
             (("toUnixTimestamp(time) AS " +:+ EXT_METRICS_TIME_COLUMNS) :: tags) [] "")
     else if native_db db
     then aggregation h db (m_metricName m)
            ["toUnixTimestamp(time) AS " +:+ EXT_METRICS_TIME_COLUMNS] = inr p
     else p = mkProjection ["toUnixTimestamp(time) AS " +:+ EXT_METRICS_TIME_COLUMNS] [] "") /\
    filter_matchers env db (Matchers q)
      ["(time >= " +:+ itoa (Z.quot (StartMs h) 1000) +:+ " AND time <= " +:+
         itoa (if Z.rem (EndTimestampMs q) 1000 >? 0
               then Z.quot (EndMs h) 1000 + 1 else Z.quot (EndMs h) 1000) +:+ ")"]
      (append_metric db (m_metricAlias m) (m_metricName m) (metricWithAggFunc p)
         (metricsArray p)) = inr (filters, metrics) /\
    sql = parseToQuerierSQL env db (m_table m) metrics filters (groupBy p).
Proof.
  unfold promReaderTransToSQL, failed, show_tag.
  destruct (Acquire env 1000) eqn:Hacq; simpl negb; cbv iota; [|discriminate].
  destruct (Queries req) as [|q rest] eqn:Hq; [discriminate|].
  destruct (Hints q) as [h|] eqn:Hh; [|discriminate].
  destruct (parseMetric env (Matchers q)) as [m|e|e] eqn:Hm; [|discriminate..].
  destruct (m_err m) as [e|] eqn:He; [discriminate|].
  cbn [ctxShowTag].
  destruct (match ctxShowTag ctx with Some st => st | None => false end) eqn:Hst.
  - destruct (showTags env (m_db m) (m_table m) _ _) as [[tags|e|e] evs0] eqn:Htags;
      [|discriminate..].
    cbn [metricsArray groupBy metricWithAggFunc].
    destruct (filter_matchers _ _ _ _ _) as [e|[filters metrics]] eqn:Hf; [discriminate|].
    intros [= <- <- <- <- <-].
    exists q, rest, h, m, (mkProjection
      (("toUnixTimestamp(time) AS " +:+ EXT_METRICS_TIME_COLUMNS) :: tags) [] ""),
      filters, metrics.
    repeat split; eauto.
  - destruct (native_db (m_db m)) eqn:Hnat.
    + destruct (aggregation h (m_db m) (m_metricName m) _) as [e|p] eqn:Hagg; [discriminate|].
      destruct (filter_matchers _ _ _ _ _) as [e|[filters metrics]] eqn:Hf; [discriminate|].
      intros [= <- <- <- <- <-].
      exists q, rest, h, m, p, filters, metrics. rewrite Hnat. repeat split; eauto.
    + cbn [metricsArray groupBy metricWithAggFunc].
      destruct (filter_matchers _ _ _ _ _) as [e|[filters metrics]] eqn:Hf; [discriminate|].
      intros [= <- <- <- <- <-].
      exists q, rest, h, m,
        (mkProjection ["toUnixTimestamp(time) AS " +:+ EXT_METRICS_TIME_COLUMNS] [] ""),
        filters, metrics.
      rewrite Hnat. repeat split; eauto.
Qed.

Lemma nonempty_middle (l : list string) x xs more :
  exists y ys, (l ++ x :: xs) ++ more = y :: ys.
Proof. destruct l; simpl; eauto. Qed.

(** The statement [parseToQuerierSQL] writes, part by part. *)
Lemma parseToQuerierSQL_text env db table metrics filters group :
  parseToQuerierSQL env db table metrics filters group
  = "SELECT " +:+ Join metrics "," +:+ " FROM " +:+ table +:+ " WHERE "
    +:+ Join filters " AND "
    +:+ (if streq db "" then ""
         else if (0 <? length group)%nat then " GROUP BY " +:+ Join group "," else " ")
    +:+ " ORDER BY timestamp desc LIMIT " +:+ Limit env.
Proof.
  unfold parseToQuerierSQL, EXT_METRICS_TIME_COLUMNS.
  generalize (Join metrics ",") (Join filters " AND ") (Join group ",") (Limit env).
  intros M F G L.
  destruct (streq db ""); simpl negb; cbv iota.
  - reflexivity.
  - destruct (0 <? length group)%nat; simpl; rewrite ?append_assoc; reflexivity.
Qed.

(** The time filter of the statement (lines 123-127, 225). *)
Definition time_filter (q : Query) (h : ReadHints) : string :=
  "(time >= " +:+ itoa (Z.quot (StartMs h) 1000) +:+ " AND time <= "
    +:+ itoa (if Z.rem (EndTimestampMs q) 1000 >? 0
              then Z.quot (EndMs h) 1000 + 1 else Z.quot (EndMs h) 1000) +:+ ")".

(** The filter a matcher other than [__name__] stands for: its column, the
    operator of its type and its value. *)
Definition matcher_filter (env : Env) (db : string) (matcher : LabelMatcher) : string :=
  let column :=
    if streq db "" || streq db DB_NAME_DEEPFLOW_SYSTEM then
      if HasPrefix (Name matcher) (AutoTaggingPrefix env)
      then convertToQuerierAllowedTagName (removeDeepFlowPrefix env (Name matcher))
      else "tag." +:+ Name matcher
    else
      if HasPrefix (Name matcher) "tag_"
      then "tag." +:+ removeTagPrefix (Name matcher)
      else convertToQuerierAllowedTagName (Name matcher) in
  backquoted column +:+ " " +:+ getLabelMatcherType (Type_ matcher) +:+ " '"
    +:+ Value matcher +:+ "'".

Definition matcher_filters (env : Env) (db : string) (matchers : list LabelMatcher)
  : list string :=
  map (matcher_filter env db)
    (List.filter (fun m => negb (streq (Name m) PROMETHEUS_METRICS_NAME)) matchers).

(** The elements of the GROUP BY clause after [timestamp]: the grouping
    labels of the hints, and the metric itself for [count_values]. *)
Definition group_labels (h : ReadHints) (metricName : string) : list string :=
  map (fun g => backquoted (convertToQuerierAllowedTagName g)) (Grouping h)
  ++ (if streq (Func h) "count_values" then [backquoted metricName] else []).

Lemma filter_matchers_filters env db ms : forall fs arr fs' arr',
  filter_matchers env db ms fs arr = inr (fs', arr') ->
  fs' = fs ++ matcher_filters env db ms.
Proof.
  unfold matcher_filters.
  induction ms as [|m ms IH]; intros fs arr fs' arr'; cbn [filter_matchers].
  - intros [= <- <-]. simpl. by rewrite app_nil_r.
  - cbn [List.filter].
    destruct (streq (Name m) PROMETHEUS_METRICS_NAME); simpl negb; cbv iota.
    + apply IH.
    + destruct (streq (getLabelMatcherType (Type_ m)) ""); [discriminate|].
      cbn [map]. unfold matcher_filter at 1.
      destruct (streq db "" || streq db DB_NAME_DEEPFLOW_SYSTEM).
      * destruct (HasPrefix (Name m) (AutoTaggingPrefix env));
          intros Hrun; apply IH in Hrun as ->; by rewrite <- app_assoc.
      * destruct (HasPrefix (Name m) "tag_");
          intros Hrun; apply IH in Hrun as ->; by rewrite <- app_assoc.
Qed.

Lemma aggregation_group h db name arr p :
  aggregation h db name arr = inr p ->
  groupBy p = "timestamp" :: group_labels h name.
Proof.
  unfold aggregation, group_labels, EXT_METRICS_TIME_COLUMNS.
  destruct (length (Grouping h) =? 0)%nat; [discriminate|].
  destruct (negb (By h)); [discriminate|].
  destruct (streq (Func h) "count_values") eqn:Hcv.
  - apply streq_true in Hcv. rewrite Hcv.
    change (aggFunctions "count_values") with FUNCTION_COUNT. simpl.
    destruct (negb (streq db DB_NAME_FLOW_LOG)); [discriminate|].
    intros [= <-]. reflexivity.
  - cbv zeta. destruct (streq (aggFunctions (Func h)) ""); [discriminate|].
    repeat case_match; try discriminate; intros [= <-]; simpl;
      by rewrite ?app_nil_r.
Qed.

Lemma native_db_named db : native_db db = true -> streq db "" = false.
Proof.
  unfold native_db. intros H. apply andb_true_iff in H as [_ H].
  by apply negb_true_iff in H.
Qed.

(** C5: every statement the translator returns is
    [SELECT <time>,<columns> FROM <table> WHERE <time filter> AND <matcher
    filters> <group> ORDER BY timestamp desc LIMIT <Limit>].  The first
    element of the projection is [time(time, StepMs/1000) AS timestamp] when
    the aggregation stage ran (native db, no show-tag lookup) with a
    positive step and [toUnixTimestamp(time) AS timestamp] otherwise.  A
    GROUP BY clause is there exactly when the aggregation stage ran; its
    first element is [timestamp], followed by the grouping labels of the
    hints (and the metric for [count_values]).  Nothing stands between the
    clause, or the filters when there is none, and [ORDER BY]. *)
Theorem translated_statement_shape env ctx req ctx' sql db prec evs :
  promReaderTransToSQL env ctx req = (Returned ctx' sql db prec None, evs) ->
  exists q rest h m projection,
    Queries req = q :: rest /\ Hints q = Some h /\
    parseMetric env (Matchers q) = Ok m /\ db = m_db m /\ projection <> [] /\
    let grouping := negb (show_tag ctx) && native_db db in
    sql = "SELECT " +:+ Join (time_projection grouping h :: projection) ","
          +:+ " FROM " +:+ m_table m +:+ " WHERE "
          +:+ Join (time_filter q h :: matcher_filters env db (Matchers q)) " AND "
          +:+ (if grouping
               then " GROUP BY " +:+ Join ("timestamp" :: group_labels h (m_metricName m)) ","
               else if streq db "" then "" else " ")
          +:+ " ORDER BY timestamp desc LIMIT " +:+ Limit env.
Proof.
  intros Hrun.
  apply translation_returned in Hrun
    as (q & rest & h & m & p & filters & metrics & _ & Hq & Hh & Hm & _ & Hdb & _ & _
        & Hp & Hf & ->).
  pose proof (filter_matchers_filters _ _ _ _ _ _ _ Hf) as Hfilters.
  apply filter_matchers_appends in Hf as [[more ->] _].
  destruct (append_metric_appends db (m_metricAlias m) (m_metricName m)
              (metricWithAggFunc p) (metricsArray p)) as (x & xs & ->).
  fold (time_filter q h) in Hfilters. change ([time_filter q h] ++ ?l) with
    (time_filter q h :: l) in Hfilters.
  assert (Hshape : exists y ys,
    (metricsArray p ++ x :: xs) ++ more
    = time_projection (negb (show_tag ctx) && native_db db) h :: y :: ys /\
    groupBy p = if negb (show_tag ctx) && native_db db
                then "timestamp" :: group_labels h (m_metricName m) else []).
  { destruct (show_tag ctx); simpl negb; simpl andb.
    - destruct Hp as [tags ->]. cbn [metricsArray groupBy].
      destruct (nonempty_middle tags x xs more) as (y & ys & Hy).
      exists y, ys. split; [simpl; by rewrite <- Hy | done].
    - destruct (native_db db) eqn:Hnat.
      + pose proof (aggregation_group _ _ _ _ _ Hp) as Hg.
        apply aggregation_shape in Hp as [[r Hr] _]. rewrite Hr.
        destruct (nonempty_middle r x xs more) as (y & ys & Hy).
        exists y, ys. split; [simpl; by rewrite <- Hy | done].
      + subst p. cbn [metricsArray groupBy]. simpl.
        exists x, (xs ++ more). done. }
  destruct Hshape as (y & ys & -> & Hgroup).
  exists q, rest, h, m, (y :: ys).
  split; [done|]. split; [done|]. split; [done|]. split; [done|]. split; [done|].
  cbn zeta. rewrite parseToQuerierSQL_text, Hfilters, Hgroup.
  destruct (negb (show_tag ctx) && native_db db) eqn:Hg.
  - apply andb_true_iff in Hg as [_ Hnat].
    by rewrite (native_db_named db Hnat).
  - by destruct (streq db "").
Qed.

(** C9: the rate limiter is asked for 1000 units before anything else; when
    it refuses, the call returns the error with an empty statement, the
    context as it was given, and no other call has left the function. *)
Theorem rate_limit_rejection env ctx req :
  (exists evs, snd (promReaderTransToSQL env ctx req) = EvAcquire 1000 :: evs) /\
  (Acquire env 1000 = false ->
   promReaderTransToSQL env ctx req
   = (Returned ctx "" "" "" (Some "Prometheus query rate exceeded!"), [EvAcquire 1000])).
Proof.
  split.
  - unfold promReaderTransToSQL, failed.
    repeat case_match; simpl; eauto.
  - intros Hacq. unfold promReaderTransToSQL. by rewrite Hacq.
Qed.

(** The functions with a non-empty entry in [aggFunctions]. *)
Definition supported_func (f : string) : bool :=
  existsb (streq f)
    ["sum"; "avg"; "count"; "min"; "max"; "group"; "stddev"; "count_values"].

Definition count_func (f : string) : bool :=
  streq f "count" || streq f "count_values".

Ltac split_on_key f :=
  repeat match goal with
    | |- context [streq f ?k] =>
        let E := fresh "E" in
        destruct (streq f k) eqn:E;
        [ apply streq_true in E; subst f; vm_compute; try (split; congruence); try done | ]
    end.

Lemma aggFunctions_supported f : aggFunctions f = "" <-> supported_func f = false.
Proof.
  unfold aggFunctions, aggFunctions_table, supported_func. simpl.
  split_on_key f. done.
Qed.

Lemma supported_cases f :
  supported_func f = true ->
  f = "sum" \/ f = "avg" \/ f = "count" \/ f = "min" \/ f = "max" \/ f = "group"
  \/ f = "stddev" \/ f = "count_values".
Proof.
  unfold supported_func. simpl. rewrite orb_false_r, !orb_true_iff, !streq_true. tauto.
Qed.

Lemma aggregation_cases h db name arr :
  (Grouping h = [] -> aggregation h db name arr = inl "unknown series") /\
  (Grouping h <> [] -> By h = false ->
     aggregation h db name arr = inl "not support for 'without' clause for aggregation") /\
  (Grouping h <> [] -> By h = true -> supported_func (Func h) = false ->
     aggregation h db name arr
     = inl ("aggregation operator: " +:+ Func h +:+ " is not supported yet")) /\
  (Grouping h <> [] -> By h = true -> count_func (Func h) = true ->
     db <> DB_NAME_FLOW_LOG ->
     aggregation h db name arr = inl "only supported Count for flow_log") /\
  (Grouping h <> [] -> By h = true -> supported_func (Func h) = true ->
     (count_func (Func h) = true -> db = DB_NAME_FLOW_LOG) ->
     exists p, aggregation h db name arr = inr p).
Proof.
  unfold aggregation.
  destruct (Grouping h) as [|g gs] eqn:Hg; simpl length; simpl Nat.eqb; cbv iota.
  { repeat split; intros; congruence. }
  split; [discriminate|].
  destruct (By h) eqn:Hby; simpl negb; cbv iota.
  2:{ repeat split; intros; congruence. }
  split; [discriminate|].
  destruct (supported_func (Func h)) eqn:Hsup.
  - assert (Hne : streq (aggFunctions (Func h)) "" = false).
    { apply streq_false. rewrite aggFunctions_supported. congruence. }
    rewrite Hne. split; [discriminate|].
    apply supported_cases in Hsup.
    destruct h as [step f st en grp by_]; simpl in *. subst grp by_.
    clear Hne.
    destruct Hsup as [->|[->|[->|[->|[->|[->|[->| ->]]]]]]]; simpl;
      try (split; [discriminate|]; intros _ _ _ _; eauto).
    all: destruct (streq db DB_NAME_FLOW_LOG) eqn:Hdb; simpl;
      [ apply streq_true in Hdb; split; [intros _ _ _ Hnot; by destruct Hnot|]; eauto
      | apply streq_false in Hdb; split; [done|]; intros _ _ _ Hflow;
        by destruct Hdb; apply Hflow ].
  - assert (He : streq (aggFunctions (Func h)) "" = true).
    { apply streq_true. by apply aggFunctions_supported. }
    rewrite He. repeat split; intros; try congruence.
    exfalso. unfold count_func, supported_func in *. simpl in Hsup.
    apply orb_true_iff in H1 as [Hc|Hc]; rewrite Hc in Hsup; simpl in Hsup;
      rewrite ?orb_true_r in Hsup; discriminate.
Qed.

Lemma filter_matchers_error env db ms : forall fs arr e,
  filter_matchers env db ms fs arr = inl e ->
  exists n, e = "unknown match type " +:+ itoa n.
Proof.
  induction ms as [|m ms IH]; intros fs arr e; simpl; [discriminate|].
  destruct (streq (Name m) PROMETHEUS_METRICS_NAME); [apply IH|].
  destruct (Type_ m) as [| | | |n]; simpl;
    try (repeat case_match; apply IH).
  intros [= <-]. by exists n.
Qed.


End ServiceProperties.

(** A node of the querier: every acquisition is granted, no tag is
    described, the usual dbs, [Limit] 10000, prefix [df_]. *)
Definition querier_env : Service.Env :=
  Service.mkEnv (fun _ => true) (fun _ _ _ => Ok [])
    ["flow_log"; "flow_metrics"; "ext_metrics"; "deepflow_system"; "prometheus"]
    "10000" "df_" false 100 (fun v => v) GoStrings.itoa (fun _ => []).

Definition throttled_env : Service.Env :=
  Service.mkEnv (fun _ => false) (fun _ _ _ => Ok [])
    ["flow_log"; "flow_metrics"; "ext_metrics"; "deepflow_system"; "prometheus"]
    "10000" "df_" false 100 (fun v => v) GoStrings.itoa (fun _ => []).

Definition plain_ctx : Service.Ctx := Service.mkCtx None None.

(** Scenario S2: a composite range query with aggregation. *)
Definition byte_rx_hints (f : string) : Service.ReadHints :=
  Service.mkHints 60000 f 1700000000000 1700000600000 ["pod"] true.

Definition byte_rx_query (f : string) (t : Service.LabelMatcher_Type) : Service.Query :=
  Service.mkQuery 1700000000000 1700000600000
    [Service.mkMatcher Service.LabelMatcher_EQ "__name__"
       "flow_metrics__vtap_flow_port__byte_rx__1m";
     Service.mkMatcher t "region" "cn"]
    (Some (byte_rx_hints f)).

Definition byte_rx_request (f : string) (t : Service.LabelMatcher_Type) : Service.ReadRequest :=
  Service.mkReadRequest [byte_rx_query f t].

Example scenario_S2 :
  Service.promReaderTransToSQL querier_env plain_ctx
    (byte_rx_request "sum" Service.LabelMatcher_EQ)
  = (Service.Returned (Service.mkCtx None (Some Service.prefixNone))
       ("SELECT time(time, 60) AS timestamp,`pod`,Sum(`byte_rx`) as `metrics.byte_rx`"
        +:+ " FROM vtap_flow_port WHERE (time >= 1700000000 AND time <= 1700000600)"
        +:+ " AND `region` = 'cn' GROUP BY timestamp,`pod`"
        +:+ " ORDER BY timestamp desc LIMIT 10000")
       "flow_metrics" "1m" None,
     [Service.EvAcquire 1000]).
Proof. vm_compute. reflexivity. Qed.

Example scenario_S3 :
  Service.promReaderTransToSQL querier_env plain_ctx
    (byte_rx_request "stdvar" Service.LabelMatcher_EQ)
  = (Service.Returned (Service.mkCtx None (Some Service.prefixNone)) "" "" ""
       (Some "aggregation operator: stdvar is not supported yet"),
     [Service.EvAcquire 1000]).
Proof. vm_compute. reflexivity. Qed.

Example scenario_S1 :
  Service.promReaderTransToSQL querier_env plain_ctx
    (Service.mkReadRequest
       [Service.mkQuery 1700000000000 1700000000000
          [Service.mkMatcher Service.LabelMatcher_EQ "__name__" "up"]
          (Some (Service.mkHints 0 "" 1700000000000 1700000000000 [] false))])
  = (Service.Returned (Service.mkCtx None (Some Service.prefixDeepFlow))
       ("SELECT toUnixTimestamp(time) AS timestamp,value as `metrics.up`,`tag` FROM up"
        +:+ " WHERE (time >= 1700000000 AND time <= 1700000000)"
        +:+ " ORDER BY timestamp desc LIMIT 10000")
       "" "" None,
     [Service.EvAcquire 1000]).
Proof. vm_compute. reflexivity. Qed.



Lemma translated_statement_shape_witness :
  exists q rest h m projection,
    Service.Queries (byte_rx_request "sum" Service.LabelMatcher_EQ) = q :: rest /\
    Service.Hints q = Some h /\
    Service.parseMetric querier_env (Service.Matchers q) = Ok m /\
    "flow_metrics" = Service.m_db m /\ projection <> [] /\
    ("SELECT time(time, 60) AS timestamp,`pod`,Sum(`byte_rx`) as `metrics.byte_rx`"
     +:+ " FROM vtap_flow_port WHERE (time >= 1700000000 AND time <= 1700000600)"
     +:+ " AND `region` = 'cn' GROUP BY timestamp,`pod`"
     +:+ " ORDER BY timestamp desc LIMIT 10000")
    = "SELECT "
      +:+ GoStrings.Join
            (time_projection (negb (show_tag plain_ctx) && Service.native_db "flow_metrics") h
               :: projection) ","
      +:+ " FROM " +:+ Service.m_table m +:+ " WHERE "
      +:+ GoStrings.Join
            (time_filter q h :: matcher_filters querier_env "flow_metrics" (Service.Matchers q))
            " AND "
      +:+ (if negb (show_tag plain_ctx) && Service.native_db "flow_metrics"
           then " GROUP BY "
                +:+ GoStrings.Join ("timestamp" :: group_labels h (Service.m_metricName m)) ","
           else if GoStrings.streq "flow_metrics" "" then "" else " ")
      +:+ " ORDER BY timestamp desc LIMIT " +:+ Service.Limit querier_env.
Proof.
  exact (translated_statement_shape querier_env plain_ctx
           (byte_rx_request "sum" Service.LabelMatcher_EQ) _ _ _ _ _ scenario_S2).
Defined.

Lemma rate_limit_rejection_witness :
  Service.Acquire throttled_env 1000 = false /\
  Service.promReaderTransToSQL throttled_env plain_ctx
    (byte_rx_request "sum" Service.LabelMatcher_EQ)
  = (Service.Returned plain_ctx "" "" "" (Some "Prometheus query rate exceeded!"),
     [Service.EvAcquire 1000]).
Proof.
  split; [reflexivity|].
  exact (proj2 (rate_limit_rejection throttled_env plain_ctx
                  (byte_rx_request "sum" Service.LabelMatcher_EQ)) eq_refl).
Defined.

(** ** The response builder: series, keys and samples *)

Section ResponseProperties.

Import GoStrings Service.

Variable env : Env.
Variable pfx : prefix.
Variable ci : ColumnIndex.
Variable columns : list string.
Variable natives : list Z.

Hypothesis Hlimit : 0 <= SeriesLimit env < 2 ^ 31.

(** The index [sampleSeriesIndex] gives to a row of key [k]. *)
Definition index_in (m : gmap string Z) (k : string) : Z := default (-1) (m !! k).

(** The first pass after the rows of keys [done]: [sk] lists the keys of
    the series in [seriesArray], in order. *)
Record pass1_inv (total maxp : nat) (done : list string) (st : Pass1) (sk : list string)
  : Prop := mkPass1Inv {
  inv_nodup : NoDup sk;
  inv_series : length (seriesArray st) = length sk;
  inv_initial : initialSeriesIndex st = Z.of_nat (length sk);
  inv_size : size (seriesIndexMap st) = length sk;
  inv_map : forall k v, seriesIndexMap st !! k = Some v <->
              exists n, v = Z.of_nat n /\ sk !! n = Some k;
  inv_limit : Z.of_nat (length sk) <= SeriesLimit env;
  inv_done : (length sk <= length done)%nat;
  inv_sub : forall k, k ∈ sk -> k ∈ done;
  inv_all : Z.of_nat (length sk) < SeriesLimit env -> forall k, k ∈ done -> k ∈ sk;
  inv_ssi_len : length (sampleSeriesIndex st) = total;
  inv_ssc_len : length (seriesSampleCount st) = maxp;
  inv_index : forall j k, done !! j = Some k ->
                sampleSeriesIndex st !! j = Some (index_in (seriesIndexMap st) k);
}.

Lemma slice_update_ok (arr : list Z) (i : Z) f arr' :
  slice_update arr i f = Ok arr' ->
  exists x, 0 <= i /\ arr !! Z.to_nat i = Some x /\ arr' = <[Z.to_nat i := f x]> arr.
Proof.
  unfold slice_update. destruct (i <? 0) eqn:Hi; [discriminate|].
  apply Z.ltb_ge in Hi. destruct (arr !! Z.to_nat i) as [x|]; [|discriminate].
  intros [= <-]. eauto.
Qed.

Lemma wrap32_small (z : Z) : - 2 ^ 31 <= z < 2 ^ 31 -> wrap32 z = z.
Proof. intros H. unfold wrap32. rewrite Z.mod_small; lia. Qed.

Lemma not_in_series_keys total maxp done st sk k :
  pass1_inv total maxp done st sk -> seriesIndexMap st !! k = None -> k ∉ sk.
Proof.
  intros Hinv Hnone Hin. apply list_elem_of_lookup in Hin as [n Hn].
  assert (seriesIndexMap st !! k = Some (Z.of_nat n)) as Hsome.
  { apply (inv_map _ _ _ _ _ Hinv). eauto. }
  congruence.
Qed.

Lemma assign_row_inv total maxp done st sk values k st' :
  pass1_inv total maxp done st sk ->
  series_key env ci natives values = Ok k ->
  assign_row env pfx ci columns natives (Z.of_nat (length done)) values st = Ok st' ->
  exists sk',
    pass1_inv total maxp (done ++ [k]) st' sk' /\ sk `prefix_of` sk' /\
    (forall n ts, seriesArray st !! n = Some ts -> seriesArray st' !! n = Some ts) /\
    (forall ts, ts ∈ seriesArray st' -> Samples ts = [] \/ ts ∈ seriesArray st).
Proof.
  intros Hinv Hk. unfold assign_row. rewrite Hk.
  destruct (prom_tag_json ci values) as [promTagJson|e|e]; [|discriminate..].
  destruct (seriesIndexMap st !! k) as [v|] eqn:Hmap.
  - destruct (slice_update (sampleSeriesIndex st) _ _) as [ssi|e|e] eqn:Hssi;
      [|repeat case_match; discriminate..].
    destruct (slice_update (seriesSampleCount st) _ _) as [ssc|e|e] eqn:Hssc;
      [|discriminate..].
    intros [= <-]. exists sk.
    apply slice_update_ok in Hssi as (x & _ & Hx & ->).
    apply slice_update_ok in Hssc as (y & _ & Hy & ->).
    rewrite Nat2Z.id in *.
    split; [|split; [done|split; [auto|auto]]].
    destruct Hinv. split; simpl; auto.
    + rewrite length_app. simpl. lia.
    + intros k' Hin. apply elem_of_app. left. auto.
    + intros Hlt k' Hin. apply elem_of_app in Hin as [Hin|Hin]; [auto|].
      apply list_elem_of_singleton in Hin as ->.
      apply inv_map0 in Hmap as (n & _ & Hn). apply list_elem_of_lookup. eauto.
    + by rewrite length_insert.
    + by rewrite length_insert.
    + intros j k' Hj. destruct (decide (j = length done)) as [->|Hne].
      * rewrite lookup_app_r in Hj by lia. rewrite Nat.sub_diag in Hj.
        injection Hj as <-. rewrite list_lookup_insert_eq by (by apply lookup_lt_Some in Hx).
        unfold index_in. by rewrite Hmap.
      * assert (j < length done)%nat.
        { apply lookup_lt_Some in Hj. rewrite length_app in Hj. simpl in Hj. lia. }
        rewrite lookup_app_l in Hj by done.
        rewrite list_lookup_insert_ne by done. auto.
  - destruct (Z.of_nat (size (seriesIndexMap st)) >=? SeriesLimit env) eqn:Hfull.
    + destruct (slice_update (sampleSeriesIndex st) _ _) as [ssi|e|e] eqn:Hssi;
        [|discriminate..].
      intros [= <-]. exists sk.
      apply slice_update_ok in Hssi as (x & _ & Hx & ->). rewrite Nat2Z.id in *.
      split; [|split; [done|split; [auto|auto]]].
      apply Z.geb_le in Hfull.
      destruct Hinv. split; simpl; auto.
      * rewrite length_app. simpl. lia.
      * intros k' Hin. apply elem_of_app. left. auto.
      * intros Hlt. lia.
      * by rewrite length_insert.
      * intros j k' Hj. destruct (decide (j = length done)) as [->|Hne].
        -- rewrite lookup_app_r in Hj by lia. rewrite Nat.sub_diag in Hj.
           injection Hj as <-.
           rewrite list_lookup_insert_eq by (by apply lookup_lt_Some in Hx).
           unfold index_in. by rewrite Hmap.
        -- assert (j < length done)%nat.
           { apply lookup_lt_Some in Hj. rewrite length_app in Hj. simpl in Hj. lia. }
           rewrite lookup_app_l in Hj by done.
           rewrite list_lookup_insert_ne by done. auto.
    + destruct (series_labels env pfx ci columns natives values promTagJson)
        as [pairs|e|e]; [|discriminate..].
      destruct (slice_update (sampleSeriesIndex st) _ _) as [ssi|e|e] eqn:Hssi;
        [|repeat case_match; discriminate..].
      destruct (slice_update (seriesSampleCount st) _ _) as [ssc|e|e] eqn:Hssc;
        [|discriminate..].
      intros [= <-]. exists (sk ++ [k]).
      apply slice_update_ok in Hssi as (x & _ & Hx & ->).
      apply slice_update_ok in Hssc as (y & _ & Hy & ->).
      rewrite Nat2Z.id in *.
      pose proof (not_in_series_keys _ _ _ _ _ _ Hinv Hmap) as Hfresh.
      assert (Hlt : Z.of_nat (length sk) < SeriesLimit env).
      { pose proof (Zge_cases (Z.of_nat (size (seriesIndexMap st))) (SeriesLimit env)) as Hc.
        rewrite Hfull in Hc. rewrite (inv_size _ _ _ _ _ Hinv) in Hc. lia. }
      split; [|split; [by apply prefix_app_r|split]].
      2:{ intros n ts Hn. simpl. by apply lookup_app_l_Some. }
      2:{ intros ts Hin. simpl in Hin. apply elem_of_app in Hin as [Hin|Hin]; [auto|].
          apply list_elem_of_singleton in Hin as ->. by left. }
      destruct Hinv. split; simpl.
      * apply NoDup_app. split; [done|]. split; [|apply NoDup_singleton].
        intros k' Hin Hin'. apply list_elem_of_singleton in Hin' as ->. done.
      * rewrite !length_app. simpl. lia.
      * rewrite length_app. simpl. rewrite inv_initial0. rewrite wrap32_small; lia.
      * rewrite map_size_insert_None by done. rewrite length_app. simpl. lia.
      * intros k' v. rewrite inv_initial0.
        destruct (decide (k' = k)) as [->|Hne].
        -- rewrite lookup_insert_eq. split.
           ++ intros [= <-]. exists (length sk). split; [done|].
              rewrite lookup_app_r by lia. by rewrite Nat.sub_diag.
           ++ intros (n & -> & Hn). f_equal. f_equal.
              apply lookup_app_Some in Hn as [Hn|[Hge Hn]].
              ** exfalso. apply Hfresh. apply list_elem_of_lookup. eauto.
              ** destruct (n - length sk)%nat eqn:Hd; simpl in Hn; [lia|done].
        -- rewrite lookup_insert_ne by done. rewrite inv_map0. split.
           ++ intros (n & -> & Hn). exists n. split; [done|]. by apply lookup_app_l_Some.
           ++ intros (n & -> & Hn). exists n. split; [done|].
              apply lookup_app_Some in Hn as [Hn|[Hge Hn]]; [done|].
              destruct (n - length sk)%nat eqn:Hd; simpl in Hn; [congruence|done].
      * rewrite length_app. simpl. lia.
      * rewrite !length_app. simpl. lia.
      * intros k' Hin. apply elem_of_app in Hin as [Hin|Hin]; apply elem_of_app; auto.
      * intros _ k' Hin. apply elem_of_app in Hin as [Hin|Hin]; apply elem_of_app; auto.
      * by rewrite length_insert.
      * by rewrite length_insert.
      * intros j k' Hj. destruct (decide (j = length done)) as [->|Hne].
        -- rewrite lookup_app_r in Hj by lia. rewrite Nat.sub_diag in Hj.
           injection Hj as <-.
           rewrite list_lookup_insert_eq by (by apply lookup_lt_Some in Hx).
           unfold index_in. by rewrite lookup_insert_eq.
        -- assert (j < length done)%nat.
           { apply lookup_lt_Some in Hj. rewrite length_app in Hj. simpl in Hj. lia. }
           rewrite lookup_app_l in Hj by done.
           rewrite list_lookup_insert_ne by done.
           rewrite (inv_index0 j k' Hj). f_equal. unfold index_in.
           rewrite lookup_insert_ne; [done|]. intros <-.
           apply Hfresh. apply inv_all0; [done|]. apply list_elem_of_lookup. eauto.
Qed.

Lemma assign_row_key i values st st' :
  assign_row env pfx ci columns natives i values st = Ok st' ->
  exists k, series_key env ci natives values = Ok k.
Proof.
  unfold assign_row.
  destruct (prom_tag_json ci values); destruct (series_key env ci natives values);
    try discriminate; eauto.
Qed.

Lemma assign_rows_inv total maxp rows : forall done st sk st',
  pass1_inv total maxp done st sk ->
  assign_rows env pfx ci columns natives (Z.of_nat (length done)) rows st = Ok st' ->
  exists ks sk',
    Forall2 (fun values k => series_key env ci natives values = Ok k) rows ks /\
    pass1_inv total maxp (done ++ ks) st' sk' /\ sk `prefix_of` sk' /\
    (forall ts, ts ∈ seriesArray st' -> Samples ts = [] \/ ts ∈ seriesArray st).
Proof.
  induction rows as [|values rows IH]; intros done st sk st' Hinv; simpl.
  - intros [= <-]. exists [], sk. rewrite app_nil_r. auto.
  - destruct (assign_row _ _ _ _ _ _ values st) as [st1|e|e] eqn:Hrow; [|discriminate..].
    destruct (assign_row_key _ _ _ _ Hrow) as [k Hk].
    destruct (assign_row_inv _ _ _ _ _ _ _ _ Hinv Hk Hrow) as (sk1 & Hinv1 & Hpre1 & _ & Hs1).
    intros Hrest.
    replace (Z.of_nat (length done) + 1) with (Z.of_nat (length (done ++ [k]))) in Hrest
      by (rewrite length_app; simpl; lia).
    destruct (IH _ _ _ _ Hinv1 Hrest) as (ks & sk' & Hks & Hinv' & Hpre' & Hs').
    exists (k :: ks), sk'. rewrite <- app_assoc in Hinv'. simpl in Hinv'.
    split; [by constructor|]. split; [done|]. split; [by etrans|].
    intros ts Hin. destruct (Hs' ts Hin) as [|Hin1]; [by left|]. auto.
Qed.

(** The samples the second pass appends to series [v], from the rows in the
    order it visits them. *)
Definition samples_for (metricsType : string) (v : Z) (rev_rows : list (Z * list Cell))
  : list Sample :=
  flat_map
    (fun r : Z * list Cell =>
       if fst r =? v
       then match row_sample env ci metricsType (snd r) with
            | Ok (Some s) => [s]
            | _ => []
            end
       else [])
    rev_rows.

Lemma fill_samples_spec metricsType rev_rows : forall series series',
  fill_samples env ci metricsType rev_rows series = Ok series' ->
  length series' = length series /\
  forall n ts, series !! n = Some ts ->
    exists ts', series' !! n = Some ts' /\ Labels ts' = Labels ts /\
      Samples ts' = Samples ts ++ samples_for metricsType (Z.of_nat n) rev_rows.
Proof.
  induction rev_rows as [|[idx values] rest IH]; intros series series'; simpl.
  - intros [= <-]. split; [done|]. intros n ts Hn. exists ts. by rewrite app_nil_r.
  - destruct (idx =? -1) eqn:Hskip.
    + apply Z.eqb_eq in Hskip. subst idx. intros Hrun.
      destruct (IH _ _ Hrun) as [Hlen Hall]. split; [done|].
      intros n ts Hn. destruct (Hall n ts Hn) as (ts' & H1 & H2 & H3).
      exists ts'. split; [done|]. split; [done|].
      replace (-1 =? Z.of_nat n) with false by (symmetry; apply Z.eqb_neq; lia). done.
    + destruct (row_sample env ci metricsType values) as [[s|]|e|e] eqn:Hrow;
        [| |discriminate..].
      * unfold append_sample. destruct (idx <? 0) eqn:Hneg; [discriminate|].
        apply Z.ltb_ge in Hneg.
        destruct (series !! Z.to_nat idx) as [ts0|] eqn:Hts0; [|discriminate].
        intros Hrun. destruct (IH _ _ Hrun) as [Hlen Hall].
        rewrite length_insert in Hlen. split; [done|].
        intros n ts Hn. destruct (decide (n = Z.to_nat idx)) as [->|Hne].
        -- rewrite Hts0 in Hn. injection Hn as <-.
           destruct (Hall (Z.to_nat idx) (mkTimeSeries (Labels ts0) (Samples ts0 ++ [s])))
             as (ts' & H1 & H2 & H3).
           { apply list_lookup_insert_eq. by apply lookup_lt_Some in Hts0. }
           exists ts'. split; [done|]. split; [done|]. rewrite H3. simpl.
           rewrite Z2Nat.id by done. rewrite Z.eqb_refl. by rewrite <- app_assoc.
        -- destruct (Hall n ts) as (ts' & H1 & H2 & H3).
           { by rewrite list_lookup_insert_ne. }
           exists ts'. split; [done|]. split; [done|]. rewrite H3.
           replace (idx =? Z.of_nat n) with false; [done|].
           symmetry. apply Z.eqb_neq. lia.
      * intros Hrun. destruct (IH _ _ Hrun) as [Hlen Hall]. split; [done|].
        intros n ts Hn. destruct (Hall n ts Hn) as (ts' & H1 & H2 & H3).
        exists ts'. split; [done|]. split; [done|]. rewrite H3.
        by destruct (idx =? Z.of_nat n).
Qed.

Lemma samples_for_app metricsType v a b :
  samples_for metricsType v (a ++ b)
  = samples_for metricsType v a ++ samples_for metricsType v b.
Proof. unfold samples_for. apply flat_map_app. Qed.

Lemma samples_for_one metricsType v r s :
  s ∈ samples_for metricsType v [r] ->
  fst r = v /\ row_sample env ci metricsType (snd r) = Ok (Some s).
Proof.
  unfold samples_for. simpl. rewrite app_nil_r.
  destruct (fst r =? v) eqn:Hv; [|by intros ?%elem_of_nil].
  apply Z.eqb_eq in Hv.
  destruct (row_sample env ci metricsType (snd r)) as [[s'|]|e|e];
    try (by intros ?%elem_of_nil).
  intros ->%list_elem_of_singleton. done.
Qed.

(** Every sample of series [v] was made from a row that the first pass gave
    the index [v]. *)
Lemma samples_from_rows metricsType v rows : forall idxs s,
  s ∈ samples_for metricsType v (rev (zip idxs rows)) ->
  exists j values,
    rows !! j = Some values /\ idxs !! j = Some v /\
    row_sample env ci metricsType values = Ok (Some s).
Proof.
  induction rows as [|values rows IH]; intros idxs s.
  - destruct idxs; simpl; by intros ?%elem_of_nil.
  - destruct idxs as [|idx idxs]; [simpl; by intros ?%elem_of_nil|].
    simpl. rewrite samples_for_app. intros [Hin|Hin]%elem_of_app.
    + destruct (IH idxs s Hin) as (j & vs & H1 & H2 & H3). by exists (S j), vs.
    + apply samples_for_one in Hin as [<- Hs]. by exists O, values.
Qed.

(** The time cell of a row. *)
Definition row_time (values : list Cell) : option Z :=
  match cell_at values (timeIndex ci) with
  | Ok (CInt t) => Some t
  | _ => None
  end.

Lemma row_sample_time metricsType values s :
  row_sample env ci metricsType values = Ok (Some s) ->
  exists t, row_time values = Some t /\ Timestamp s = wrap64 (t * 1000).
Proof.
  unfold row_sample, row_time.
  destruct (cell_at values (metricsIndex ci)) as [cell|e|e]; [|discriminate..].
  destruct (cell_at values (timeIndex ci)) as [[t| | | | |]|e|e];
    destruct cell; repeat case_match; try discriminate;
    intros [= <-]; eauto.
Qed.

Lemma wrap64_small (z : Z) : - 2 ^ 63 <= z < 2 ^ 63 -> wrap64 z = z.
Proof. intros H. unfold wrap64. rewrite Z.mod_small; lia. Qed.

(** Rows in time-descending order give each series its samples in
    ascending order of timestamp. *)
Lemma samples_sorted metricsType v lo hi rows : forall idxs,
  - 2 ^ 63 <= lo * 1000 -> hi * 1000 < 2 ^ 63 ->
  Forall (fun values => forall t, row_time values = Some t -> lo <= t <= hi) rows ->
  StronglySorted
    (fun a b => forall ta tb, row_time a = Some ta -> row_time b = Some tb -> tb <= ta)
    rows ->
  StronglySorted Z.le
    (map Timestamp (samples_for metricsType v (rev (zip idxs rows)))) /\
  Forall (fun s => lo * 1000 <= Timestamp s <= hi * 1000)
    (samples_for metricsType v (rev (zip idxs rows))).
Proof.
  intros idxs Hlo Hhi Hrange Hdesc. revert idxs.
  induction rows as [|values rows IH]; intros idxs.
  { destruct idxs; simpl; split; constructor. }
  destruct idxs as [|idx idxs]; [simpl; split; constructor|].
  apply Forall_cons in Hrange as [Hr0 Hrange].
  apply StronglySorted_cons in Hdesc as [Hfirst Hdesc].
  destruct (IH Hrange Hdesc idxs) as [IHs IHr].
  simpl. rewrite samples_for_app, map_app.
  assert (Hone : forall s, s ∈ samples_for metricsType v [(idx, values)] ->
            exists t, row_time values = Some t /\ Timestamp s = t * 1000 /\ lo <= t <= hi).
  { intros s Hs. apply samples_for_one in Hs as [_ Hs]. simpl in Hs.
    apply row_sample_time in Hs as (t & Ht & Hts). exists t.
    specialize (Hr0 t Ht). rewrite wrap64_small in Hts by lia. auto. }
  split.
  - apply StronglySorted_app. split; [|split; [done|]].
    + intros x1 x2 Hx1 Hx2.
      apply list_elem_of_fmap in Hx1 as (s1 & -> & Hs1).
      apply list_elem_of_fmap in Hx2 as (s2 & -> & Hs2).
      destruct (Hone s2 Hs2) as (t2 & Ht2 & -> & Hb2).
      apply samples_from_rows in Hs1 as (j & vs & Hj & _ & Hs1).
      apply row_sample_time in Hs1 as (t1 & Ht1 & ->).
      assert (Hvs : vs ∈ rows) by (apply list_elem_of_lookup; eauto).
      rewrite Forall_forall in Hrange. specialize (Hrange vs Hvs t1 Ht1).
      rewrite wrap64_small by lia.
      rewrite Forall_forall in Hfirst. specialize (Hfirst vs Hvs t2 t1 Ht2 Ht1). lia.
    + unfold samples_for. simpl. rewrite app_nil_r.
      repeat case_match; simpl; repeat constructor.
  - apply Forall_app. split; [done|]. apply Forall_forall. intros s Hs.
    destruct (Hone s Hs) as (t & _ & -> & Hb). lia.
Qed.

End ResponseProperties.

Section ResponseTheorems.

Import GoStrings Service.

Definition natives_of (result : Result) : list Z :=
  native_tags (columns_of result) (Columns result).

(** The keys of the rows of a result, in row order. *)
Definition row_keys (env : Env) (result : Result) (ks : list string) : Prop :=
  Forall2 (fun values k => series_key env (columns_of result) (natives_of result) values = Ok k)
    (Values result) ks.

Lemma first_pass_facts env ctx result st :
  0 <= SeriesLimit env < 2 ^ 31 ->
  first_pass env ctx result = Ok st ->
  exists maxp ks sk,
    row_keys env result ks /\
    pass1_inv env (length (Values result)) maxp ks st sk /\
    Forall (fun ts => Samples ts = []) (seriesArray st).
Proof.
  intros Hlimit. unfold first_pass.
  set (maxPossibleSeries := if Z.of_nat (length (Values result)) >? SeriesLimit env
                            then SeriesLimit env else Z.of_nat (length (Values result))).
  destruct (maxPossibleSeries <? 0); [discriminate|].
  intros Hrun.
  eapply (assign_rows_inv env _ _ _ _ Hlimit (length (Values result))
            (Z.to_nat maxPossibleSeries) (Values result) [] _ []) in Hrun.
  - destruct Hrun as (ks & sk & Hks & Hinv & _ & Hempty).
    exists (Z.to_nat maxPossibleSeries), ks, sk. split; [done|]. split; [done|].
    apply Forall_forall. intros ts Hin. destruct (Hempty ts Hin) as [|Hin']; [done|].
    simpl in Hin'. by apply elem_of_nil in Hin'.
  - split; simpl; try done; try lia.
    + constructor.
    + intros k v. rewrite lookup_empty. split; [done|]. by intros (n & _ & Hn).
    + apply length_replicate.
    + apply length_replicate.
Qed.

Lemma respTransToProm_facts env ctx result series :
  0 <= SeriesLimit env < 2 ^ 31 ->
  respTransToProm env ctx result = Ok series ->
  exists st metricsType maxp ks sk,
    first_pass env ctx result = Ok st /\
    Schemas result !! Z.to_nat (metricsIndex (columns_of result)) = Some metricsType /\
    row_keys env result ks /\
    pass1_inv env (length (Values result)) maxp ks st sk /\
    length series = length sk /\
    forall n ts, series !! n = Some ts ->
      Samples ts = samples_for env (columns_of result) metricsType (Z.of_nat n)
                     (rev (zip (sampleSeriesIndex st) (Values result))).
Proof.
  intros Hlimit. unfold respTransToProm.
  destruct (_ || _); [discriminate|].
  destruct (Schemas result !! _) as [metricsType|] eqn:Hmt; [|discriminate].
  destruct (first_pass env ctx result) as [st|e|e] eqn:Hfirst; [|discriminate..].
  intros Hfill.
  destruct (first_pass_facts env ctx result st Hlimit Hfirst)
    as (maxp & ks & sk & Hks & Hinv & Hempty).
  apply fill_samples_spec in Hfill as [Hlen Hall].
  exists st, metricsType, maxp, ks, sk.
  split; [done|]. split; [done|]. split; [done|]. split; [done|]. split.
  - rewrite Hlen. apply (inv_series _ _ _ _ _ _ Hinv).
  - intros n ts Hn.
    assert (Hlt : (n < length (seriesArray st))%nat).
    { rewrite <- Hlen. by apply lookup_lt_Some in Hn. }
    apply lookup_lt_is_Some_2 in Hlt as [ts0 Hts0].
    destruct (Hall n ts0 Hts0) as (ts' & Hts' & _ & Hs).
    rewrite Hn in Hts'. injection Hts' as <-. rewrite Hs.
    rewrite Forall_forall in Hempty. rewrite (Hempty ts0); [done|].
    apply list_elem_of_lookup. eauto.
Qed.

Lemma distinct_keys_bound (ks sk : list string) (limit : Z) :
  NoDup sk -> (forall k, k ∈ sk -> k ∈ ks) ->
  Z.of_nat (length sk) <= limit ->
  (Z.of_nat (length sk) < limit -> forall k, k ∈ ks -> k ∈ sk) ->
  (limit < Z.of_nat (size (list_to_set ks : gset string)) ->
     Z.of_nat (length sk) = limit) /\
  (Z.of_nat (size (list_to_set ks : gset string)) <= limit ->
     length sk = size (list_to_set ks : gset string)).
Proof.
  intros Hnd Hsub Hle Hall.
  assert (Hsize : size (list_to_set sk : gset string) = length sk)
    by (by apply size_list_to_set).
  assert (Hincl : (list_to_set sk : gset string) ⊆ list_to_set ks).
  { intros k. rewrite !elem_of_list_to_set. apply Hsub. }
  apply subseteq_size in Hincl.
  destruct (decide (Z.of_nat (length sk) < limit)) as [Hlt|Hge].
  - assert (Heq : (list_to_set sk : gset string) = list_to_set ks).
    { apply set_eq. intros k. rewrite !elem_of_list_to_set. split; [apply Hsub | by apply Hall]. }
    rewrite <- Heq, Hsize. split; [lia | done].
  - split; [lia|]. intros Hd. lia.
Qed.

(** C6, as amended: a result whose rows span more distinct keys than
    [SeriesLimit] gives exactly [SeriesLimit] series (and all of them when
    there are no more keys than the limit); the series stand for pairwise
    distinct keys; a row whose key has no series has [sampleSeriesIndex] -1,
    and every sample of a series was made from a row that carries the
    number of that series. *)
Theorem series_limit_respected env ctx result series :
  0 <= SeriesLimit env < 2 ^ 31 ->
  respTransToProm env ctx result = Ok series ->
  exists st metricsType ks sk,
    first_pass env ctx result = Ok st /\
    Schemas result !! Z.to_nat (metricsIndex (columns_of result)) = Some metricsType /\
    row_keys env result ks /\
    (SeriesLimit env < Z.of_nat (size (list_to_set ks : gset string)) ->
       Z.of_nat (length series) = SeriesLimit env) /\
    (Z.of_nat (size (list_to_set ks : gset string)) <= SeriesLimit env ->
       length series = size (list_to_set ks : gset string)) /\
    NoDup sk /\ length series = length sk /\ (forall k, k ∈ sk -> k ∈ ks) /\
    (forall j k, ks !! j = Some k -> k ∉ sk -> sampleSeriesIndex st !! j = Some (-1)) /\
    (forall j k n, ks !! j = Some k -> sk !! n = Some k ->
       sampleSeriesIndex st !! j = Some (Z.of_nat n)) /\
    (forall n ts s, series !! n = Some ts -> s ∈ Samples ts ->
       exists j values,
         Values result !! j = Some values /\
         sampleSeriesIndex st !! j = Some (Z.of_nat n) /\
         row_sample env (columns_of result) metricsType values = Ok (Some s)).
Proof.
  intros Hlimit Hrun.
  destruct (respTransToProm_facts env ctx result series Hlimit Hrun)
    as (st & metricsType & maxp & ks & sk & Hfirst & Hmt & Hks & Hinv & Hlen & Hsamples).
  exists st, metricsType, ks, sk.
  destruct (distinct_keys_bound ks sk (SeriesLimit env)
              (inv_nodup _ _ _ _ _ _ Hinv) (inv_sub _ _ _ _ _ _ Hinv)
              (inv_limit _ _ _ _ _ _ Hinv) (inv_all _ _ _ _ _ _ Hinv)) as [Hmore Hfew].
  split; [done|]. split; [done|]. split; [done|].
  split; [intros Hd; rewrite Hlen; auto|]. split; [intros Hd; rewrite Hlen; auto|].
  split; [apply (inv_nodup _ _ _ _ _ _ Hinv)|]. split; [done|].
  split; [apply (inv_sub _ _ _ _ _ _ Hinv)|].
  split; [|split].
  - intros j k Hj Hnot. rewrite (inv_index _ _ _ _ _ _ Hinv j k Hj). f_equal.
    unfold index_in. destruct (seriesIndexMap st !! k) as [v|] eqn:Hv; [|done].
    apply (inv_map _ _ _ _ _ _ Hinv) in Hv as (n & _ & Hn).
    exfalso. apply Hnot. apply list_elem_of_lookup. eauto.
  - intros j k n Hj Hn. rewrite (inv_index _ _ _ _ _ _ Hinv j k Hj). f_equal.
    unfold index_in.
    assert (Hv : seriesIndexMap st !! k = Some (Z.of_nat n)).
    { apply (inv_map _ _ _ _ _ _ Hinv). eauto. }
    by rewrite Hv.
  - intros n ts s Hn Hs. rewrite (Hsamples n ts Hn) in Hs.
    by apply samples_from_rows in Hs.
Qed.

(** The request's time filter, in seconds (lines 123-127). *)
Definition window_start (h : ReadHints) : Z := Z.quot (StartMs h) 1000.

Definition window_end (q : Query) (h : ReadHints) : Z :=
  if Z.rem (EndTimestampMs q) 1000 >? 0
  then Z.quot (EndMs h) 1000 + 1
  else Z.quot (EndMs h) 1000.

(** Rows ordered by time, latest first. *)
Definition time_descending (ci : ColumnIndex) (rows : list (list Cell)) : Prop :=
  StronglySorted
    (fun a b => forall ta tb, row_time ci a = Some ta -> row_time ci b = Some tb -> tb <= ta)
    rows.

(** Rows that meet the filter [(time >= start AND time <= end)]. *)
Definition within_filter (ci : ColumnIndex) (q : Query) (h : ReadHints)
    (rows : list (list Cell)) : Prop :=
  Forall (fun values => forall t, row_time ci values = Some t ->
            window_start h <= t <= window_end q h) rows.

(** The row times whose product with 1000 fits an [int64]. *)
Definition fits_int64 (ci : ColumnIndex) (rows : list (list Cell)) : Prop :=
  Forall (fun values => forall t, row_time ci values = Some t ->
            - 2 ^ 63 <= t * 1000 < 2 ^ 63) rows.

(** C7, as amended: from rows ordered time-descending whose times, taken
    1000 times, fit an [int64], every series has its samples in ascending
    (non-decreasing) order of timestamp, and every timestamp is 1000 times
    the time cell of a row of the result.  No bound of a request enters:
    the timestamps lie where the rows do. *)
Theorem samples_ascending env ctx result series :
  0 <= SeriesLimit env < 2 ^ 31 ->
  respTransToProm env ctx result = Ok series ->
  time_descending (columns_of result) (Values result) ->
  fits_int64 (columns_of result) (Values result) ->
  forall ts, ts ∈ series ->
    StronglySorted Z.le (map Timestamp (Samples ts)) /\
    Forall (fun s => exists values t,
              values ∈ Values result /\
              row_time (columns_of result) values = Some t /\
              Timestamp s = t * 1000)
      (Samples ts).
Proof.
  intros Hlimit Hrun Hdesc Hfit ts Hts.
  destruct (respTransToProm_facts env ctx result series Hlimit Hrun)
    as (st & metricsType & maxp & ks & sk & _ & _ & _ & _ & _ & Hsamples).
  apply list_elem_of_lookup in Hts as [n Hn]. rewrite (Hsamples n ts Hn).
  split.
  - apply (samples_sorted env (columns_of result) metricsType (Z.of_nat n)
             (- 9223372036854775) 9223372036854775); [lia | lia | | done].
    eapply Forall_impl; [exact Hfit|]. intros values Hv t Ht. specialize (Hv t Ht). lia.
  - apply Forall_forall. intros s Hs.
    apply samples_from_rows in Hs as (j & values & Hj & _ & Hs).
    apply row_sample_time in Hs as (t & Ht & Hts).
    assert (Hin : values ∈ Values result) by (apply list_elem_of_lookup; eauto).
    exists values, t. split; [done|]. split; [done|].
    unfold fits_int64 in Hfit. rewrite Forall_forall in Hfit.
    specialize (Hfit values Hin t Ht). by rewrite wrap64_small in Hts.
Qed.

(** Index and text of every native tag column of a row. *)
Definition native_texts (env : Env) (natives : list Z) (values : list Cell)
    (vs : list string) : Prop :=
  Forall2 (fun idx v => exists c, cell_at values idx = Ok c /\ getValue env c = Ok v)
    natives vs.

Lemma tags_str_list_all env values natives : forall l,
  tags_str_list env natives values = Ok l ->
  exists vs, native_texts env natives values vs /\
    l = concat (zip_with (fun idx v => [itoa idx; v]) natives vs).
Proof.
  induction natives as [|idx rest IH]; intros l; simpl.
  - intros [= <-]. exists []. split; [constructor | done].
  - destruct (cell_at values idx) as [c|e|e] eqn:Hc; [|discriminate..].
    destruct (getValue env c) as [v|e|e] eqn:Hv; [|discriminate..].
    destruct (tags_str_list env rest values) as [l'|e|e]; [|discriminate..].
    intros [= <-]. destruct (IH l' eq_refl) as (vs & Hvs & ->).
    exists (v :: vs). split; [constructor; eauto | done].
Qed.

(** C8, as amended: the key of a row is the native-tag JSON string followed
    by index and value of every deepflow-native tag column, zero values
    included, joined with "-"; two rows get the same series exactly when
    their keys are equal (a row left without a series has index -1). *)
Theorem series_key_identifies env ctx result series :
  0 <= SeriesLimit env < 2 ^ 31 ->
  respTransToProm env ctx result = Ok series ->
  exists st ks,
    first_pass env ctx result = Ok st /\ row_keys env result ks /\
    (forall j values k, Values result !! j = Some values -> ks !! j = Some k ->
       exists json vs,
         prom_tag_json (columns_of result) values = Ok json /\
         native_texts env (natives_of result) values vs /\
         k = match natives_of result with
             | [] => json
             | _ => json +:+ Join (concat (zip_with (fun idx v => [itoa idx; v])
                                             (natives_of result) vs)) "-"
             end) /\
    (forall i j ki kj si sj,
       ks !! i = Some ki -> ks !! j = Some kj ->
       sampleSeriesIndex st !! i = Some si -> sampleSeriesIndex st !! j = Some sj ->
       (ki = kj -> si = sj) /\ (si = sj -> si <> -1 -> ki = kj)).
Proof.
  intros Hlimit Hrun.
  destruct (respTransToProm_facts env ctx result series Hlimit Hrun)
    as (st & metricsType & maxp & ks & sk & Hfirst & _ & Hks & Hinv & _ & _).
  exists st, ks. split; [done|]. split; [done|]. split.
  - intros j values k Hj Hk.
    assert (Hkey : series_key env (columns_of result) (natives_of result) values = Ok k).
    { unfold row_keys in Hks. by eapply Forall2_lookup_lr in Hks. }
    unfold series_key in Hkey.
    destruct (prom_tag_json (columns_of result) values) as [json|e|e]; [|discriminate..].
    destruct (natives_of result) as [|idx rest] eqn:Hnat.
    + injection Hkey as <-. exists json, []. split; [done|]. split; [constructor | done].
    + simpl in Hkey.
      destruct (cell_at values idx) as [c|e|e] eqn:Hc; [|discriminate..].
      destruct (getValue env c) as [v|e|e] eqn:Hv; [|discriminate..].
      destruct (tags_str_list env rest values) as [l|e|e] eqn:Hl; [|discriminate..].
      injection Hkey as <-. apply tags_str_list_all in Hl as (vs & Hvs & ->).
      exists json, (v :: vs). split; [done|]. split; [constructor; eauto | done].
  - intros i j ki kj si sj Hi Hj Hsi Hsj.
    rewrite (inv_index _ _ _ _ _ _ Hinv i ki Hi) in Hsi. injection Hsi as <-.
    rewrite (inv_index _ _ _ _ _ _ Hinv j kj Hj) in Hsj. injection Hsj as <-.
    split; [by intros ->|].
    unfold index_in.
    destruct (seriesIndexMap st !! ki) as [vi|] eqn:Hvi;
      destruct (seriesIndexMap st !! kj) as [vj|] eqn:Hvj; simpl; try done.
    intros -> _.
    apply (inv_map _ _ _ _ _ _ Hinv) in Hvi as (ni & -> & Hni).
    apply (inv_map _ _ _ _ _ _ Hinv) in Hvj as (nj & Heq & Hnj).
    apply Nat2Z.inj in Heq as ->. congruence.
Qed.

End ResponseTheorems.

(** A querier whose [SeriesLimit] is 2. *)
Definition limit2_env : Service.Env :=
  Service.mkEnv (fun _ => true) (fun _ _ _ => Ok [])
    ["flow_log"; "flow_metrics"; "ext_metrics"; "deepflow_system"; "prometheus"]
    "10000" "df_" false 2 (fun v => v) GoStrings.itoa (fun _ => []).

(** Three rows of a native db, one native tag column [pod] with the values
    "", "{}" and "x". *)
Definition pod_result : Service.Result :=
  Service.mkResult ["timestamp"; "metrics.m"; "pod"]
    [[Service.CInt 3; Service.CInt 1; Service.CString ""];
     [Service.CInt 2; Service.CInt 1; Service.CString "{}"];
     [Service.CInt 1; Service.CInt 1; Service.CString "x"]]
    ["Int"; "Int"; "String"].

(** Two rows of one series at the same second. *)
Definition same_second_result : Service.Result :=
  Service.mkResult ["timestamp"; "metrics.m"; "tag"]
    [[Service.CInt 5; Service.CInt 1; Service.CString "{}"];
     [Service.CInt 5; Service.CInt 2; Service.CString "{}"]]
    ["Int"; "Int"; "String"].

(** A nullable integer tag column: 0 in one row, null in the next. *)
Definition zero_null_result : Service.Result :=
  Service.mkResult ["timestamp"; "metrics.m"; "vpc"]
    [[Service.CInt 2; Service.CInt 1; Service.CInt 0];
     [Service.CInt 1; Service.CInt 1; Service.CNil]]
    ["Int"; "Int"; "Int"].

Definition name_only (t v : Z) : Service.TimeSeries :=
  Service.mkTimeSeries [Service.mkLabel "__name__" "m"] [Service.mkSample t v].

Example pod_response :
  Service.respTransToProm limit2_env plain_ctx pod_result
  = Ok [name_only 3000 1; name_only 2000 1].
Proof. vm_compute. reflexivity. Qed.

Example same_second_response :
  Service.respTransToProm querier_env plain_ctx same_second_result
  = Ok [Service.mkTimeSeries [Service.mkLabel "__name__" "m"]
          [Service.mkSample 5000 2; Service.mkSample 5000 1]].
Proof. vm_compute. reflexivity. Qed.

Example zero_null_response :
  Service.respTransToProm querier_env plain_ctx zero_null_result
  = Ok [name_only 2000 1; name_only 1000 1].
Proof. vm_compute. reflexivity. Qed.

Definition keys_in (env : Service.Env) (result : Service.Result) : list (outcome string) :=
  map (Service.series_key env (Service.columns_of result) (natives_of result))
    (Service.Values result).

Definition indices_in (env : Service.Env) (ctx : Service.Ctx) (result : Service.Result)
  : option (list Z) :=
  match Service.first_pass env ctx result with
  | Ok st => Some (Service.sampleSeriesIndex st)
  | _ => None
  end.

(** C6 as stated fails: three distinct keys against a limit of 2, and the
    two series returned carry the same label set, because the keys "2-" and
    "2-{}" differ only in a zero value that the labels leave out. *)
Lemma series_labels_collide :
  keys_in limit2_env pod_result = [Ok "2-"; Ok "2-{}"; Ok "2-x"] /\
  Service.SeriesLimit limit2_env = 2 /\
  exists series,
    Service.respTransToProm limit2_env plain_ctx pod_result = Ok series /\
    ~ NoDup (map Service.Labels series).
Proof.
  split; [reflexivity|]. split; [reflexivity|].
  exists [name_only 3000 1; name_only 2000 1]. split; [apply pod_response|].
  simpl. intros Hnd. apply NoDup_cons in Hnd as [Hnot _]. apply Hnot. left.
Qed.

Definition half_second_hints : Service.ReadHints :=
  Service.mkHints 0 "" 5500 5900 [] false.

Definition half_second_query : Service.Query :=
  Service.mkQuery 5500 5900 [Service.mkMatcher Service.LabelMatcher_EQ "__name__" "m"]
    (Some half_second_hints).

Lemma same_second_descending :
  time_descending (Service.columns_of same_second_result)
    (Service.Values same_second_result).
Proof.
  unfold time_descending. simpl.
  repeat (apply StronglySorted_cons; split;
    [repeat (apply Forall_cons; split;
       [intros ta tb Ha Hb; vm_compute in Ha, Hb;
        injection Ha as <-; injection Hb as <-; lia|]);
     apply Forall_nil_2|]).
  constructor.
Qed.

Lemma same_second_within_filter :
  within_filter (Service.columns_of same_second_result) half_second_query
    half_second_hints (Service.Values same_second_result).
Proof.
  unfold within_filter. simpl.
  repeat (apply Forall_cons; split;
    [intros t Ht; vm_compute in Ht; injection Ht as <-; vm_compute; split; discriminate|]).
  apply Forall_nil_2.
Qed.

(** C7 as stated fails: rows ordered time-descending, both of second 5 and
    both meeting the filter of a request for [5500, 5900] ms, give one
    series whose two samples share the timestamp 5000, which is not strictly
    ascending and lies before the request's start. *)
Lemma samples_not_strictly_ascending :
  time_descending (Service.columns_of same_second_result)
    (Service.Values same_second_result) /\
  within_filter (Service.columns_of same_second_result) half_second_query
    half_second_hints (Service.Values same_second_result) /\
  exists ts,
    Service.respTransToProm querier_env plain_ctx same_second_result = Ok [ts] /\
    ~ StronglySorted Z.lt (map Service.Timestamp (Service.Samples ts)) /\
    ~ Forall (fun s => Service.StartMs half_second_hints <= Service.Timestamp s
                       <= Service.EndMs half_second_hints) (Service.Samples ts).
Proof.
  split; [apply same_second_descending|]. split; [apply same_second_within_filter|].
  eexists. split; [apply same_second_response|]. simpl. split.
  - intros Hs. apply StronglySorted_cons in Hs as [Hlt _].
    apply Forall_cons in Hlt as [Hlt _]. lia.
  - intros Hw. apply Forall_cons in Hw as [Hw _]. simpl in Hw. lia.
Qed.

(** The key as the claim has it: the pairs of the native tag columns whose
    value is zero are left out. *)
Definition series_key_elided (env : Service.Env) (ci : Service.ColumnIndex)
    (natives : list Z) (values : list Service.Cell) : outcome string :=
  let kept :=
    List.filter
      (fun idx => match Service.cell_at values idx with
                  | Ok c => negb (Service.isZero c)
                  | _ => true
                  end) natives in
  match Service.prom_tag_json ci values, Service.tags_str_list env kept values with
  | Ok json, Ok l => Ok (json +:+ GoStrings.Join l "-")
  | Panic e, _ | _, Panic e => Panic e
  | Err e, _ | _, Err e => Err e
  end.

(** C8 as stated fails: the key of a row keeps the zero values ("2-0" for
    the integer 0, "2-" for null), so two rows whose keys with the zero
    values left out are equal still get two series. *)
Lemma zero_values_stay_in_key :
  keys_in querier_env zero_null_result = [Ok "2-0"; Ok "2-"] /\
  map (series_key_elided querier_env (Service.columns_of zero_null_result)
         (natives_of zero_null_result)) (Service.Values zero_null_result)
  = [Ok ""; Ok ""] /\
  indices_in querier_env plain_ctx zero_null_result = Some [0; 1].
Proof. vm_compute. repeat split. Qed.

Lemma limit2_in_range : 0 <= Service.SeriesLimit limit2_env < 2 ^ 31.
Proof. simpl. lia. Qed.

Lemma querier_limit_in_range : 0 <= Service.SeriesLimit querier_env < 2 ^ 31.
Proof. simpl. lia. Qed.

Lemma series_limit_respected_witness :
  (0 <= Service.SeriesLimit limit2_env < 2 ^ 31) /\
  Service.respTransToProm limit2_env plain_ctx pod_result
    = Ok [name_only 3000 1; name_only 2000 1] /\
  exists (ks sk : list string),
    row_keys limit2_env pod_result ks /\ NoDup sk /\ length sk = 2%nat /\
    (Service.SeriesLimit limit2_env < Z.of_nat (size (list_to_set ks : gset string)) ->
     Z.of_nat 2 = Service.SeriesLimit limit2_env).
Proof.
  split; [apply limit2_in_range|]. split; [apply pod_response|].
  destruct (series_limit_respected limit2_env plain_ctx pod_result _
              limit2_in_range pod_response)
    as (st & mt & ks & sk & _ & _ & Hks & Hmore & _ & Hnd & Hlen & _).
  exists ks, sk. split; [exact Hks|]. split; [exact Hnd|].
  split; [symmetry; exact Hlen | exact Hmore].
Defined.

Lemma same_second_fits :
  fits_int64 (Service.columns_of same_second_result) (Service.Values same_second_result).
Proof.
  unfold fits_int64. simpl.
  repeat (apply Forall_cons; split;
    [intros t Ht; vm_compute in Ht; injection Ht as <-; lia|]).
  apply Forall_nil_2.
Qed.

Lemma samples_ascending_witness :
  StronglySorted Z.le [5000; 5000] /\
  Forall (fun s => exists values t,
            values ∈ Service.Values same_second_result /\
            row_time (Service.columns_of same_second_result) values = Some t /\
            Service.Timestamp s = t * 1000)
    [Service.mkSample 5000 2; Service.mkSample 5000 1].
Proof.
  exact (samples_ascending querier_env plain_ctx same_second_result _
           querier_limit_in_range same_second_response
           same_second_descending same_second_fits
           (Service.mkTimeSeries [Service.mkLabel "__name__" "m"]
              [Service.mkSample 5000 2; Service.mkSample 5000 1])
           ltac:(left)).
Defined.

(** The bucket of a 60 s step that starts before the request of scenario
    S2 does: its sample lies before [StartMs]. *)
Example aligned_bucket_before_start :
  Service.respTransToProm querier_env plain_ctx
    (Service.mkResult ["timestamp"; "pod"; "metrics.byte_rx"]
       [[Service.CInt 1699999980; Service.CString "p"; Service.CInt 7]]
       ["Int"; "String"; "Int"])
  = Ok [Service.mkTimeSeries
          [Service.mkLabel "pod" "p"; Service.mkLabel "__name__" "byte_rx"]
          [Service.mkSample 1699999980000 7]] /\
  1699999980000 < Service.StartMs (byte_rx_hints "sum").
Proof. vm_compute. split; reflexivity. Qed.

(** Times whose product with 1000 leaves [int64] wrap around: rows in
    descending order give samples in descending order. *)
Example overflowing_times_descend :
  let result :=
    Service.mkResult ["timestamp"; "metrics.m"]
      [[Service.CInt (2 ^ 63 - 1); Service.CInt 1]; [Service.CInt 1; Service.CInt 1]]
      ["Int"; "Int"] in
  time_descending (Service.columns_of result) (Service.Values result) /\
  Service.respTransToProm querier_env plain_ctx result
  = Ok [Service.mkTimeSeries [Service.mkLabel "__name__" "m"]
          [Service.mkSample 1000 1; Service.mkSample (-1000) 1]].
Proof.
  cbn zeta. split; [|vm_compute; reflexivity].
  unfold time_descending. simpl.
  repeat (apply StronglySorted_cons; split;
    [repeat (apply Forall_cons; split;
       [intros ta tb Ha Hb; vm_compute in Ha, Hb;
        injection Ha as <-; injection Hb as <-; lia|]);
     apply Forall_nil_2|]).
  constructor.
Qed.

Lemma series_key_identifies_witness :
  exists st ks,
    Service.first_pass querier_env plain_ctx zero_null_result = Ok st /\
    row_keys querier_env zero_null_result ks /\
    forall i j ki kj si sj,
      ks !! i = Some ki -> ks !! j = Some kj ->
      Service.sampleSeriesIndex st !! i = Some si ->
      Service.sampleSeriesIndex st !! j = Some sj ->
      (ki = kj -> si = sj) /\ (si = sj -> si <> -1 -> ki = kj).
Proof.
  destruct (series_key_identifies querier_env plain_ctx zero_null_result _
              querier_limit_in_range zero_null_response)
    as (st & ks & Hfirst & Hks & _ & Hiff).
  exists st, ks. split; [exact Hfirst|]. split; [exact Hks | exact Hiff].
Defined.

(** ** The JSON parameter check *)

Section CommonProperties.

Import GoStrings Common.

Lemma find_first {A} (f : A -> bool) (l : list A) x :
  List.find f l = Some x ->
  exists pre post, l = pre ++ x :: post /\ f x = true /\ Forall (fun y => f y = false) pre.
Proof.
  induction l as [|a l IH]; simpl; [discriminate|].
  destruct (f a) eqn:Ha.
  - intros [= <-]. exists [], l. auto.
  - intros Hf. destruct (IH Hf) as (pre & post & -> & Hx & Hpre).
    exists (a :: pre), post. auto.
Qed.

Lemma find_none_iff {A} (f : A -> bool) (l : list A) :
  List.find f l = None <-> forall x, x ∈ l -> f x = false.
Proof.
  induction l as [|a l IH]; simpl.
  - split; [by intros _ x ?%elem_of_nil | done].
  - destruct (f a) eqn:Ha.
    + split; [discriminate|]. intros H. rewrite (H a) in Ha; [done | left].
    + rewrite IH. split.
      * intros H x [->|Hx]%elem_of_cons; auto.
      * intros H x Hx. apply H. by right.
Qed.

(** The keys of an object: every member name, and the keys of the value a
    name has last. *)
Lemma getAllKeys_object members k :
  k ∈ getAllKeys (JObject members) <->
  exists i name value,
    members !! i = Some (name, value) /\
    (k = name \/ (shadowed name (drop (S i) members) = false /\ k ∈ getAllKeys value)).
Proof.
  simpl. induction members as [|[name value] rest IH].
  - split; [by intros ?%elem_of_nil | by intros (i & ? & ? & ? & _)].
  - rewrite elem_of_cons, elem_of_app, IH. split.
    + intros [->|[Hin|(i & n & v & Hi & Hk)]].
      * exists O, name, value. auto.
      * exists O, name, value. split; [done|]. right.
        simpl. rewrite drop_0. destruct (shadowed name rest); [by apply elem_of_nil in Hin|done].
      * exists (S i), n, v. auto.
    + intros ([|i] & n & v & Hi & Hk); simpl in Hi.
      * injection Hi as <- <-. destruct Hk as [->|[Hs Hk]]; [by left|].
        right. left. simpl in Hs. rewrite drop_0 in Hs. by rewrite Hs.
      * right. right. exists i, n, v. auto.
Qed.

(** The keys of an array: the keys of its items. *)
Lemma getAllKeys_array items k :
  k ∈ getAllKeys (JArray items) <-> exists item, item ∈ items /\ k ∈ getAllKeys item.
Proof.
  simpl. induction items as [|item rest IH].
  - split; [by intros ?%elem_of_nil | by intros (? & ?%elem_of_nil & _)].
  - rewrite elem_of_app, IH. split.
    + intros [Hin|(x & Hx & Hk)]; [exists item; split; [left|done] | exists x; split; [by right|done]].
    + intros (x & [->|Hx]%elem_of_cons & Hk); [by left | right; eauto].
Qed.

(** The tags under a field type: through a struct or a pointer, or through
    one array, slice or map. *)
Definition tags_below (ftype : GoType) : list string :=
  match ftype with
  | TStruct _ | TPtr _ => getAllJSONTags ftype
  | TArray elem | TSlice elem | TMap elem => getAllJSONTags elem
  | TOther => []
  end.

(** The tags of a struct: the tag of every tagged field, and the tags below
    every tagged field. *)
Lemma getAllJSONTags_struct fields t :
  t ∈ getAllJSONTags (TStruct fields) <->
  exists tag ftype,
    (tag, ftype) ∈ fields /\ tag <> "" /\ (t = tag \/ t ∈ tags_below ftype).
Proof.
  simpl. induction fields as [|[tag ftype] rest IH].
  - split; [by intros ?%elem_of_nil | by intros (? & ? & ?%elem_of_nil & _)].
  - destruct (streq tag "") eqn:Htag.
    + apply String.eqb_eq in Htag. subst tag. rewrite IH. split.
      * intros (tg & ft & Hin & Hne & Ht). exists tg, ft. split; [by right|done].
      * intros (tg & ft & [[= -> ->]|Hin]%elem_of_cons & Hne & Ht); [done|eauto].
    + apply String.eqb_neq in Htag. rewrite elem_of_cons, elem_of_app, IH. split.
      * intros [->|[Hin|(tg & ft & Hin & Hne & Ht)]].
        -- exists tag, ftype. split; [left|auto].
        -- exists tag, ftype. split; [left|]. split; [done|]. right. exact Hin.
        -- exists tg, ft. split; [by right|auto].
      * intros (tg & ft & [[= -> ->]|Hin]%elem_of_cons & Hne & [->|Ht]).
        -- by left.
        -- right. left. exact Ht.
        -- right. right. exists tg, ft. auto.
        -- right. right. exists tg, ft. auto.
Qed.

Lemma getAllJSONTags_ptr fields :
  getAllJSONTags (TPtr (TStruct fields)) = getAllJSONTags (TStruct fields).
Proof. reflexivity. Qed.

Lemma GetAllKeys_ok rt s keys :
  GetAllKeys rt s = inr keys ->
  exists data, decode rt s = inr data /\
    (data = JNull \/ exists members, data = JObject members) /\
    keys = list_to_set (getAllKeys data).
Proof.
  unfold GetAllKeys. destruct (decode rt s) as [e|data]; [discriminate|].
  destruct data; try discriminate; intros [= <-];
    eexists; (split; [reflexivity|]); (split; [eauto|]).
  - simpl. reflexivity.
  - reflexivity.
Qed.

Lemma GetAllKeys_err rt s msg :
  GetAllKeys rt s = inl msg ->
  (exists e, decode rt s = inl e \/
     (exists data, decode rt s = inr data /\ data <> JNull /\
        forall members, data <> JObject members)) /\
  exists e, msg = "not a valid JSON string: " +:+ s +:+ newline +:+ "err: " +:+ e.
Proof.
  unfold GetAllKeys. destruct (decode rt s) as [e|data].
  - intros [= <-]. split; [exists e; by left | by exists e].
  - destruct data; try discriminate; intros [= <-];
      (split; [exists ""; right; eexists; (split; [reflexivity|]); by split
              | eexists; reflexivity]).
Qed.


End CommonProperties.

(** A decoder for the texts of the examples, and an iteration in the order
    of the key set's elements. *)
Definition dq : string := String (ascii_of_nat 34) EmptyString.

Definition quoted (name : string) : string := dq +:+ name +:+ dq.

(** [{"name":1,"bogus":2}] *)
Definition bogus_text : string :=
  "{" +:+ quoted "name" +:+ ":1," +:+ quoted "bogus" +:+ ":2}".

(** [{"replicas":{"spec":[{"name":1}]}}] *)
Definition nested_text : string :=
  "{" +:+ quoted "replicas" +:+ ":{" +:+ quoted "spec" +:+ ":[{" +:+ quoted "name" +:+ ":1}]}}".

(** [{"x":1}] *)
Definition x_text : string := "{" +:+ quoted "x" +:+ ":1}".

Definition json_rt : Common.Runtime :=
  Common.mkRuntime
    (fun s =>
       if GoStrings.streq s "[]" then inr (Common.JArray [])
       else if GoStrings.streq s "null" then inr Common.JNull
       else if GoStrings.streq s "{}" then inr (Common.JObject [])
       else if GoStrings.streq s bogus_text then
         inr (Common.JObject [("name", Common.JNumber "1"); ("bogus", Common.JNumber "2")])
       else if GoStrings.streq s nested_text then
         inr (Common.JObject
                [("replicas",
                  Common.JObject
                    [("spec", Common.JArray [Common.JObject [("name", Common.JNumber "1")]])])])
       else if GoStrings.streq s x_text then
         inr (Common.JObject [("x", Common.JNumber "1")])
       else inl "invalid character")
    elements.

(** [struct { Name string `json:"name"`; Spec struct { Replicas int
    `json:"replicas"` } `json:"spec"` }] *)
Definition deployment : Common.GoType :=
  Common.TStruct
    [("name", Common.TOther);
     ("spec", Common.TStruct [("replicas", Common.TOther)])].

(** [struct { Inner struct { X int `json:"x"` } }]: the outer field has no
    tag. *)
Definition untagged_outer : Common.GoType :=
  Common.TStruct [("", Common.TStruct [("x", Common.TOther)])].


(** A tag below a field that has no tag itself is not collected: the key
    [x] is refused for [untagged_outer]. *)
Example tag_below_untagged_field :
  Common.getAllJSONTags untagged_outer = [] /\
  Common.CheckJSONParam json_rt x_text untagged_outer = Some "rogue field(x)".
Proof. vm_compute. auto. Qed.

(** Nesting is ignored: [replicas], [spec] and [name] are accepted at levels
    where the type does not have them. *)
Example nesting_ignored :
  Common.getAllJSONTags deployment = ["name"; "spec"; "replicas"] /\
  Common.CheckJSONParam json_rt nested_text deployment = None.
Proof. vm_compute. auto. Qed.

Example rogue_field_reported :
  Common.CheckJSONParam json_rt bogus_text deployment = Some "rogue field(bogus)".
Proof. vm_compute. reflexivity. Qed.

Example null_and_empty_accepted :
  Common.CheckJSONParam json_rt "null" deployment = None /\
  Common.CheckJSONParam json_rt "{}" deployment = None.
Proof. vm_compute. auto. Qed.


(** ** Tag names: prefixes and separators *)

Section TagNameProperties.

Import GoStrings Service.

Lemma prefix_append (p s : string) : String.prefix p (p +:+ s) = true.
Proof.
  induction p as [|c p IH]; simpl; [by destruct s|].
  destruct (ascii_dec c c); [exact IH | done].
Qed.

Lemma prefix_cut (p : string) : forall s,
  String.prefix p s = true -> exists rest, s = p +:+ rest.
Proof.
  induction p as [|c p IH]; intros s; simpl.
  - intros _. by exists s.
  - destruct s as [|d s]; simpl; [discriminate|].
    destruct (ascii_dec c d) as [->|]; [|discriminate].
    intros H. destruct (IH s H) as [rest ->]. by exists rest.
Qed.

Lemma index_of_prefix (p s : string) :
  String.prefix p s = true -> String.index 0 p s = Some O.
Proof.
  destruct s as [|d s]; simpl.
  - destruct p; [done | discriminate].
  - intros H. change (String.prefix p (String d s)) with
      (match p with
       | EmptyString => true
       | String a p' => if ascii_dec a d then String.prefix p' s else false
       end). 
    destruct p as [|a p]; [done|]. simpl in H. by rewrite H.
Qed.

Lemma length_append (a b : string) :
  String.length (a +:+ b) = (String.length a + String.length b)%nat.
Proof. induction a as [|c a IH]; simpl; [done | by rewrite IH]. Qed.

Lemma substring_all (s : string) : substring 0 (String.length s) s = s.
Proof. induction s as [|c s IH]; simpl; [done | by rewrite IH]. Qed.

Lemma drop_bytes_append (p s : string) : drop_bytes (String.length p) (p +:+ s) = s.
Proof.
  unfold drop_bytes. rewrite length_append.
  replace (String.length p + String.length s - String.length p)%nat
    with (String.length s) by lia.
  induction p as [|c p IH]; simpl; [apply substring_all | exact IH].
Qed.

Lemma TrimPrefix_append (p s : string) : TrimPrefix (p +:+ s) p = s.
Proof. unfold TrimPrefix, HasPrefix. by rewrite prefix_append, drop_bytes_append. Qed.

Lemma substring_none (s : string) : substring 0 0 s = "".
Proof. by destruct s. Qed.

Lemma Replace1_prefix (p s new : string) : Replace1 (p +:+ s) p new = new +:+ s.
Proof.
  unfold Replace1. rewrite (index_of_prefix p (p +:+ s)) by apply prefix_append.
  rewrite substring_none. simpl. by rewrite drop_bytes_append.
Qed.

Lemma ReplaceAll_byte_append (a b : string) (old new : ascii) :
  ReplaceAll_byte (a +:+ b) old new = ReplaceAll_byte a old new +:+ ReplaceAll_byte b old new.
Proof. induction a as [|c a IH]; simpl; [done | by rewrite IH]. Qed.

Lemma formatTagName_append (a b : string) :
  formatTagName (a +:+ b) = formatTagName a +:+ formatTagName b.
Proof. unfold formatTagName. by rewrite !ReplaceAll_byte_append. Qed.

(** The bytes [formatTagName] rewrites. *)
Definition separator (c : ascii) : bool :=
  Ascii.eqb c "." || Ascii.eqb c "-" || Ascii.eqb c "/".

Lemma formatTagName_cons (c : ascii) (s : string) :
  formatTagName (String c s) = String (if separator c then "_"%char else c) (formatTagName s).
Proof.
  unfold formatTagName, separator. simpl.
  destruct (Ascii.eqb c ".") eqn:H1.
  { apply Ascii.eqb_eq in H1. subst c. reflexivity. }
  destruct (Ascii.eqb c "-") eqn:H2.
  { apply Ascii.eqb_eq in H2. subst c. reflexivity. }
  simpl. by destruct (Ascii.eqb c "/").
Qed.

(** X1: [formatTagName] rewrites the bytes [.], [-] and [/] to [_] in place and
    leaves every other byte as it is; a second pass changes nothing. *)
Theorem formatTagName_bytes (tagName : string) :
  String.length (formatTagName tagName) = String.length tagName /\
  (forall n,
     String.get n (formatTagName tagName)
     = (fun c : ascii => if separator c then "_"%char else c) <$> String.get n tagName) /\
  (forall n c, String.get n (formatTagName tagName) = Some c -> separator c = false) /\
  formatTagName (formatTagName tagName) = formatTagName tagName.
Proof.
  induction tagName as [|c s (IHlen & IHget & IHsep & IHidem)].
  - split; [done|]. split; [done|]. split; [by intros [|n] c | done].
  - rewrite formatTagName_cons. split; [simpl; by rewrite IHlen|].
    split; [|split].
    + intros [|n]; simpl; [done | apply IHget].
    + intros [|n] c'; simpl.
      * intros [= <-]. destruct (separator c) eqn:Hc; [reflexivity | done].
      * apply IHsep.
    + rewrite formatTagName_cons, IHidem. f_equal.
      destruct (separator c) eqn:Hc; [reflexivity | by rewrite Hc].
Qed.

(** X2: A label name built with [appendDeepFlowPrefix] or
    [appendPrometheusPrefix] gives the tag name back under
    [removeDeepFlowPrefix] and [removeTagPrefix]; a matcher name that has the
    prefix is rebuilt by putting the prefix back. *)
Theorem tag_prefix_round_trip (env : Env) (tag : string) :
  removeDeepFlowPrefix env (appendDeepFlowPrefix env tag) = tag /\
  removeTagPrefix (appendPrometheusPrefix tag) = tag /\
  (HasPrefix tag (AutoTaggingPrefix env) = true ->
   appendDeepFlowPrefix env (removeDeepFlowPrefix env tag) = tag) /\
  (HasPrefix tag "tag_" = true ->
   appendPrometheusPrefix (removeTagPrefix tag) = tag).
Proof.
  unfold removeDeepFlowPrefix, appendDeepFlowPrefix, removeTagPrefix, appendPrometheusPrefix.
  split; [apply TrimPrefix_append|]. split; [apply (Replace1_prefix "tag_" tag "")|].
  split.
  - intros H. destruct (prefix_cut _ _ H) as [rest ->]. by rewrite TrimPrefix_append.
  - intros H. destruct (prefix_cut _ _ H) as [rest ->].
    by rewrite (Replace1_prefix "tag_" rest "").
Qed.

(** X3: [convertToQuerierAllowedTagName] only turns [_] into [.] inside the
    prefixes [k8s_label_] and [cloud_tag_]: formatting the converted name
    gives the same as formatting the name. *)
Theorem format_after_convert (matcherName : string) :
  formatTagName (convertToQuerierAllowedTagName matcherName) = formatTagName matcherName.
Proof.
  unfold convertToQuerierAllowedTagName, matcherRules, convert_with, HasPrefix.
  destruct (String.prefix "k8s_label_" matcherName) eqn:Hk.
  { destruct (prefix_cut _ _ Hk) as [rest ->].
    rewrite Replace1_prefix, !formatTagName_append. reflexivity. }
  destruct (String.prefix "cloud_tag_" matcherName) eqn:Hc; [|done].
  destruct (prefix_cut _ _ Hc) as [rest ->].
  rewrite Replace1_prefix, !formatTagName_append. reflexivity.
Qed.

(** X4: The label name [formatTagName] makes from a column [k8s.label.<r>] or
    [cloud.tag.<r>] is converted back to the column by
    [convertToQuerierAllowedTagName] when [r] has no [.], [-] or [/]. *)
Theorem convert_undoes_format (r : string) :
  formatTagName r = r ->
  convertToQuerierAllowedTagName (formatTagName ("k8s.label." +:+ r)) = "k8s.label." +:+ r /\
  convertToQuerierAllowedTagName (formatTagName ("cloud.tag." +:+ r)) = "cloud.tag." +:+ r.
Proof.
  intros Hr. rewrite !formatTagName_append, Hr.
  unfold convertToQuerierAllowedTagName, matcherRules, convert_with, HasPrefix.
  change (formatTagName "k8s.label.") with "k8s_label_".
  change (formatTagName "cloud.tag.") with "cloud_tag_".
  rewrite prefix_append. split; [apply Replace1_prefix|].
  replace (String.prefix "k8s_label_" ("cloud_tag_" +:+ r)) with false by reflexivity.
  rewrite prefix_append. apply Replace1_prefix.
Qed.

End TagNameProperties.

(** A label with a dash does not come back: the dash is lost. *)
Example dash_is_lost :
  Service.convertToQuerierAllowedTagName (Service.formatTagName "k8s.label.my-app")
  = "k8s.label.my_app".
Proof. reflexivity. Qed.

Lemma tag_prefix_round_trip_witness :
  GoStrings.HasPrefix "df_pod" (Service.AutoTaggingPrefix querier_env) = true /\
  Service.appendDeepFlowPrefix querier_env (Service.removeDeepFlowPrefix querier_env "df_pod")
  = "df_pod" /\
  GoStrings.HasPrefix "tag_instance" "tag_" = true /\
  Service.appendPrometheusPrefix (Service.removeTagPrefix "tag_instance") = "tag_instance".
Proof.
  split; [reflexivity|]. split.
  - apply (tag_prefix_round_trip querier_env "df_pod"). reflexivity.
  - split; [reflexivity|].
    apply (tag_prefix_round_trip querier_env "tag_instance"). reflexivity.
Defined.

Lemma convert_undoes_format_witness :
  Service.formatTagName "app" = "app" /\
  Service.convertToQuerierAllowedTagName (Service.formatTagName "k8s.label.app")
  = "k8s.label.app".
Proof.
  split; [reflexivity|]. apply (convert_undoes_format "app"). reflexivity.
Defined.

(** ** The metric name of a request *)

Section MetricNameProperties.

Import GoStrings Service.

Lemma Split_fuel_nonempty fuel : forall s sep, Split_fuel fuel s sep <> [].
Proof. destruct fuel; intros s sep; simpl; [done|]. by destruct (String.index 0 sep s). Qed.

Lemma parseMetric_no_err env matchers e : parseMetric env matchers <> Err e.
Proof. unfold parseMetric, index_or_panic. repeat case_match; discriminate. Qed.

(** X5: [parseMetric] reads the first matcher named [__name__].  It panics
    exactly when that name contains [__], its first part is a database of
    [DB_TABLE_MAP] and it has fewer than three parts; it never returns an
    error of its own (the error is a field of the result). *)
Theorem parseMetric_panics_iff (env : Env) (matchers : list LabelMatcher) :
  ((exists e, parseMetric env matchers = Panic e) <->
   exists matcher db rest,
     List.find (fun m => streq (Name m) PROMETHEUS_METRICS_NAME) matchers = Some matcher /\
     contains (Value matcher) "__" = true /\
     Split (Value matcher) "__" = db :: rest /\
     IsValueInSliceString db (DB_TABLE_MAP env) = true /\
     (length rest < 2)%nat) /\
  (forall e, parseMetric env matchers <> Err e).
Proof.
  unfold parseMetric.
  destruct (List.find _ matchers) as [matcher|] eqn:Hfind.
  2:{ split; [|done]. split; [by intros [e ?] | by intros (? & ? & ? & ? & _)]. }
  destruct (contains (Value matcher) "__") eqn:Hc.
  2:{ split; [|done]. split; [by intros [e ?]|].
      intros (m & db & rest & [= <-] & Hc' & _). congruence. }
  destruct (Split (Value matcher) "__") as [|db rest] eqn:Hsplit.
  { by apply Split_fuel_nonempty in Hsplit. }
  unfold index_or_panic. simpl.
  destruct (IsValueInSliceString db (DB_TABLE_MAP env)) eqn:Hdb.
  2:{ split; [|done]. split; [by intros [e ?]|].
      intros (m & db' & rest' & [= <-] & _ & Hs & Hdb' & _).
      rewrite Hsplit in Hs. congruence. }
  destruct rest as [|table [|metricName rest]]; simpl.
  - split; [|done]. split; [|eauto].
    intros _. exists matcher, db, []. simpl. repeat split; auto; lia.
  - split; [|done]. split; [|eauto].
    intros _. exists matcher, db, [table]. simpl. repeat split; auto; lia.
  - split.
    + split.
      * intros [e He]. repeat case_match; discriminate.
      * intros (m & db' & rest' & [= <-] & _ & Hs & _ & Hlen).
        rewrite Hsplit in Hs. injection Hs as <- <-. simpl in Hlen. lia.
    + intros e. repeat case_match; discriminate.
Qed.

End MetricNameProperties.

(** A name with a known database and no metric part. *)
Example flow_log_without_metric :
  Service.parseMetric querier_env
    [Service.mkMatcher Service.LabelMatcher_EQ "__name__" "flow_log__l4_flow_log"]
  = Panic "index out of range".
Proof. reflexivity. Qed.

(** ** The tag descriptions *)

Section ShowTagsProperties.

Import GoStrings Service.

(** The database and table whose tags [showTags] asks for. *)
Definition show_tags_target (db table : string) : string * string :=
  if streq db "" || streq db DB_NAME_PROMETHEUS then (DB_NAME_PROMETHEUS, PROMETHEUS_TABLE)
  else if streq db DB_NAME_EXT_METRICS then (DB_NAME_EXT_METRICS, EXT_METRICS_TABLE)
  else (db, table).

Definition show_tags_statement (d t : string) (startTime endTime : Z) : string :=
  "SHOW tags FROM " +:+ d +:+ "." +:+ t +:+ " WHERE time >= " +:+ itoa startTime
    +:+ " AND time <= " +:+ itoa endTime.

Lemma flat_map_length_le {A B} (f : A -> list B) (k : nat) (l : list A) :
  (forall x, (length (f x) <= k)%nat) -> (length (flat_map f l) <= k * length l)%nat.
Proof.
  intros Hf. induction l as [|x l IH]; simpl; [lia|].
  rewrite length_app. specialize (Hf x). lia.
Qed.

Lemma flat_map_if {A B} (p : A -> bool) (g : A -> B) (l : list A) :
  flat_map (fun x => if p x then [g x] else []) l = map g (List.filter p l).
Proof.
  induction l as [|x l IH]; simpl; [done|]. destruct (p x); simpl; by rewrite IH.
Qed.

Lemma showTags_events env db table startTime endTime :
  snd (showTags env db table startTime endTime)
  = [EvGetTagDescriptions (fst (show_tags_target db table)) (snd (show_tags_target db table))
       (show_tags_statement (fst (show_tags_target db table))
          (snd (show_tags_target db table)) startTime endTime)].
Proof.
  unfold showTags, show_tags_target, show_tags_statement.
  destruct (streq db "" || streq db DB_NAME_PROMETHEUS);
    [|destruct (streq db DB_NAME_EXT_METRICS)];
    cbn [fst snd]; by destruct (GetTagDescriptions env _ _ _).
Qed.

(** The rows [showTags] keeps. *)
Definition shown (row : TagRow) : bool :=
  negb (IsValueInSliceString (tag_name row) ignorableTagNames)
  && negb (streq (tag_type row) IGNORABLE_TAG_TYPE).

(** X6: [showTags] asks for tag descriptions once and does nothing else: of
    [prometheus.samples] when the db is empty or [prometheus], of
    [ext_metrics.metrics] when it is [ext_metrics], and of the given table
    otherwise.  The tags it returns fit the capacity it allocated: two per
    row for an edge table, one per row otherwise.  For a table that is not
    an edge table they are the names, in backquotes and in order, of the
    rows that are neither [pod_ingress], [lb_listener] or [time] nor of type
    [map]; for every table each such row gives its name, or its client and
    server names. *)
Theorem showTags_result (env : Env) (db table : string) (startTime endTime : Z)
    (tagsArray : list string) (evs : list Event) :
  showTags env db table startTime endTime = (Ok tagsArray, evs) ->
  exists rows,
    evs = [EvGetTagDescriptions (fst (show_tags_target db table))
             (snd (show_tags_target db table))
             (show_tags_statement (fst (show_tags_target db table))
                (snd (show_tags_target db table)) startTime endTime)] /\
    GetTagDescriptions env (fst (show_tags_target db table)) (snd (show_tags_target db table))
      (show_tags_statement (fst (show_tags_target db table))
         (snd (show_tags_target db table)) startTime endTime) = Ok rows /\
    (length tagsArray
     <= (if IsValueInSliceString table edgeTableNames then 2 else 1) * length rows)%nat /\
    (IsValueInSliceString table edgeTableNames = false ->
     tagsArray = map (fun row => backquoted (tag_name row)) (List.filter shown rows)) /\
    (forall row, row ∈ rows -> shown row = true ->
       backquoted (tag_name row) ∈ tagsArray \/
       (backquoted (tag_client_name row) ∈ tagsArray /\
        backquoted (tag_server_name row) ∈ tagsArray)).
Proof.
  intros Hrun.
  pose proof (showTags_events env db table startTime endTime) as Hevs.
  rewrite Hrun in Hevs. cbn [snd] in Hevs. revert Hrun. rewrite Hevs. clear Hevs evs.
  unfold showTags, show_tags_target, show_tags_statement.
  remember (IsValueInSliceString table edgeTableNames) as edge eqn:Hedge. clear Hedge.
  set (target := if streq db "" || streq db DB_NAME_PROMETHEUS
                 then (DB_NAME_PROMETHEUS, PROMETHEUS_TABLE)
                 else if streq db DB_NAME_EXT_METRICS
                      then (DB_NAME_EXT_METRICS, EXT_METRICS_TABLE) else (db, table)).
  destruct target as [d t]. cbn [fst snd].
  destruct (GetTagDescriptions env d t _) as [rows|e|e]; [|discriminate..].
  intros [= <-]. exists rows. split; [done|]. split; [done|].
  split; [|split].
  - apply flat_map_length_le. intros row.
    destruct edge; simpl; repeat case_match; simpl; lia.
  - intros ->. rewrite <- flat_map_if. apply flat_map_ext. intros row. unfold shown.
    change (streq (tag_name row) "pod_ingress"
            || (streq (tag_name row) "lb_listener" || (streq (tag_name row) "time" || false)))
      with (IsValueInSliceString (tag_name row) ignorableTagNames).
    destruct (IsValueInSliceString (tag_name row) ignorableTagNames); [done|].
    by destruct (streq (tag_type row) IGNORABLE_TAG_TYPE).
  - intros row Hin Hshown. unfold shown in Hshown.
    apply andb_true_iff in Hshown as [Hn Ht].
    apply negb_true_iff in Hn, Ht.
    assert (Hone : forall x,
              x ∈ (if edge && negb (streq (tag_name row) (tag_client_name row))
                   then [backquoted (tag_client_name row); backquoted (tag_server_name row)]
                   else [backquoted (tag_name row)]) ->
              x ∈ flat_map
                    (fun row : TagRow =>
                       if IsValueInSliceString (tag_name row) ignorableTagNames then []
                       else if streq (tag_type row) IGNORABLE_TAG_TYPE then []
                       else if edge && negb (streq (tag_name row) (tag_client_name row))
                       then [backquoted (tag_client_name row);
                             backquoted (tag_server_name row)]
                       else [backquoted (tag_name row)]) rows).
    { intros x Hx. apply list_elem_of_In, in_flat_map. exists row.
      split; [by apply list_elem_of_In|]. rewrite Hn, Ht. by apply list_elem_of_In. }
    destruct (edge && negb (streq (tag_name row) (tag_client_name row))).
    + right. split; apply Hone; set_solver.
    + left. apply Hone. set_solver.
Qed.

(** X7: The translator asks for tag descriptions at most once, after the rate
    limiter, and exactly when the context carries the show-tag flag and the
    metric name was parsed without error; the statement it sends covers the
    time range of the request, in seconds. *)
Theorem tag_descriptions_asked_once (env : Env) (ctx : Ctx) (req : ReadRequest) :
  let asked :=
    exists q rest h m,
      Acquire env 1000 = true /\ Queries req = q :: rest /\ Hints q = Some h /\
      parseMetric env (Matchers q) = Ok m /\ m_err m = None /\
      ctxShowTag ctx = Some true /\
      let target := show_tags_target (m_db m) (m_table m) in
      snd (promReaderTransToSQL env ctx req)
      = [EvAcquire 1000;
         EvGetTagDescriptions (fst target) (snd target)
           (show_tags_statement (fst target) (snd target)
              (Z.quot (StartMs h) 1000)
              (if Z.rem (EndTimestampMs q) 1000 >? 0
               then Z.quot (EndMs h) 1000 + 1 else Z.quot (EndMs h) 1000))] in
  asked \/
  (snd (promReaderTransToSQL env ctx req) = [EvAcquire 1000] /\
   (Acquire env 1000 = false \/ Queries req = [] \/
    (exists q rest, Queries req = q :: rest /\
       (Hints q = None \/ (forall m, parseMetric env (Matchers q) <> Ok m) \/
        (exists m e, parseMetric env (Matchers q) = Ok m /\ m_err m = Some e) \/
        ctxShowTag ctx <> Some true)))).
Proof.
  cbn zeta. unfold promReaderTransToSQL, failed.
  destruct (Acquire env 1000) eqn:Hacq; simpl negb; cbv iota; [|right; auto].
  destruct (Queries req) as [|q rest] eqn:Hq; [right; auto|].
  destruct (Hints q) as [h|] eqn:Hh.
  2:{ right. split; [done|]. right. right. exists q, rest. auto. }
  destruct (parseMetric env (Matchers q)) as [m|e|e] eqn:Hm.
  2,3: right; split; [done|]; right; right; exists q, rest; split; [done|];
       right; left; intros m; congruence.
  destruct (m_err m) as [e|] eqn:He.
  { right. split; [done|]. right. right. exists q, rest. split; [done|].
    right. right. left. eauto. }
  cbn [ctxShowTag].
  destruct (ctxShowTag ctx) as [[|]|] eqn:Hst.
  - left. exists q, rest, h, m. repeat (split; [done|]).
    pose proof (showTags_events env (m_db m) (m_table m) (Z.quot (StartMs h) 1000)
                  (if Z.rem (EndTimestampMs q) 1000 >? 0
                   then Z.quot (EndMs h) 1000 + 1 else Z.quot (EndMs h) 1000)) as Hev.
    destruct (showTags env (m_db m) (m_table m) _ _) as [[tags|e|e] evs0];
      simpl in Hev; subst evs0; [|done..].
    by destruct (filter_matchers _ _ _ _ _) as [e|[filters metrics]].
  - right. split.
    + repeat case_match; reflexivity.
    + right. right. exists q, rest. split; [done|]. right. right. right. discriminate.
  - right. split.
    + repeat case_match; reflexivity.
    + right. right. exists q, rest. split; [done|]. right. right. right. discriminate.
Qed.

End ShowTagsProperties.

(** An engine that describes four tags: one with two sides, the time, a
    map and an enum. *)
Definition tags_env : Service.Env :=
  Service.mkEnv (fun _ => true)
    (fun _ _ _ => Ok [Service.mkTagRow "pod" "pod_0" "pod_1" "resource";
                      Service.mkTagRow "time" "time" "time" "time";
                      Service.mkTagRow "k8s.label" "k8s.label_0" "k8s.label_1" "map";
                      Service.mkTagRow "protocol" "protocol" "protocol" "int_enum"])
    ["flow_log"] "10000" "df_" false 100 (fun v => v) GoStrings.itoa (fun _ => []).

(** An edge table: both sides of a tag that has sides. *)
Example edge_table_tags :
  Service.showTags tags_env "flow_log" "l7_flow_log" 100 200
  = (Ok ["`pod_0`"; "`pod_1`"; "`protocol`"],
     [Service.EvGetTagDescriptions "flow_log" "l7_flow_log"
        "SHOW tags FROM flow_log.l7_flow_log WHERE time >= 100 AND time <= 200"]).
Proof. reflexivity. Qed.

(** A table without sides: the names. *)
Example plain_table_tags :
  Service.showTags tags_env "flow_metrics" "vtap_flow_port" 100 200
  = (Ok ["`pod`"; "`protocol`"],
     [Service.EvGetTagDescriptions "flow_metrics" "vtap_flow_port"
        "SHOW tags FROM flow_metrics.vtap_flow_port WHERE time >= 100 AND time <= 200"]).
Proof. reflexivity. Qed.

Lemma showTags_result_witness :
  exists rows,
    [Service.EvGetTagDescriptions "flow_metrics" "vtap_flow_port"
       "SHOW tags FROM flow_metrics.vtap_flow_port WHERE time >= 100 AND time <= 200"]
    = [Service.EvGetTagDescriptions
         (fst (show_tags_target "flow_metrics" "vtap_flow_port"))
         (snd (show_tags_target "flow_metrics" "vtap_flow_port"))
         (show_tags_statement (fst (show_tags_target "flow_metrics" "vtap_flow_port"))
            (snd (show_tags_target "flow_metrics" "vtap_flow_port")) 100 200)] /\
    Service.GetTagDescriptions tags_env
      (fst (show_tags_target "flow_metrics" "vtap_flow_port"))
      (snd (show_tags_target "flow_metrics" "vtap_flow_port"))
      (show_tags_statement (fst (show_tags_target "flow_metrics" "vtap_flow_port"))
         (snd (show_tags_target "flow_metrics" "vtap_flow_port")) 100 200) = Ok rows /\
    (length ["`pod`"; "`protocol`"]
     <= (if GoStrings.IsValueInSliceString "vtap_flow_port" Service.edgeTableNames
         then 2 else 1) * length rows)%nat /\
    (GoStrings.IsValueInSliceString "vtap_flow_port" Service.edgeTableNames = false ->
     ["`pod`"; "`protocol`"]
     = map (fun row => Service.backquoted (Service.tag_name row)) (List.filter shown rows)) /\
    (forall row, row ∈ rows -> shown row = true ->
       Service.backquoted (Service.tag_name row) ∈ ["`pod`"; "`protocol`"] \/
       (Service.backquoted (Service.tag_client_name row) ∈ ["`pod`"; "`protocol`"] /\
        Service.backquoted (Service.tag_server_name row) ∈ ["`pod`"; "`protocol`"])).
Proof.
  exact (showTags_result tags_env "flow_metrics" "vtap_flow_port" 100 200 _ _
           plain_table_tags).
Defined.

(** ** What the translator reads of a request *)

Section TranslatorInputs.

Import GoStrings Service.

(** X8: Of a request the translator reads the first query only; of that query
    the matchers, whether [EndTimestampMs] is a whole number of seconds, and
    the seconds of the hints' [StartMs] and [EndMs].  Unless the metric
    belongs to a native db and the context has no show-tag flag, the
    hints' [Func], [Grouping], [By] and [StepMs] are not read: two requests
    that agree on the former are translated alike. *)
Theorem hints_read_for_native_db_only (env : Env) (ctx : Ctx) (q q' : Query)
    (rest rest' : list Query) (h h' : ReadHints) :
  Hints q = Some h -> Hints q' = Some h' ->
  Matchers q' = Matchers q ->
  (Z.rem (EndTimestampMs q') 1000 >? 0) = (Z.rem (EndTimestampMs q) 1000 >? 0) ->
  Z.quot (StartMs h') 1000 = Z.quot (StartMs h) 1000 ->
  Z.quot (EndMs h') 1000 = Z.quot (EndMs h) 1000 ->
  (forall m, parseMetric env (Matchers q) = Ok m -> m_err m = None ->
     show_tag ctx = true \/ native_db (m_db m) = false) ->
  promReaderTransToSQL env ctx (mkReadRequest (q :: rest))
  = promReaderTransToSQL env ctx (mkReadRequest (q' :: rest')).
Proof.
  intros Hh Hh' Hm Hrem Hstart Hend Hnat.
  unfold promReaderTransToSQL. cbn [Queries]. rewrite Hh, Hh', Hm, Hrem, Hstart, Hend.
  destruct (Acquire env 1000); [|done]. cbn [negb].
  destruct (parseMetric env (Matchers q)) as [m|e|e] eqn:Hp; [|done..].
  destruct (m_err m) as [e|] eqn:He; [done|].
  specialize (Hnat m eq_refl He). unfold show_tag in Hnat. cbn [ctxShowTag].
  destruct (match ctxShowTag ctx with Some st => st | None => false end); [done|].
  destruct Hnat as [|Hnat]; [done|]. by rewrite Hnat.
Qed.

End TranslatorInputs.

(** A range query on a native Prometheus metric: step, function and
    grouping of the hints leave the statement as it is. *)
Definition up_query (h : Service.ReadHints) : Service.Query :=
  Service.mkQuery 1700000000000 1700000060000
    [Service.mkMatcher Service.LabelMatcher_EQ "__name__" "up"] (Some h).

Lemma hints_read_for_native_db_only_witness :
  Service.promReaderTransToSQL querier_env plain_ctx
    (Service.mkReadRequest
       [up_query (Service.mkHints 0 "" 1700000000000 1700000060000 [] false)])
  = Service.promReaderTransToSQL querier_env plain_ctx
      (Service.mkReadRequest
         [up_query (Service.mkHints 15000 "sum" 1700000000999 1700000060000 ["pod"] true);
          up_query (Service.mkHints 0 "" 0 0 [] false)]).
Proof.
  apply (hints_read_for_native_db_only querier_env plain_ctx _ _ [] _
           (Service.mkHints 0 "" 1700000000000 1700000060000 [] false)
           (Service.mkHints 15000 "sum" 1700000000999 1700000060000 ["pod"] true));
    try reflexivity.
  intros m Hm _. right. vm_compute in Hm. injection Hm as <-. reflexivity.
Defined.

(** ** A native Prometheus metric *)

Section NativePrometheusMetric.

Import GoStrings Service.

Lemma append_String (c : ascii) (a b : string) : String c a +:+ b = String c (a +:+ b).
Proof. reflexivity. Qed.

Lemma append_nil_l (b : string) : "" +:+ b = b.
Proof. reflexivity. Qed.

Lemma parseMetric_native env t name :
  contains name "__" = false ->
  parseMetric env [mkMatcher t PROMETHEUS_METRICS_NAME name]
  = Ok (mkMetric prefixDeepFlow name "" name "" "value as `metrics.%s`" None).
Proof. intros Hname. unfold parseMetric. simpl. by rewrite Hname. Qed.

(** X9: A request whose only matcher names a metric without [__] (a native
    Prometheus metric), outside a show-tag context: the statement reads
    [value] and [tag] from the table of that name over the time range of the
    hints, the db is empty, and the context records the [df_] prefix type.
    The type of the [__name__] matcher is not read. *)
Theorem native_prometheus_statement (env : Env) (ctx : Ctx) (q : Query)
    (rest : list Query) (h : ReadHints) (t : LabelMatcher_Type) (name : string) :
  Acquire env 1000 = true ->
  show_tag ctx = false ->
  Hints q = Some h ->
  Matchers q = [mkMatcher t PROMETHEUS_METRICS_NAME name] ->
  contains name "__" = false ->
  promReaderTransToSQL env ctx (mkReadRequest (q :: rest))
  = (Returned (mkCtx (ctxShowTag ctx) (Some prefixDeepFlow))
       ("SELECT toUnixTimestamp(time) AS timestamp,value as `metrics." +:+ name
          +:+ "`,`tag` FROM " +:+ name +:+ " WHERE (time >= "
          +:+ itoa (Z.quot (StartMs h) 1000) +:+ " AND time <= "
          +:+ itoa (if Z.rem (EndTimestampMs q) 1000 >? 0
                    then Z.quot (EndMs h) 1000 + 1 else Z.quot (EndMs h) 1000)
          +:+ ") ORDER BY timestamp desc LIMIT " +:+ Limit env)
       "" "" None,
     [EvAcquire 1000]).
Proof.
  intros Hacq Hst Hh Hm Hname.
  unfold promReaderTransToSQL. cbn [Queries]. rewrite Hacq, Hh, Hm. cbn [negb].
  rewrite (parseMetric_native env t name Hname).
  cbn [m_err m_prefixType m_db m_table m_metricName m_metricAlias m_dataPrecision ctxShowTag].
  unfold show_tag in Hst. rewrite Hst.
  change (native_db "") with false. cbv iota.
  cbn [metricsArray groupBy metricWithAggFunc].
  unfold append_metric. change (streq "" "") with true. cbn [orb]. cbv iota.
  cbn [filter_matchers Name].
  change (streq PROMETHEUS_METRICS_NAME PROMETHEUS_METRICS_NAME) with true. cbv iota.
  f_equal. f_equal.
  unfold parseToQuerierSQL. change (negb (streq "" "")) with false. cbv iota.
  generalize (itoa (Z.quot (StartMs h) 1000)) as a.
  generalize (itoa (if Z.rem (EndTimestampMs q) 1000 >? 0
                    then Z.quot (EndMs h) 1000 + 1 else Z.quot (EndMs h) 1000)) as b.
  generalize (Limit env) as limit. intros limit b a.
  unfold Join, EXT_METRICS_TIME_COLUMNS, EXT_METRICS_NATIVE_TAG_NAME, backquoted. simpl.
  repeat (rewrite ?append_assoc, ?append_String, ?append_nil_l). reflexivity.
Qed.

End NativePrometheusMetric.

Lemma native_prometheus_statement_witness :
  Service.promReaderTransToSQL querier_env plain_ctx
    (Service.mkReadRequest
       [up_query (Service.mkHints 0 "" 1700000000000 1700000000000 [] false)])
  = (Service.Returned (Service.mkCtx (Service.ctxShowTag plain_ctx)
                         (Some Service.prefixDeepFlow))
       ("SELECT toUnixTimestamp(time) AS timestamp,value as `metrics." +:+ "up"
          +:+ "`,`tag` FROM " +:+ "up" +:+ " WHERE (time >= "
          +:+ GoStrings.itoa
                (Z.quot (Service.StartMs
                           (Service.mkHints 0 "" 1700000000000 1700000000000 [] false)) 1000)
          +:+ " AND time <= "
          +:+ GoStrings.itoa
                (if Z.rem (Service.EndTimestampMs
                             (up_query (Service.mkHints 0 "" 1700000000000 1700000000000
                                          [] false))) 1000 >? 0
                 then Z.quot (Service.EndMs
                                (Service.mkHints 0 "" 1700000000000 1700000000000 [] false))
                        1000 + 1
                 else Z.quot (Service.EndMs
                                (Service.mkHints 0 "" 1700000000000 1700000000000 [] false))
                        1000)
          +:+ ") ORDER BY timestamp desc LIMIT " +:+ Service.Limit querier_env)
       "" "" None,
     [Service.EvAcquire 1000]).
Proof.
  apply (native_prometheus_statement querier_env plain_ctx
           (up_query (Service.mkHints 0 "" 1700000000000 1700000000000 [] false)) []
           (Service.mkHints 0 "" 1700000000000 1700000000000 [] false)
           Service.LabelMatcher_EQ "up"); reflexivity.
Defined.

(** ** When the translator panics *)

Section TranslatorPanics.

Import GoStrings Service.

(** X10: The translator panics exactly when, the rate limiter having let the
    request in, the first query has no hints (the pointer is nil), or its
    metric name makes [parseMetric] panic, or, in a show-tag context, the
    tag descriptions panic. *)
Theorem translator_panics_iff (env : Env) (ctx : Ctx) (req : ReadRequest) :
  (exists e, fst (promReaderTransToSQL env ctx req) = Panicked e) <->
  Acquire env 1000 = true /\
  exists q rest,
    Queries req = q :: rest /\
    (Hints q = None \/
     (exists h e, Hints q = Some h /\ parseMetric env (Matchers q) = Panic e) \/
     (exists h m e,
        Hints q = Some h /\ parseMetric env (Matchers q) = Ok m /\ m_err m = None /\
        show_tag ctx = true /\
        fst (showTags env (m_db m) (m_table m) (Z.quot (StartMs h) 1000)
               (if Z.rem (EndTimestampMs q) 1000 >? 0
                then Z.quot (EndMs h) 1000 + 1 else Z.quot (EndMs h) 1000))
        = Panic e)).
Proof.
  unfold promReaderTransToSQL, failed, show_tag.
  destruct (Acquire env 1000) eqn:Hacq; cbn [negb].
  2:{ split; [by intros [e ?] | by intros [? _]]. }
  destruct (Queries req) as [|q rest] eqn:Hq.
  { split; [by intros [e ?] | by intros (_ & ? & ? & ? & _)]. }
  destruct (Hints q) as [h|] eqn:Hh.
  2:{ split; [|eauto]. intros _. split; [done|]. exists q, rest. auto. }
  destruct (parseMetric env (Matchers q)) as [m|e|e] eqn:Hm;
    [| by apply parseMetric_no_err in Hm |].
  2:{ split; [|eauto]. intros _. split; [done|]. exists q, rest.
      split; [done|]. right. left. exists h, e. by rewrite Hh, Hm. }
  destruct (m_err m) as [e|] eqn:He.
  { split; [by intros [? ?]|].
    intros (_ & q' & rest' & [= <- <-] & [Hn | [(h' & e' & _ & Hp) | (h' & m' & e' & _ & Hp & He' & _)]]);
      try congruence. }
  cbn [ctxShowTag].
  destruct (match ctxShowTag ctx with Some st => st | None => false end) eqn:Hst.
  - destruct (showTags env (m_db m) (m_table m) _ _) as [[tags|e|e] evs0] eqn:Htags.
    + split.
      * intros [e He']. revert He'. by destruct (filter_matchers _ _ _ _ _) as [?|[? ?]].
      * intros (_ & q' & rest' & [= <- <-] & [Hn | [(h' & e' & _ & Hp) | (h' & m' & e' & Hh' & Hp & _ & _ & Hs)]]);
          try congruence.
        rewrite Hh in Hh'. injection Hh' as <-. rewrite Hm in Hp. injection Hp as <-.
        rewrite Htags in Hs. discriminate.
    + split; [by intros [? ?]|].
      intros (_ & q' & rest' & [= <- <-] & [Hn | [(h' & e' & _ & Hp) | (h' & m' & e' & Hh' & Hp & _ & _ & Hs)]]);
        try congruence.
      rewrite Hh in Hh'. injection Hh' as <-. rewrite Hm in Hp. injection Hp as <-.
      rewrite Htags in Hs. discriminate.
    + split; [|eauto]. intros _. split; [done|]. exists q, rest. split; [done|].
      right. right. exists h, m, e. rewrite Hh, Hm, Htags. auto.
  - split.
    + intros [e He']. revert He'. repeat case_match; discriminate.
    + intros (_ & q' & rest' & [= <- <-] & [Hn | [(h' & e' & _ & Hp) | (h' & m' & e' & _ & _ & _ & Hs & _)]]);
        congruence.
Qed.

End TranslatorPanics.

(** A query without hints. *)
Example query_without_hints :
  fst (Service.promReaderTransToSQL querier_env plain_ctx
         (Service.mkReadRequest
            [Service.mkQuery 0 0
               [Service.mkMatcher Service.LabelMatcher_EQ "__name__" "up"] None]))
  = Service.Panicked "nil pointer dereference".
Proof. reflexivity. Qed.

(** ** The response builder: columns, errors, labels and samples *)

Section ResponseColumns.

Import GoStrings Service.

Lemma metrics_column_kind (c : string) :
  HasPrefix c "metrics." = true ->
  streq c EXT_METRICS_NATIVE_TAG_NAME = false /\ HasPrefix c "tag." = false.
Proof.
  unfold HasPrefix. destruct c as [|a c]; [discriminate|].
  change (String.prefix "metrics." (String a c))
    with (if ascii_dec "m"%char a then String.prefix "etrics." c else false).
  destruct (ascii_dec "m"%char a) as [<-|]; [|discriminate]. done.
Qed.

(** The metrics column and the time column the scan of the columns finds:
    the last column with the prefix [metrics.], the last column named
    [timestamp]. *)
Lemma scan_columns_metrics (columns : list string) : forall i ci0,
  let ci := scan_columns i columns ci0 in
  (Forall (fun c => HasPrefix c "metrics." = false) columns /\
   metricsIndex ci = metricsIndex ci0 /\ metricsName ci = metricsName ci0) \/
  (exists (j : nat) c,
     columns !! j = Some c /\ HasPrefix c "metrics." = true /\
     metricsIndex ci = i + Z.of_nat j /\ metricsName ci = TrimPrefix c "metrics." /\
     forall (j' : nat) c', (j < j')%nat -> columns !! j' = Some c' ->
       HasPrefix c' "metrics." = false).
Proof.
  induction columns as [|c rest IH]; intros i ci0; cbn zeta.
  - left. split; [constructor | done].
  - cbn [scan_columns].
    match goal with |- context [scan_columns (i + 1) rest ?c1] => set (ci1 := c1) end.
    destruct (IH (i + 1) ci1) as [(Hall & Hidx & Hname) | (j & c' & Hj & Hc' & Hidx & Hname & Hlast)].
    + destruct (HasPrefix c "metrics.") eqn:Hc.
      * right. exists O, c. destruct (metrics_column_kind c Hc) as [Ht Htp].
        rewrite Hidx, Hname. subst ci1. rewrite Ht, Htp. cbn.
        split; [done|]. split; [done|]. split; [lia|]. split; [done|].
        intros [|j'] c' Hlt; [lia|]. cbn. intros Hj'.
        rewrite Forall_forall in Hall. apply Hall. apply list_elem_of_lookup. eauto.
      * left. split; [by constructor|]. rewrite Hidx, Hname. subst ci1.
        by repeat case_match.
    + right. exists (S j), c'. split; [done|]. split; [done|]. split; [lia|].
      split; [done|]. intros [|j'] c'' Hlt; [lia|]. cbn. apply Hlast. lia.
Qed.

Lemma scan_columns_time (columns : list string) : forall i ci0,
  let ci := scan_columns i columns ci0 in
  ((EXT_METRICS_TIME_COLUMNS ∉ columns) /\ timeIndex ci = timeIndex ci0) \/
  (exists j : nat,
     columns !! j = Some EXT_METRICS_TIME_COLUMNS /\ timeIndex ci = i + Z.of_nat j).
Proof.
  induction columns as [|c rest IH]; intros i ci0; cbn zeta.
  - left. split; [apply not_elem_of_nil | done].
  - cbn [scan_columns].
    match goal with |- context [scan_columns (i + 1) rest ?c1] => set (ci1 := c1) end.
    destruct (IH (i + 1) ci1) as [(Hall & Hidx) | (j & Hj & Hidx)].
    + destruct (streq c EXT_METRICS_TIME_COLUMNS) eqn:Hc.
      * apply String.eqb_eq in Hc. subst c. right. exists O.
        split; [done|]. rewrite Hidx. subst ci1. cbn. lia.
      * apply String.eqb_neq in Hc. left. split.
        -- intros [Heq|Hin]%elem_of_cons; [congruence | by apply Hall].
        -- rewrite Hidx. subst ci1. by repeat case_match.
    + right. exists (S j). split; [done|]. lia.
Qed.

(** *** The errors of the response builder *)

Lemma cell_at_no_err values idx e : cell_at values idx <> Err e.
Proof. unfold cell_at. by repeat case_match. Qed.

Lemma getValue_no_err env c e : getValue env c <> Err e.
Proof. by destruct c. Qed.

Lemma prom_tag_json_no_err ci values e : prom_tag_json ci values <> Err e.
Proof.
  unfold prom_tag_json. destruct (tagIndex ci >? -1); [|done].
  destruct (cell_at values (tagIndex ci)) as [[]|e'|e'] eqn:Hc; simpl; try done.
  by apply cell_at_no_err in Hc.
Qed.

Lemma tags_str_list_no_err env values natives : forall e,
  tags_str_list env natives values <> Err e.
Proof.
  induction natives as [|idx rest IH]; intros e; simpl; [done|].
  destruct (cell_at values idx) as [c|e'|e'] eqn:Hc; [| by apply cell_at_no_err in Hc | done].
  destruct (getValue env c) as [v|e'|e'] eqn:Hv; [| by apply getValue_no_err in Hv | done].
  destruct (tags_str_list env rest values) as [l|e'|e'] eqn:Hl;
    [done | by destruct (IH e') | done].
Qed.

Lemma series_key_no_err env ci natives values e :
  series_key env ci natives values <> Err e.
Proof.
  unfold series_key.
  destruct (prom_tag_json ci values) as [json|e'|e'] eqn:Hj;
    [| by apply prom_tag_json_no_err in Hj | done].
  destruct (0 <? length natives)%nat; [|done].
  destruct (tags_str_list env natives values) as [l|e'|e'] eqn:Hl;
    [done | by apply tags_str_list_no_err in Hl | done].
Qed.

Lemma native_labels_no_err env pfx ci columns values natives : forall e,
  native_labels env pfx ci columns natives values <> Err e.
Proof.
  induction natives as [|idx rest IH]; intros e; simpl; [done|].
  destruct (cell_at values idx) as [c|e'|e'] eqn:Hc; [| by apply cell_at_no_err in Hc | done].
  destruct (isZero c); [apply IH|].
  destruct (columns !! Z.to_nat idx);
    destruct (getValue env c) as [v|e'|e'] eqn:Hv; try done;
    try (by apply getValue_no_err in Hv).
  destruct (native_labels env pfx ci columns rest values) as [l|e'|e'] eqn:Hl;
    [done | by destruct (IH e') | done].
Qed.

Lemma series_labels_ok env pfx ci columns natives values json pairs :
  series_labels env pfx ci columns natives values json = Ok pairs ->
  exists front, pairs = front ++ [mkLabel PROMETHEUS_METRICS_NAME (metricsName ci)].
Proof.
  unfold series_labels.
  destruct (native_labels env pfx ci columns natives values) as [l| |]; [|discriminate..].
  intros [= <-]. eexists. by rewrite app_assoc.
Qed.

Lemma series_labels_no_err env pfx ci columns natives values json e :
  series_labels env pfx ci columns natives values json <> Err e.
Proof.
  unfold series_labels.
  destruct (native_labels env pfx ci columns natives values) as [l|e'|e'] eqn:Hl;
    [done | by apply native_labels_no_err in Hl | done].
Qed.

Lemma slice_update_no_err arr i f e : slice_update arr i f <> Err e.
Proof. unfold slice_update. by repeat case_match. Qed.

Lemma assign_row_no_err env pfx ci columns natives i values st e :
  assign_row env pfx ci columns natives i values st <> Err e.
Proof.
  unfold assign_row.
  destruct (prom_tag_json ci values) as [json|e1|e1] eqn:Hj;
    [| by apply prom_tag_json_no_err in Hj |];
    (destruct (series_key env ci natives values) as [key|e2|e2] eqn:Hk;
      [| by apply series_key_no_err in Hk | done]); [|done].
  intros Hrun.
  repeat match type of Hrun with
  | context [slice_update ?a ?j ?f] =>
      let E := fresh "E" in
      destruct (slice_update a j f) eqn:E; [| by apply slice_update_no_err in E |]
  | context [series_labels ?a ?b ?c ?d ?f ?g ?h] =>
      let E := fresh "E" in
      destruct (series_labels a b c d f g h) eqn:E; [| by apply series_labels_no_err in E |]
  | context [seriesIndexMap st !! key] => destruct (seriesIndexMap st !! key)
  | context [?a >=? ?b] => destruct (a >=? b)
  end; discriminate.
Qed.

Lemma assign_rows_no_err env pfx ci columns natives rows : forall i st e,
  assign_rows env pfx ci columns natives i rows st <> Err e.
Proof.
  induction rows as [|values rows IH]; intros i st e; simpl; [done|].
  destruct (assign_row env pfx ci columns natives i values st) as [st1|e'|e'] eqn:Hrow;
    [apply IH | by apply assign_row_no_err in Hrow | done].
Qed.

Lemma first_pass_no_err env ctx result e : first_pass env ctx result <> Err e.
Proof. unfold first_pass. case_match; [done | apply assign_rows_no_err]. Qed.

Lemma row_sample_err env ci metricsType values e :
  row_sample env ci metricsType values = Err e ->
  e = "Unknown metrics type " +:+ metricsType /\
  streq metricsType "Int" = false /\ streq metricsType "Float64" = false.
Proof.
  unfold row_sample.
  destruct (cell_at values (metricsIndex ci)) as [cell|e'|e'] eqn:Hc;
    [| by apply cell_at_no_err in Hc | done].
  destruct (cell_at values (timeIndex ci)) as [[]|e'|e'] eqn:Ht;
    try (by apply cell_at_no_err in Ht);
    destruct (streq metricsType "Int"), (streq metricsType "Float64");
    destruct cell; try done; by intros [= <-].
Qed.

Lemma fill_samples_err env ci metricsType rev_rows : forall series e,
  fill_samples env ci metricsType rev_rows series = Err e ->
  e = "Unknown metrics type " +:+ metricsType /\
  streq metricsType "Int" = false /\ streq metricsType "Float64" = false.
Proof.
  induction rev_rows as [|[idx values] rest IH]; intros series e; simpl; [done|].
  destruct (idx =? -1); [apply IH|].
  destruct (row_sample env ci metricsType values) as [[s|]| |] eqn:Hrow.
  - unfold append_sample. repeat case_match; try done. apply IH.
  - apply IH.
  - intros [= <-]. by apply row_sample_err in Hrow.
  - done.
Qed.

(** Past the first pass every row that has a series and a metric value
    added its sample. *)
Lemma fill_samples_complete env ci metricsType rev_rows : forall series series',
  fill_samples env ci metricsType rev_rows series = Ok series' ->
  forall idx values, (idx, values) ∈ rev_rows -> idx <> -1 ->
    row_sample env ci metricsType values = Ok None \/
    exists s, row_sample env ci metricsType values = Ok (Some s) /\
              0 <= idx < Z.of_nat (length series).
Proof.
  induction rev_rows as [|[idx0 values0] rest IH]; intros series series'; simpl.
  - intros _ idx values Hin. by apply elem_of_nil in Hin.
  - destruct (idx0 =? -1) eqn:Hskip.
    + intros Hrun idx values [[= -> ->]|Hin]%elem_of_cons Hne.
      * apply Z.eqb_eq in Hskip. done.
      * eapply IH; eauto.
    + destruct (row_sample env ci metricsType values0) as [[s|]| |] eqn:Hrow;
        [| |discriminate..].
      * unfold append_sample. destruct (idx0 <? 0) eqn:Hneg; [discriminate|].
        apply Z.ltb_ge in Hneg.
        destruct (series !! Z.to_nat idx0) as [ts0|] eqn:Hts0; [|discriminate].
        intros Hrun idx values [[= -> ->]|Hin]%elem_of_cons Hne.
        -- right. exists s. split; [done|]. apply lookup_lt_Some in Hts0. lia.
        -- destruct (IH _ _ Hrun idx values Hin Hne) as [|(s' & Hs' & Hr)]; [by left|].
           right. exists s'. split; [done|]. by rewrite length_insert in Hr.
      * intros Hrun idx values [[= -> ->]|Hin]%elem_of_cons Hne; [by left|].
        eapply IH; eauto.
Qed.

Lemma row_sample_none env ci metricsType values :
  row_sample env ci metricsType values = Ok None <->
  cell_at values (metricsIndex ci) = Ok CNil.
Proof.
  unfold row_sample. split.
  - destruct (cell_at values (metricsIndex ci)) as [cell| |]; [|discriminate..].
    destruct cell; try done;
      repeat case_match; discriminate.
  - by intros ->.
Qed.

Lemma samples_for_elem env ci metricsType v rev_rows values s :
  (v, values) ∈ rev_rows -> row_sample env ci metricsType values = Ok (Some s) ->
  s ∈ samples_for env ci metricsType v rev_rows.
Proof.
  intros Hin Hrow. unfold samples_for. apply list_elem_of_In, in_flat_map.
  exists (v, values). split; [by apply list_elem_of_In|]. simpl.
  rewrite Z.eqb_refl, Hrow. by left.
Qed.

(** The labels of the series the first pass makes end with [__name__]. *)
Definition named (ci : ColumnIndex) (ts : TimeSeries) : Prop :=
  exists front, Labels ts = front ++ [mkLabel PROMETHEUS_METRICS_NAME (metricsName ci)].

Lemma assign_row_named env pfx ci columns natives i values st st' :
  assign_row env pfx ci columns natives i values st = Ok st' ->
  Forall (named ci) (seriesArray st) -> Forall (named ci) (seriesArray st').
Proof.
  unfold assign_row.
  destruct (prom_tag_json ci values) as [json| |];
    destruct (series_key env ci natives values) as [key| |]; try discriminate.
  destruct (seriesIndexMap st !! key).
  - repeat case_match; try discriminate. by intros [= <-].
  - destruct (_ >=? _).
    + repeat case_match; try discriminate. by intros [= <-].
    + destruct (series_labels env pfx ci columns natives values json) as [pairs| |] eqn:Hl;
        [|discriminate..].
      apply series_labels_ok in Hl.
      repeat case_match; try discriminate. intros [= <-] Hall. cbn.
      apply Forall_app. split; [done|]. by constructor.
Qed.

Lemma assign_rows_named env pfx ci columns natives rows : forall i st st',
  assign_rows env pfx ci columns natives i rows st = Ok st' ->
  Forall (named ci) (seriesArray st) -> Forall (named ci) (seriesArray st').
Proof.
  induction rows as [|values rows IH]; intros i st st'; simpl.
  - by intros [= <-].
  - destruct (assign_row env pfx ci columns natives i values st) as [st1| |] eqn:Hrow;
      [|discriminate..].
    intros Hrest Hall. eapply IH; [exact Hrest|]. by eapply assign_row_named.
Qed.

End ResponseColumns.

Section ResponseExtras.

Import GoStrings Service.

(** X11: The response builder fails with "metricsIndex(..), timeIndex(..) get
    failed" exactly when no column has the prefix [metrics.] or no column is
    named [timestamp] (the index it prints for a missing column is -1); the
    only other error it returns is for a metrics column whose schema type is
    neither [Int] nor [Float64]. *)
Theorem respTransToProm_errors (env : Env) (ctx : Ctx) (result : Result) :
  let ci := columns_of result in
  let no_metrics := Forall (fun c => HasPrefix c "metrics." = false) (Columns result) in
  let no_time := EXT_METRICS_TIME_COLUMNS ∉ Columns result in
  let missing :=
    "metricsIndex(" +:+ itoa (metricsIndex ci) +:+ "), timeIndex("
      +:+ itoa (timeIndex ci) +:+ ") get failed" in
  (no_metrics -> metricsIndex ci = -1) /\
  (no_time -> timeIndex ci = -1) /\
  (no_metrics \/ no_time -> respTransToProm env ctx result = Err missing) /\
  (forall e, respTransToProm env ctx result = Err e ->
     (e = missing /\ (no_metrics \/ no_time)) \/
     (exists metricsType,
        Schemas result !! Z.to_nat (metricsIndex ci) = Some metricsType /\
        metricsType <> "Int" /\ metricsType <> "Float64")).
Proof.
  cbn zeta.
  pose proof (scan_columns_metrics (Columns result) 0 (mkColumnIndex (-1) (-1) (-1) "" [] 0))
    as Hm.
  pose proof (scan_columns_time (Columns result) 0 (mkColumnIndex (-1) (-1) (-1) "" [] 0))
    as Ht.
  cbn zeta in Hm, Ht. fold (columns_of result) in Hm, Ht.
  assert (Hnm : Forall (fun c => HasPrefix c "metrics." = false) (Columns result) ->
                metricsIndex (columns_of result) = -1).
  { intros Hall. destruct Hm as [(_ & -> & _) | (j & c & Hj & Hc & _)]; [done|].
    rewrite Forall_forall in Hall. rewrite Hall in Hc; [done|].
    apply list_elem_of_lookup. eauto. }
  assert (Hnt : EXT_METRICS_TIME_COLUMNS ∉ Columns result ->
                timeIndex (columns_of result) = -1).
  { intros Hno. destruct Ht as [(_ & ->) | (j & Hj & _)]; [done|].
    destruct Hno. apply list_elem_of_lookup. eauto. }
  split; [done|]. split; [done|]. split.
  - intros Hmiss. unfold respTransToProm.
    replace ((metricsIndex (columns_of result) <? 0) || (timeIndex (columns_of result) <? 0))
      with true; [done|].
    symmetry. apply orb_true_iff.
    destruct Hmiss as [H|H]; [left; rewrite (Hnm H) | right; rewrite (Hnt H)]; done.
  - intros e. unfold respTransToProm.
    destruct ((metricsIndex (columns_of result) <? 0) || (timeIndex (columns_of result) <? 0))
      eqn:Hidx.
    + intros [= <-]. left. split; [done|].
      apply orb_true_iff in Hidx as [Hlt|Hlt]; apply Z.ltb_lt in Hlt.
      * left. destruct Hm as [(Hall & _) | (j & c & _ & _ & Hv & _)]; [done | lia].
      * right. destruct Ht as [(Hno & _) | (j & _ & Hv)]; [done | lia].
    + destruct (Schemas result !! _) as [metricsType|] eqn:Hs; [|discriminate].
      destruct (first_pass env ctx result) as [st|e'|e'] eqn:Hfirst;
        [| by apply first_pass_no_err in Hfirst | discriminate].
      intros Hfill. apply fill_samples_err in Hfill as (_ & Hi & Hf).
      right. exists metricsType. split; [done|].
      apply String.eqb_neq in Hi, Hf. done.
Qed.

(** X12: Every series of a response ends its labels with [__name__], whose value
    is the name of the last column with the prefix [metrics.], the prefix
    taken off. *)
Theorem series_named_after_metric (env : Env) (ctx : Ctx) (result : Result)
    (series : list TimeSeries) :
  respTransToProm env ctx result = Ok series ->
  exists (j : nat) c,
    Columns result !! j = Some c /\ HasPrefix c "metrics." = true /\
    (forall (j' : nat) c', (j < j')%nat -> Columns result !! j' = Some c' ->
       HasPrefix c' "metrics." = false) /\
    metricsIndex (columns_of result) = Z.of_nat j /\
    forall ts, ts ∈ series ->
      exists front,
        Labels ts = front ++ [mkLabel PROMETHEUS_METRICS_NAME (TrimPrefix c "metrics.")].
Proof.
  unfold respTransToProm.
  destruct ((metricsIndex (columns_of result) <? 0) || (timeIndex (columns_of result) <? 0))
    eqn:Hidx; [discriminate|].
  apply orb_false_iff in Hidx as [Hmi _]. apply Z.ltb_ge in Hmi.
  destruct (Schemas result !! _) as [metricsType|]; [|discriminate].
  destruct (first_pass env ctx result) as [st|e'|e'] eqn:Hfirst; [|discriminate..].
  intros Hfill.
  pose proof (scan_columns_metrics (Columns result) 0 (mkColumnIndex (-1) (-1) (-1) "" [] 0))
    as Hm.
  cbn zeta in Hm. fold (columns_of result) in Hm.
  destruct Hm as [(_ & Hv & _) | (j & c & Hj & Hc & Hv & Hname & Hlast)].
  { rewrite Hv in Hmi. simpl in Hmi. lia. }
  exists j, c. split; [done|]. split; [done|]. split; [done|]. split; [lia|].
  assert (Hnamed : Forall (named (columns_of result)) (seriesArray st)).
  { unfold first_pass in Hfirst. destruct (_ <? 0) in Hfirst; [discriminate|].
    eapply assign_rows_named; [exact Hfirst|]. constructor. }
  apply fill_samples_spec in Hfill as [Hlen Hall].
  intros ts Hin. apply list_elem_of_lookup in Hin as [n Hn].
  assert (Hlt : (n < length (seriesArray st))%nat).
  { rewrite <- Hlen. by apply lookup_lt_Some in Hn. }
  apply lookup_lt_is_Some_2 in Hlt as [ts0 Hts0].
  destruct (Hall n ts0 Hts0) as (ts' & Hts' & Hlabels & _).
  rewrite Hn in Hts'. injection Hts' as <-. rewrite Hlabels.
  rewrite Forall_forall in Hnamed. destruct (Hnamed ts0) as [front Hfront].
  { apply list_elem_of_lookup. eauto. }
  exists front. by rewrite Hfront, Hname.
Qed.

(** X13: No sample is lost: a row to which the first pass gave a series (an
    index other than -1) either has a null metric value, and adds nothing,
    or its sample is among the samples of that series. *)
Theorem every_row_sampled (env : Env) (ctx : Ctx) (result : Result)
    (series : list TimeSeries) :
  respTransToProm env ctx result = Ok series ->
  exists st metricsType,
    first_pass env ctx result = Ok st /\
    Schemas result !! Z.to_nat (metricsIndex (columns_of result)) = Some metricsType /\
    forall (j : nat) values idx,
      Values result !! j = Some values -> sampleSeriesIndex st !! j = Some idx ->
      idx <> -1 ->
      cell_at values (metricsIndex (columns_of result)) = Ok CNil \/
      exists s ts,
        row_sample env (columns_of result) metricsType values = Ok (Some s) /\
        0 <= idx /\ series !! Z.to_nat idx = Some ts /\ s ∈ Samples ts.
Proof.
  unfold respTransToProm.
  destruct (_ || _); [discriminate|].
  destruct (Schemas result !! _) as [metricsType|] eqn:Hs; [|discriminate].
  destruct (first_pass env ctx result) as [st|e'|e'] eqn:Hfirst; [|discriminate..].
  intros Hfill. exists st, metricsType. split; [done|]. split; [done|].
  intros j values idx Hj Hidx Hne.
  assert (Hin : (idx, values) ∈ rev (zip (sampleSeriesIndex st) (Values result))).
  { apply list_elem_of_In. rewrite <- in_rev. apply list_elem_of_In.
    apply list_elem_of_lookup. exists j. by apply lookup_zip_Some. }
  destruct (fill_samples_complete _ _ _ _ _ _ Hfill idx values Hin Hne)
    as [Hnone | (s & Hrow & Hrange)].
  - left. by apply row_sample_none in Hnone.
  - right. apply fill_samples_spec in Hfill as [Hlen Hall].
    assert (Hlt : (Z.to_nat idx < length (seriesArray st))%nat) by lia.
    apply lookup_lt_is_Some_2 in Hlt as [ts0 Hts0].
    destruct (Hall _ ts0 Hts0) as (ts' & Hts' & _ & Hsamples).
    exists s, ts'. split; [done|]. split; [lia|]. split; [done|].
    rewrite Hsamples. apply elem_of_app. right.
    rewrite Z2Nat.id by lia. by eapply samples_for_elem.
Qed.

End ResponseExtras.

(** A result without a metrics column, and one whose second row has no
    metric value. *)
Definition no_metrics_result : Service.Result :=
  Service.mkResult ["timestamp"; "pod"] [[Service.CInt 3; Service.CString "a"]]
    ["Int"; "String"].

Definition null_metric_result : Service.Result :=
  Service.mkResult ["timestamp"; "metrics.m"; "pod"]
    [[Service.CInt 3; Service.CInt 1; Service.CString "a"];
     [Service.CInt 2; Service.CNil; Service.CString "b"]]
    ["Int"; "Int"; "String"].

Example no_metrics_response :
  Service.respTransToProm querier_env plain_ctx no_metrics_result
  = Err "metricsIndex(-1), timeIndex(0) get failed".
Proof. vm_compute. reflexivity. Qed.

(** The second row makes a series of its own, which stays without
    samples. *)
Example null_metric_response :
  Service.respTransToProm querier_env plain_ctx null_metric_result
  = Ok [Service.mkTimeSeries
          [Service.mkLabel "pod" "a"; Service.mkLabel "__name__" "m"]
          [Service.mkSample 3000 1];
        Service.mkTimeSeries
          [Service.mkLabel "pod" "b"; Service.mkLabel "__name__" "m"] []].
Proof. vm_compute. reflexivity. Qed.

Lemma respTransToProm_errors_witness :
  Forall (fun c => GoStrings.HasPrefix c "metrics." = false)
    (Service.Columns no_metrics_result) /\
  Service.respTransToProm querier_env plain_ctx no_metrics_result
  = Err ("metricsIndex("
         +:+ GoStrings.itoa (Service.metricsIndex (Service.columns_of no_metrics_result))
         +:+ "), timeIndex("
         +:+ GoStrings.itoa (Service.timeIndex (Service.columns_of no_metrics_result))
         +:+ ") get failed").
Proof.
  assert (H : Forall (fun c => GoStrings.HasPrefix c "metrics." = false)
                (Service.Columns no_metrics_result)).
  { repeat constructor. }
  split; [exact H|].
  apply (respTransToProm_errors querier_env plain_ctx no_metrics_result). by left.
Defined.

Lemma series_named_after_metric_witness :
  exists (j : nat) c,
    Service.Columns null_metric_result !! j = Some c /\
    GoStrings.HasPrefix c "metrics." = true /\
    Service.metricsIndex (Service.columns_of null_metric_result) = Z.of_nat j.
Proof.
  destruct (series_named_after_metric querier_env plain_ctx null_metric_result _
              null_metric_response) as (j & c & H1 & H2 & _ & H3 & _).
  exists j, c. split; [exact H1|]. split; [exact H2 | exact H3].
Defined.

Lemma every_row_sampled_witness :
  exists st metricsType,
    Service.first_pass querier_env plain_ctx null_metric_result = Ok st /\
    Service.Schemas null_metric_result
      !! Z.to_nat (Service.metricsIndex (Service.columns_of null_metric_result))
    = Some metricsType.
Proof.
  destruct (every_row_sampled querier_env plain_ctx null_metric_result _
              null_metric_response) as (st & mt & H1 & H2 & _).
  exists st, mt. split; [exact H1 | exact H2].
Defined.

(** ** The response builder on well-formed results *)

Section ResponseSafety.

Import GoStrings Service.

(** The metric cell of a row agrees with the schema type of the column. *)
Definition metric_typed (metricsType : string) (cell : Cell) : Prop :=
  match cell with
  | CNil => True
  | CInt _ => metricsType <> "Float64"
  | CFloat _ => metricsType <> "Int"
  | _ => metricsType <> "Int" /\ metricsType <> "Float64"
  end.

(** A row as the engine returns it for the columns: one cell per column,
    each an int, a float64, a time, a string or null; the [tag] cell a
    string, the time cell an int, the metric cell of the schema's type. *)
Record row_ok (ci : ColumnIndex) (columns : list string) (metricsType : string)
    (values : list Cell) : Prop := mkRowOk {
  row_length : length values = length columns;
  row_cells : Forall (fun c => c <> COther) values;
  row_tag : tagIndex ci > -1 ->
            exists s, values !! Z.to_nat (tagIndex ci) = Some (CString s);
  row_time_cell : exists t, values !! Z.to_nat (timeIndex ci) = Some (CInt t);
  row_metric : forall cell, values !! Z.to_nat (metricsIndex ci) = Some cell ->
               metric_typed metricsType cell;
}.

Lemma native_tags_range ci columns idx :
  idx ∈ native_tags ci columns -> 0 <= idx < Z.of_nat (length columns).
Proof.
  unfold native_tags. intros Hin. apply list_elem_of_In, filter_In in Hin as [Hin _].
  apply list_elem_of_In, elem_of_seqZ in Hin. lia.
Qed.

Lemma cell_at_in_range (values : list Cell) idx :
  0 <= idx < Z.of_nat (length values) ->
  exists c, cell_at values idx = Ok c /\ values !! Z.to_nat idx = Some c.
Proof.
  intros Hr. unfold cell_at. rewrite (proj2 (Z.ltb_ge idx 0)) by lia.
  destruct (values !! Z.to_nat idx) as [c|] eqn:Hc; [eauto|].
  apply lookup_ge_None in Hc. lia.
Qed.

Lemma getValue_ok env c : c <> COther -> exists v, getValue env c = Ok v.
Proof. destruct c; simpl; eauto. done. Qed.

Lemma cell_value_ok env (values : list Cell) idx :
  Forall (fun c => c <> COther) values -> 0 <= idx < Z.of_nat (length values) ->
  exists c v, cell_at values idx = Ok c /\ getValue env c = Ok v.
Proof.
  intros Hall Hr. destruct (cell_at_in_range values idx Hr) as (c & Hc & Hl).
  rewrite Forall_lookup in Hall. destruct (getValue_ok env c (Hall _ _ Hl)) as [v Hv]. eauto.
Qed.

Lemma tags_str_list_ok env values natives :
  Forall (fun c => c <> COther) values ->
  (forall idx, idx ∈ natives -> 0 <= idx < Z.of_nat (length values)) ->
  exists l, tags_str_list env natives values = Ok l.
Proof.
  intros Hall. induction natives as [|idx rest IH]; intros Hr; simpl; [eauto|].
  destruct (cell_value_ok env values idx Hall) as (c & v & -> & ->); [apply Hr; left|].
  destruct IH as [l ->]; [intros i Hi; apply Hr; by right|]. eauto.
Qed.

Lemma prom_tag_json_ok ci columns metricsType values :
  row_ok ci columns metricsType values -> exists json, prom_tag_json ci values = Ok json.
Proof.
  intros Hrow. unfold prom_tag_json.
  destruct (tagIndex ci >? -1) eqn:Ht; [|eauto].
  apply Z.gtb_lt in Ht. destruct (row_tag _ _ _ _ Hrow) as [s Hs]; [lia|].
  unfold cell_at. rewrite (proj2 (Z.ltb_ge (tagIndex ci) 0)) by lia. rewrite Hs. eauto.
Qed.

Lemma series_key_ok env ci columns metricsType values :
  row_ok ci columns metricsType values ->
  exists k, series_key env ci (native_tags ci columns) values = Ok k.
Proof.
  intros Hrow. unfold series_key.
  destruct (prom_tag_json_ok _ _ _ _ Hrow) as [json ->].
  destruct (0 <? length (native_tags ci columns))%nat; [|eauto].
  destruct (tags_str_list_ok env values (native_tags ci columns)) as [l ->]; [| |eauto].
  - apply (row_cells _ _ _ _ Hrow).
  - intros idx Hin. rewrite (row_length _ _ _ _ Hrow). by apply native_tags_range in Hin.
Qed.

Lemma native_labels_ok env pfx ci columns values natives :
  Forall (fun c => c <> COther) values -> length values = length columns ->
  (forall idx, idx ∈ natives -> 0 <= idx < Z.of_nat (length columns)) ->
  exists l, native_labels env pfx ci columns natives values = Ok l.
Proof.
  intros Hall Hlen. induction natives as [|idx rest IH]; intros Hr; simpl; [eauto|].
  assert (Hidx : 0 <= idx < Z.of_nat (length columns)) by (apply Hr; left).
  destruct (cell_value_ok env values idx Hall) as (c & v & -> & ->); [lia|].
  destruct IH as [l Hl]; [intros i Hi; apply Hr; by right|].
  destruct (isZero c); [eauto|].
  destruct (columns !! Z.to_nat idx) as [col|] eqn:Hcol.
  - rewrite Hl. eauto.
  - apply lookup_ge_None in Hcol. lia.
Qed.

Lemma series_labels_some env pfx ci columns metricsType values json :
  row_ok ci columns metricsType values ->
  exists pairs,
    series_labels env pfx ci columns (native_tags ci columns) values json = Ok pairs.
Proof.
  intros Hrow. unfold series_labels.
  destruct (native_labels_ok env pfx ci columns values (native_tags ci columns))
    as [l ->]; [apply (row_cells _ _ _ _ Hrow) | apply (row_length _ _ _ _ Hrow) | | eauto].
  intros idx Hin. by apply native_tags_range in Hin.
Qed.

Lemma slice_update_in_range (arr : list Z) (i : Z) f :
  0 <= i < Z.of_nat (length arr) -> exists arr', slice_update arr i f = Ok arr'.
Proof.
  intros Hr. unfold slice_update. rewrite (proj2 (Z.ltb_ge i 0)) by lia.
  destruct (arr !! Z.to_nat i) eqn:Hi; [eauto|]. apply lookup_ge_None in Hi. lia.
Qed.

(** The first pass goes through every well-formed row. *)
Lemma assign_row_ok env pfx ci columns metricsType total maxp done st sk values :
  pass1_inv env total maxp done st sk ->
  (length done < total)%nat ->
  Z.min (Z.of_nat total) (SeriesLimit env) <= Z.of_nat maxp ->
  row_ok ci columns metricsType values ->
  exists st',
    assign_row env pfx ci columns (native_tags ci columns) (Z.of_nat (length done)) values st
    = Ok st'.
Proof.
  intros Hinv Hdone Hmaxp Hrow. unfold assign_row.
  destruct (prom_tag_json_ok _ _ _ _ Hrow) as [json ->].
  destruct (series_key_ok env _ _ _ _ Hrow) as [k ->].
  destruct (slice_update_in_range (sampleSeriesIndex st) (Z.of_nat (length done)))
    with (f := fun _ : Z => -1) as [ssi1 Hs1];
    [rewrite (inv_ssi_len _ _ _ _ _ _ Hinv); lia|].
  pose proof (inv_done _ _ _ _ _ _ Hinv) as Hsk.
  pose proof (inv_limit _ _ _ _ _ _ Hinv) as Hlim.
  destruct (seriesIndexMap st !! k) as [index|] eqn:Hmap.
  - apply (inv_map _ _ _ _ _ _ Hinv) in Hmap as (n & -> & Hn).
    apply lookup_lt_Some in Hn.
    destruct (slice_update_in_range (sampleSeriesIndex st) (Z.of_nat (length done)))
      with (f := fun _ : Z => Z.of_nat n) as [ssi ->];
      [rewrite (inv_ssi_len _ _ _ _ _ _ Hinv); lia|].
    destruct (slice_update_in_range (seriesSampleCount st) (Z.of_nat n))
      with (f := fun c => wrap32 (c + 1)) as [ssc ->];
      [rewrite (inv_ssc_len _ _ _ _ _ _ Hinv); lia|].
    eauto.
  - destruct (Z.of_nat (size (seriesIndexMap st)) >=? SeriesLimit env) eqn:Hfull.
    + rewrite Hs1. eauto.
    + pose proof (Zge_cases (Z.of_nat (size (seriesIndexMap st))) (SeriesLimit env)) as Hc.
      rewrite Hfull, (inv_size _ _ _ _ _ _ Hinv) in Hc.
      destruct (series_labels_some env pfx ci columns metricsType values json Hrow)
        as [pairs ->].
      rewrite (inv_initial _ _ _ _ _ _ Hinv).
      destruct (slice_update_in_range (sampleSeriesIndex st) (Z.of_nat (length done)))
        with (f := fun _ : Z => Z.of_nat (length sk)) as [ssi ->];
        [rewrite (inv_ssi_len _ _ _ _ _ _ Hinv); lia|].
      destruct (slice_update_in_range (seriesSampleCount st) (Z.of_nat (length sk)))
        with (f := fun _ : Z => 1) as [ssc ->];
        [rewrite (inv_ssc_len _ _ _ _ _ _ Hinv); lia|].
      eauto.
Qed.

Lemma assign_rows_ok env pfx ci columns metricsType total maxp rows :
  0 <= SeriesLimit env < 2 ^ 31 ->
  Z.min (Z.of_nat total) (SeriesLimit env) <= Z.of_nat maxp ->
  Forall (row_ok ci columns metricsType) rows ->
  forall done st sk,
    pass1_inv env total maxp done st sk ->
    (length done + length rows <= total)%nat ->
    exists st',
      assign_rows env pfx ci columns (native_tags ci columns) (Z.of_nat (length done)) rows st
      = Ok st'.
Proof.
  intros Hlimit Hmaxp Hrows. induction Hrows as [|values rows Hrow _ IH];
    intros done st sk Hinv Hlen; cbn [assign_rows]; [eauto|].
  cbn [length] in Hlen.
  destruct (assign_row_ok env pfx ci columns metricsType total maxp done st sk values)
    as [st1 Hst1]; [done | lia | done | done |].
  rewrite Hst1.
  destruct (series_key_ok env _ _ _ _ Hrow) as [k Hk].
  destruct (assign_row_inv env pfx ci columns (native_tags ci columns) Hlimit
              total maxp done st sk values k st1 Hinv Hk Hst1) as (sk1 & Hinv1 & _).
  replace (Z.of_nat (length done) + 1) with (Z.of_nat (length (done ++ [k])))
    by (rewrite length_app; simpl; lia).
  apply (IH (done ++ [k]) st1 sk1 Hinv1). rewrite length_app. simpl. lia.
Qed.

Lemma row_sample_no_panic env ci columns metricsType values e :
  row_ok ci columns metricsType values ->
  0 <= metricsIndex ci < Z.of_nat (length columns) -> 0 <= timeIndex ci ->
  row_sample env ci metricsType values <> Panic e.
Proof.
  intros Hrow Hm Ht. unfold row_sample.
  destruct (cell_at_in_range values (metricsIndex ci)) as (cell & -> & Hcell);
    [rewrite (row_length _ _ _ _ Hrow); lia|].
  pose proof (row_metric _ _ _ _ Hrow _ Hcell) as Htyped.
  destruct (row_time_cell _ _ _ _ Hrow) as [t Htime].
  assert (Htc : cell_at values (timeIndex ci) = Ok (CInt t)).
  { unfold cell_at. rewrite (proj2 (Z.ltb_ge (timeIndex ci) 0)) by lia. by rewrite Htime. }
  rewrite Htc.
  destruct (streq metricsType "Int") eqn:Hi; [apply String.eqb_eq in Hi|];
    (destruct (streq metricsType "Float64") eqn:Hf; [apply String.eqb_eq in Hf|]);
    destruct cell; simpl in Htyped; try done; try (by destruct Htyped).
Qed.

Lemma fill_samples_no_panic env ci columns metricsType rev_rows :
  0 <= metricsIndex ci < Z.of_nat (length columns) -> 0 <= timeIndex ci ->
  forall series e,
    Forall (fun r : Z * list Cell =>
              (fst r = -1 \/ 0 <= fst r < Z.of_nat (length series)) /\
              row_ok ci columns metricsType (snd r)) rev_rows ->
    fill_samples env ci metricsType rev_rows series <> Panic e.
Proof.
  intros Hm Ht. induction rev_rows as [|[idx values] rest IH]; intros series e Hall;
    cbn [fill_samples]; [done|].
  apply Forall_cons in Hall as [[Hidx Hrow] Hall]. cbn [fst snd] in *.
  destruct (idx =? -1) eqn:Hskip; [by apply IH|].
  apply Z.eqb_neq in Hskip. destruct Hidx as [|Hidx]; [done|].
  destruct (row_sample env ci metricsType values) as [[s|]|e'|e'] eqn:Hs.
  - unfold append_sample. rewrite (proj2 (Z.ltb_ge idx 0)) by lia.
    destruct (series !! Z.to_nat idx) as [ts|] eqn:Hts.
    + apply IH. eapply Forall_impl; [exact Hall|].
      intros r [Hr Hok]. split; [|done]. by rewrite length_insert.
    + apply lookup_ge_None in Hts. lia.
  - by apply IH.
  - done.
  - by eapply row_sample_no_panic in Hs.
Qed.


End ResponseSafety.

Lemma null_metric_rows_ok :
  Forall (row_ok (Service.columns_of null_metric_result)
            (Service.Columns null_metric_result) "Int")
    (Service.Values null_metric_result).
Proof.
  repeat (apply Forall_cons; split; [|try apply Forall_nil_2]);
    (split;
     [reflexivity
     |repeat (apply Forall_cons; split; [discriminate|]); apply Forall_nil_2
     |intros Htag; vm_compute in Htag; discriminate
     |eexists; reflexivity
     |intros cell Hcell; vm_compute in Hcell; injection Hcell as <-; cbn;
      try discriminate; exact I]).
Qed.


(** ** The writer: one handle per width *)

Section WriterExtras.

Import Writer WriterInit.

Variable MAX : nat.

Lemma alter_tolerant_frame t i w r w' :
  alter_tolerant t i w = (r, w') ->
  prometheusCKWriters w' = prometheusCKWriters w /\ ckdbConn w' = ckdbConn w /\
  (r = Ok tt \/ exists e, r = Err e).
Proof.
  intros H. apply alter_tolerant_spec in H as (H1 & H2 & _ & _ & _ & [[-> _] | [He _]]); auto.
Qed.

Lemma addAppLabelColumns_from_frame n : forall i w r w',
  addAppLabelColumns_from n i w = (r, w') ->
  prometheusCKWriters w' = prometheusCKWriters w /\ ckdbConn w' = ckdbConn w /\
  (r = Ok tt \/ exists e, r = Err e).
Proof.
  induction n as [|n IH]; intros i w r w'; cbn [addAppLabelColumns_from].
  - intros [= <- <-]. auto.
  - unfold bind.
    destruct (alter_tolerant SamplesLocal i w) as [r1 w1] eqn:H1.
    apply alter_tolerant_frame in H1 as (Hw1 & Hc1 & [-> | [e ->]]);
      [|intros [= <- <-]; eauto].
    destruct (alter_tolerant Samples i w1) as [r2 w2] eqn:H2.
    apply alter_tolerant_frame in H2 as (Hw2 & Hc2 & [-> | [e ->]]);
      [|intros [= <- <-]; split; [congruence|]; split; [congruence|]; eauto].
    intros Hrun. apply IH in Hrun as (Hw & Hc & Hr). split; [congruence|]. split; [congruence|done].
Qed.

(** What the creation of a writer leaves in the array: the running writer
    of the requested width in its slot, or nothing new; it panics only on a
    slot that is not there. *)
Lemma create_writer_slots c w r w' :
  create_writer c w = (r, w') ->
  (r = Ok (mkCKWriter c true) /\ index_ok c (prometheusCKWriters w) = true /\
   prometheusCKWriters w'
   = <[Z.to_nat c := Some (mkCKWriter c true)]> (prometheusCKWriters w)) \/
  ((exists e, r = Err e) /\ prometheusCKWriters w' = prometheusCKWriters w) \/
  ((exists e, r = Panic e) /\ index_ok c (prometheusCKWriters w) = false /\
   prometheusCKWriters w' = prometheusCKWriters w).
Proof.
  unfold create_writer, bind at 1, get_world at 1. unfold bind at 1.
  destruct ((if ckdbConn w then ret () else NewCKConnections) w) as [r0 w0] eqn:H0.
  assert (Hs0 : prometheusCKWriters w0 = prometheusCKWriters w /\
                (r0 = Ok tt \/ exists e, r0 = Err e)).
  { destruct (ckdbConn w).
    - injection H0 as <- <-. auto.
    - apply NewCKConnections_spec in H0 as (? & _ & _ & ?). auto. }
  destruct Hs0 as [Hw0 [-> | [e ->]]]; [|intros [= <- <-]; right; left; eauto].
  unfold bind at 1. destruct (NewCKWriter c w0) as [r1 w1] eqn:H1.
  apply NewCKWriter_spec in H1 as (Hw1 & [(-> & _) | ([e ->] & _)]).
  2:{ intros [= <- <-]. right. left. split; [eauto | congruence]. }
  unfold bind at 1. destruct (getCurrentAppLabelColumnCount w1) as [r2 w2] eqn:H2.
  apply getCurrentAppLabelColumnCount_spec in H2 as (Hw2 & _ & _ & Hr2).
  destruct Hr2 as [-> | [e ->]].
  2:{ intros [= <- <-]. right. left. split; [eauto | congruence]. }
  unfold bind at 1.
  destruct ((if column_count w1 <? c
             then addAppLabelColumns (column_count w1 + 1) c else ret ()) w2)
    as [r3 w3] eqn:H3.
  assert (Hs3 : prometheusCKWriters w3 = prometheusCKWriters w2 /\
                (r3 = Ok tt \/ exists e, r3 = Err e)).
  { destruct (column_count w1 <? c).
    - apply addAppLabelColumns_from_frame in H3 as (? & _ & ?). auto.
    - injection H3 as <- <-. auto. }
  destruct Hs3 as [Hw3 [-> | [e ->]]].
  2:{ intros [= <- <-]. right. left. split; [eauto | congruence]. }
  unfold bind at 1, setPrometheusCKWriters, Run. cbn [cw_width].
  assert (Hsame : prometheusCKWriters w3 = prometheusCKWriters w) by congruence.
  rewrite Hsame.
  destruct (index_ok c (prometheusCKWriters w)) eqn:Hidx.
  - intros [= <- <-]. left. cbn. done.
  - intros [= <- <-]. right. right. split; [eauto|]. done.
Qed.

(** The result of [getOrCreateCkwriter] for a request of width [c]. *)
Lemma getOrCreateCkwriter_slots ids w r w' :
  getOrCreateCkwriter MAX ids w = (r, w') ->
  let c := Z.of_nat (length ids) - 1 in
  (exists cw, r = Ok cw /\ w' = w /\
     index_ok c (prometheusCKWriters w) = true /\
     prometheusCKWriters w !! Z.to_nat c = Some (Some cw)) \/
  (r = Ok (mkCKWriter c true) /\ index_ok c (prometheusCKWriters w) = true /\
   prometheusCKWriters w !! Z.to_nat c = Some None /\
   prometheusCKWriters w'
   = <[Z.to_nat c := Some (mkCKWriter c true)]> (prometheusCKWriters w)) \/
  ((forall cw, r <> Ok cw) /\ prometheusCKWriters w' = prometheusCKWriters w).
Proof.
  cbn zeta. unfold getOrCreateCkwriter.
  set (c := Z.of_nat (length ids) - 1).
  destruct (length ids =? 0)%nat; [intros [= <- <-]; right; right; done|].
  destruct (c >? Z.of_nat MAX); [intros [= <- <-]; right; right; done|].
  fold (create_writer c).
  unfold bind at 1, getPrometheusCKWriters at 1.
  destruct (index_ok c (prometheusCKWriters w)) eqn:Hidx;
    [|intros [= <- <-]; right; right; done].
  destruct (prometheusCKWriters w !! Z.to_nat c) as [[cw|]|] eqn:Hslot;
    [| |intros [= <- <-]; right; right; done].
  - intros [= <- <-]. left. exists cw. done.
  - unfold bind at 1, getPrometheusCKWriters at 1. rewrite Hidx, Hslot.
    intros Hrun.
    apply create_writer_slots in Hrun
      as [(-> & _ & Hw') | [([e ->] & Hw') | ([e ->] & _ & Hw')]].
    + right. left. done.
    + right. right. done.
    + right. right. done.
Qed.

(** X15: A writer is created once per width: when [getOrCreateCkwriter] has
    returned a writer, a further call for a sample of the same width returns
    the same writer and leaves everything as it is: no statement is sent and
    no new handle is made. *)
Theorem writer_created_once (AppLabelValueIDs ids' : list Z) (w w' : World) (cw : CKWriter) :
  getOrCreateCkwriter MAX AppLabelValueIDs w = (Ok cw, w') ->
  length ids' = length AppLabelValueIDs ->
  getOrCreateCkwriter MAX ids' w' = (Ok cw, w').
Proof.
  intros Hrun Hlen.
  assert (Hslot : index_ok (Z.of_nat (length ids') - 1) (prometheusCKWriters w') = true /\
                  prometheusCKWriters w' !! Z.to_nat (Z.of_nat (length ids') - 1)
                  = Some (Some cw)).
  { rewrite Hlen.
    apply getOrCreateCkwriter_slots in Hrun
      as [(cw' & [= <-] & -> & Hidx & Hs) | [([= <-] & Hidx & Hs & Hw') | (Hr & _)]].
    - done.
    - unfold index_ok in *. rewrite Hw', length_insert. split; [done|].
      apply list_lookup_insert_eq. by apply lookup_lt_Some in Hs.
    - by destruct (Hr cw). }
  destruct Hslot as [Hidx Hs].
  revert Hrun. unfold getOrCreateCkwriter. rewrite Hlen.
  destruct (length AppLabelValueIDs =? 0)%nat; [discriminate|].
  destruct (_ >? Z.of_nat MAX); [discriminate|]. intros _.
  rewrite Hlen in Hidx, Hs.
  unfold bind at 1, getPrometheusCKWriters at 1. by rewrite Hidx, Hs.
Qed.

(** Every handle in the array is running and was built for the width of
    its slot. *)
Definition slots_running (w : World) : Prop :=
  forall (k : nat) cw, prometheusCKWriters w !! k = Some (Some cw) ->
    cw = mkCKWriter (Z.of_nat k) true.

(** X16: When every handle in the array is running and was built for the width
    of its slot, as in the empty array, [getOrCreateCkwriter] leaves the
    array so; the writer it returns is running, has the width of the
    sample, [len(AppLabelValueIDs) - 1], and is the handle in that slot. *)
Theorem writer_slots_running (AppLabelValueIDs : list Z) (w w' : World)
    (r : outcome CKWriter) :
  slots_running w ->
  getOrCreateCkwriter MAX AppLabelValueIDs w = (r, w') ->
  slots_running w' /\
  forall cw, r = Ok cw ->
    cw = mkCKWriter (Z.of_nat (length AppLabelValueIDs) - 1) true /\
    prometheusCKWriters w' !! Z.to_nat (Z.of_nat (length AppLabelValueIDs) - 1)
    = Some (Some cw).
Proof.
  intros Hinv Hrun.
  apply getOrCreateCkwriter_slots in Hrun
    as [(cw' & -> & -> & Hidx & Hs) | [(-> & Hidx & Hs & Hw') | (Hr & Hw')]].
  - split; [done|]. intros cw [= <-]. split; [|done].
    rewrite (Hinv _ _ Hs). f_equal.
    unfold index_ok in Hidx. apply andb_true_iff in Hidx as [H0 _]. apply Z.leb_le in H0. lia.
  - unfold index_ok in Hidx. apply andb_true_iff in Hidx as [H0 _]. apply Z.leb_le in H0.
    split.
    + intros k cw. rewrite Hw'.
      destruct (decide (k = Z.to_nat (Z.of_nat (length AppLabelValueIDs) - 1))) as [->|Hne].
      * rewrite list_lookup_insert_eq by (by apply lookup_lt_Some in Hs).
        intros [= <-]. f_equal. lia.
      * rewrite list_lookup_insert_ne by done. apply Hinv.
    + intros cw [= <-]. split; [done|]. rewrite Hw'.
      apply list_lookup_insert_eq. by apply lookup_lt_Some in Hs.
  - split; [|intros cw ->; by destruct (Hr cw)].
    intros k cw. rewrite Hw'. apply Hinv.
Qed.

Lemma fresh_world_slots_running fs : slots_running (fresh_world MAX fs).
Proof.
  intros k cw Hk. cbn in Hk. unfold empty_writers in Hk.
  apply lookup_replicate in Hk as [Hk _]. discriminate.
Qed.

(** X17: A call that does not return a writer stores none: the array is as it
    was, so the next call for that width starts over.  A sample without ids
    and a sample wider than [MAX_APP_LABEL_COLUMN_INDEX] are refused before
    anything is touched. *)
Theorem writer_failure_stores_nothing (AppLabelValueIDs : list Z) (w w' : World)
    (r : outcome CKWriter) :
  getOrCreateCkwriter MAX AppLabelValueIDs w = (r, w') ->
  ((forall cw, r <> Ok cw) -> prometheusCKWriters w' = prometheusCKWriters w) /\
  (AppLabelValueIDs = [] \/ Z.of_nat MAX < Z.of_nat (length AppLabelValueIDs) - 1 ->
   (exists e, r = Err e) /\ w' = w).
Proof.
  intros Hrun. split.
  - intros Hr. apply getOrCreateCkwriter_slots in Hrun
      as [(cw' & -> & _) | [(-> & _) | (_ & Hw')]]; [by destruct (Hr cw') | | done].
    by destruct (Hr (mkCKWriter (Z.of_nat (length AppLabelValueIDs) - 1) true)).
  - revert Hrun. unfold getOrCreateCkwriter. intros Hrun [-> | Hwide].
    + injection Hrun as <- <-. eauto.
    + destruct (length AppLabelValueIDs =? 0)%nat; [injection Hrun as <- <-; eauto|].
      replace (Z.of_nat (length AppLabelValueIDs) - 1 >? Z.of_nat MAX) with true in Hrun
        by (symmetry; apply Z.gtb_lt; lia).
      injection Hrun as <- <-. eauto.
Qed.

(** The fault the environment has in store at position [k]. *)
Definition fault_at (w : World) (k : nat) : bool := default false (faults w !! k).

(** [getOrCreateCkwriter] panics only when the array has no slot for the
    width. *)
Lemma getOrCreateCkwriter_panic ids w e w' :
  getOrCreateCkwriter MAX ids w = (Panic e, w') ->
  index_ok (Z.of_nat (length ids) - 1) (prometheusCKWriters w) = false.
Proof.
  unfold getOrCreateCkwriter.
  set (c := Z.of_nat (length ids) - 1).
  destruct (length ids =? 0)%nat; [discriminate|].
  destruct (c >? Z.of_nat MAX); [discriminate|].
  fold (create_writer c).
  unfold bind at 1, getPrometheusCKWriters at 1.
  destruct (index_ok c (prometheusCKWriters w)) eqn:Hidx; [|done].
  destruct (prometheusCKWriters w !! Z.to_nat c) as [[cw|]|] eqn:Hslot; [discriminate| |].
  - unfold bind at 1, getPrometheusCKWriters at 1. rewrite Hidx, Hslot.
    intros Hrun.
    apply create_writer_slots in Hrun as [([=] & _) | [([e' [=]] & _) | (_ & Hno & _)]].
    congruence.
  - apply lookup_ge_None in Hslot. unfold index_ok in Hidx.
    apply andb_true_iff in Hidx as [H0 H1]. apply Z.leb_le in H0. apply Z.ltb_lt in H1. lia.
Qed.

(** X18: [InitTable] reports a failed connection and a failed CREATE DATABASE
    and nothing else: the outcome of the writer it asks for (table creation,
    column count, ALTERs) is dropped.  With an array of at least one slot it
    returns, and it returns an error exactly when the first operation fails
    or, the writer having had no connection, the second does. *)
Theorem InitTable_reports (w w' : World) (r : outcome unit) :
  InitTable MAX w = (r, w') ->
  index_ok 0 (prometheusCKWriters w) = true ->
  (r = Ok tt \/ exists e, r = Err e) /\
  ((exists e, r = Err e) <->
   fault_at w 0 = true \/ (ckdbConn w = false /\ fault_at w 1 = true)).
Proof.
  intros Hrun Hidx.
  assert (Hdrop : forall w2 r3 w3,
            prometheusCKWriters w2 = prometheusCKWriters w ->
            dropped (getOrCreateCkwriter MAX [0]) w2 = (r3, w3) -> r3 = Ok tt).
  { intros w2 r3 w3 Hw2. unfold dropped.
    destruct (getOrCreateCkwriter MAX [0] w2) as [[cw|e|e] w4] eqn:Hg;
      intros [= <- <-]; try done.
    apply getOrCreateCkwriter_panic in Hg. cbn [length] in Hg.
    change (Z.of_nat 1 - 1) with 0 in Hg. rewrite Hw2 in Hg. congruence. }
  revert Hrun.
  unfold InitTable, bind at 1, get_world at 1. unfold bind at 1.
  unfold fault_at.
  destruct w as [ws conn k fs iss]. cbn [ckdbConn faults prometheusCKWriters] in *.
  destruct conn.
  - unfold ret at 1, bind at 1, exec_create_database, bind at 1, next_fault.
    cbn [faults].
    destruct fs as [|f1 fs]; cbn [lookup list_lookup default];
      [|destruct f1]; unfold ret at 1; unfold bind at 1;
      match goal with
      | |- context [dropped ?m ?w2] =>
          destruct (dropped m w2) as [r3 w3] eqn:Hd;
          apply Hdrop in Hd; [subst r3 | done]
      end; intros [= <- <-]; (split; [eauto|]); split;
      try (intros [e ?]; discriminate); try (intros [? | [? _]]; discriminate); eauto.
  - unfold NewCKConnections, bind at 1, next_fault. cbn [faults].
    destruct fs as [|f1 fs]; cbn [lookup list_lookup default].
    + unfold set_conn, bind at 1, exec_create_database, bind at 1, next_fault.
      cbn [faults]. unfold ret at 1. unfold bind at 1.
      match goal with
      | |- context [dropped ?m ?w2] =>
          destruct (dropped m w2) as [r3 w3] eqn:Hd;
          apply Hdrop in Hd; [subst r3 | done]
      end. intros [= <- <-]. split; [eauto|]. split.
      * intros [e ?]; discriminate.
      * intros [? | [_ ?]]; discriminate.
    + destruct f1.
      * unfold fail. intros [= <- <-]. split; [eauto|]. split; eauto.
      * unfold set_conn, bind at 1, exec_create_database, bind at 1, next_fault.
        cbn [faults].
        destruct fs as [|f2 fs]; cbn [lookup list_lookup default];
          [|destruct f2]; unfold ret at 1; unfold bind at 1;
          match goal with
          | |- context [dropped ?m ?w2] =>
              destruct (dropped m w2) as [r3 w3] eqn:Hd;
              apply Hdrop in Hd; [subst r3 | done]
          end; intros [= <- <-]; (split; [eauto|]); split;
          try (intros [e ?]; discriminate); try (intros [? | [_ ?]]; discriminate); eauto.
Qed.

End WriterExtras.

(** A writer that is asked twice for the width 1. *)
Definition after_first_call : outcome Writer.CKWriter * Writer.World := Eval vm_compute in
  Writer.getOrCreateCkwriter 3 [7; 0] (Writer.fresh_world 3 []).

Lemma first_call_result :
  Writer.getOrCreateCkwriter 3 [7; 0] (Writer.fresh_world 3 [])
  = (Ok (Writer.mkCKWriter 1 true), snd after_first_call).
Proof. vm_compute. reflexivity. Qed.

Lemma writer_created_once_witness :
  Writer.getOrCreateCkwriter 3 [9; 4] (snd after_first_call)
  = (Ok (Writer.mkCKWriter 1 true), snd after_first_call).
Proof.
  apply (writer_created_once 3 [7; 0] [9; 4] (Writer.fresh_world 3 [])).
  - exact first_call_result.
  - reflexivity.
Defined.

Lemma writer_slots_running_witness :
  slots_running (snd after_first_call) /\
  forall cw, Ok (Writer.mkCKWriter 1 true) = Ok cw ->
    cw = Writer.mkCKWriter (Z.of_nat (length [7; 0]) - 1) true /\
    Writer.prometheusCKWriters (snd after_first_call)
      !! Z.to_nat (Z.of_nat (length [7; 0]) - 1) = Some (Some cw).
Proof.
  apply (writer_slots_running 3 [7; 0] (Writer.fresh_world 3 [])).
  - apply fresh_world_slots_running.
  - exact first_call_result.
Defined.

(** The table cannot be created: the call fails, and the array stays
    empty. *)
Lemma failed_call_result :
  Writer.getOrCreateCkwriter 3 [7; 0] (Writer.fresh_world 3 [false; true])
  = (Err "create table failed",
     Writer.mkWorld [None; None; None] true (Writer.mkCK None None) [] []).
Proof. vm_compute. reflexivity. Qed.

Lemma writer_failure_stores_nothing_witness :
  Writer.prometheusCKWriters
    (Writer.mkWorld [None; None; None] true (Writer.mkCK None None) [] [])
  = Writer.prometheusCKWriters (Writer.fresh_world 3 [false; true]).
Proof.
  apply (writer_failure_stores_nothing 3 [7; 0] (Writer.fresh_world 3 [false; true]) _
           (Err "create table failed")).
  - exact failed_call_result.
  - discriminate.
Defined.

(** [InitTable] returns nil although the table could not be created and no
    writer was stored. *)
Example InitTable_swallows :
  WriterInit.InitTable 3 (Writer.fresh_world 3 [false; false; true])
  = (Ok tt, Writer.mkWorld [None; None; None] true (Writer.mkCK None None) [] []).
Proof. vm_compute. reflexivity. Qed.

Lemma InitTable_reports_witness :
  (Ok tt = Ok tt \/ exists e, Ok tt = Err e) /\
  ((exists e, Ok tt = Err e) <->
   fault_at (Writer.fresh_world 3 [false; false; true]) 0 = true \/
   (Writer.ckdbConn (Writer.fresh_world 3 [false; false; true]) = false /\
    fault_at (Writer.fresh_world 3 [false; false; true]) 1 = true)).
Proof.
  apply (InitTable_reports 3 (Writer.fresh_world 3 [false; false; true])
           (Writer.mkWorld [None; None; None] true (Writer.mkCK None None) [] [])).
  - exact InitTable_swallows.
  - reflexivity.
Defined.

(** ** The refresh token *)

Section CacheExtras.

Import Cache.

(** [k] calls of [tryRefresh] when nothing has been sent on [canRefresh]:
    [Start] has not run. *)
Definition no_token (k : nat) : State :=
  mkState [] (replicate k (mkCall AtSelect O)).

Definition waiting (c : Call) : Prop :=
  runs c = O /\ (at_ c = AtSelect \/ at_ c = Sleeping).

Lemma step_waiting fin t s :
  canRefresh s = [] -> Forall waiting (calls s) ->
  canRefresh (step fin t s) = [] /\ Forall waiting (calls (step fin t s)).
Proof.
  intros Hch Hall. unfold step, move.
  destruct (calls s !! t) as [c|] eqn:Hc; [|done].
  assert (Hw : waiting c).
  { rewrite Forall_lookup in Hall. by apply (Hall t). }
  destruct Hw as [Hr [Ha|Ha]]; rewrite Ha, ?Hch; cbn; (split; [done|]);
    apply Forall_insert; try done; split; cbn; auto.
Qed.

(** X19: Without the token no call of [tryRefresh] ever runs [refresh] or
    returns: under every schedule each call stays in its loop, at the
    [select] or asleep. *)
Theorem refresh_needs_token (k : nat) (sched : nat -> nat) (returns : nat -> bool)
    (n : nat) :
  canRefresh (run sched returns n (no_token k)) = [] /\
  forall t c, calls (run sched returns n (no_token k)) !! t = Some c ->
    runs c = O /\ (at_ c = AtSelect \/ at_ c = Sleeping).
Proof.
  assert (H : canRefresh (run sched returns n (no_token k)) = [] /\
              Forall waiting (calls (run sched returns n (no_token k)))).
  { induction n as [|n [IH1 IH2]]; cbn [run].
    - split; [done|]. cbn. apply Forall_replicate. split; cbn; auto.
    - by apply step_waiting. }
  destruct H as [H1 H2]. split; [done|]. intros t c Ht.
  rewrite Forall_lookup in H2. by apply (H2 t).
Qed.

(** X20: Handing the token back never blocks: whenever a call has left
    [refresh] and stands at [c.canRefresh <- true], the channel is empty,
    and its next step puts the token back and leaves the loop. *)
Theorem token_return_never_blocks (k : nat) (sched : nat -> nat) (returns : nat -> bool)
    (n t : nat) (c : Call) (returned : bool) :
  calls (run sched returns n (init k)) !! t = Some c ->
  at_ c = Returning ->
  canRefresh (run sched returns n (init k)) = [] /\
  step returned t (run sched returns n (init k))
  = mkState [true]
      (<[t := mkCall Returned (runs c)]> (calls (run sched returns n (init k)))).
Proof.
  intros Hc Hat.
  destruct (run_inv sched returns k n) as [Htok _].
  pose proof (holding_le _ _ _ Hc) as Hle. unfold holding in Hle at 1. rewrite Hat in Hle.
  assert (Hempty : canRefresh (run sched returns n (init k)) = []).
  { destruct (canRefresh (run sched returns n (init k))); [done|]. simpl in Htok. lia. }
  split; [done|]. unfold step. by rewrite Hc, Hat, Hempty.
Qed.

End CacheExtras.

Lemma token_return_never_blocks_witness :
  Cache.canRefresh (Cache.run round_robin2 at_once 3 (Cache.init 2)) = [] /\
  Cache.step true 0 (Cache.run round_robin2 at_once 3 (Cache.init 2))
  = Cache.mkState [true]
      (<[0%nat := Cache.mkCall Cache.Returned 1]>
         (Cache.calls (Cache.run round_robin2 at_once 3 (Cache.init 2)))).
Proof.
  apply (token_return_never_blocks 2 round_robin2 at_once 3 0
           (Cache.mkCall Cache.Returning 1) true).
  - reflexivity.
  - reflexivity.
Defined.

(** ** Forwarding to the master controller *)

Section ForwardProperties.

Import GoStrings Forward.

Lemma index_cons (sep : string) (c : ascii) (s : string) :
  String.index 0 sep (String c s)
  = if String.prefix sep (String c s) then Some O
    else match String.index 0 sep s with
         | Some n => Some (S n)
         | None => None
         end.
Proof. reflexivity. Qed.

Lemma prefix_byte (a c : ascii) (s : string) :
  String.prefix (String a "") (String c s) = if ascii_dec a c then true else false.
Proof. simpl. destruct (ascii_dec a c); [by destruct s | done]. Qed.

Lemma index_first_byte (a : ascii) (h rest : string) :
  String.index 0 (String a "") h = None ->
  String.index 0 (String a "") (h +:+ String a rest) = Some (String.length h).
Proof.
  induction h as [|c h IH].
  - intros _. change ("" +:+ String a rest) with (String a rest).
    rewrite index_cons, prefix_byte. by destruct (ascii_dec a a).
  - rewrite index_cons, prefix_byte.
    change (String c h +:+ String a rest) with (String c (h +:+ String a rest)).
    rewrite index_cons, prefix_byte.
    destruct (ascii_dec a c); [discriminate|].
    destruct (String.index 0 (String a "") h) eqn:Hh; [discriminate|].
    intros _. by rewrite IH.
Qed.

Lemma substring_prefix (h s : string) : substring 0 (String.length h) (h +:+ s) = h.
Proof.
  induction h as [|c h IH]; simpl; [by destruct s | by rewrite IH].
Qed.

Lemma Split_no_separator (s sep : string) :
  String.index 0 sep s = None -> Split s sep = [s].
Proof.
  unfold Split. destruct (String.length s); simpl; [done|]. by intros ->.
Qed.

Lemma Split_first_byte (a : ascii) (h rest : string) :
  String.index 0 (String a "") h = None ->
  exists more, Split (h +:+ String a rest) (String a "") = h :: more /\ more <> [].
Proof.
  intros Hh. unfold Split.
  destruct (String.length (h +:+ String a rest)) as [|fuel] eqn:Hlen.
  { rewrite length_append in Hlen. simpl in Hlen. lia. }
  cbn [Split_fuel]. rewrite (index_first_byte a h rest Hh), substring_prefix.
  eexists. split; [reflexivity|]. apply Split_fuel_nonempty.
Qed.

(** X21: The forwarded request keeps the port of the request's host and takes
    the master controller's name for the host: a host without a colon
    becomes [name:port] with the port given, a host [h:rest] becomes
    [name:rest]. *)
Theorem forwarded_host (host masterControllerName : string) (port : Z) :
  (contains host ":" = false ->
   ForwardMasterController_host host masterControllerName port
   = masterControllerName +:+ ":" +:+ itoa port) /\
  (forall h rest,
     contains h ":" = false -> host = h +:+ ":" +:+ rest ->
     ForwardMasterController_host host masterControllerName port
     = masterControllerName +:+ ":" +:+ rest).
Proof.
  unfold contains, ForwardMasterController_host. split.
  - destruct (String.index 0 ":" host) eqn:Hi; [discriminate|]. intros _.
    by rewrite Split_no_separator.
  - intros h rest Hh ->.
    destruct (String.index 0 ":" h) eqn:Hi; [discriminate|].
    destruct (Split_first_byte ":" h rest Hi) as (more & Hsplit & Hmore).
    change (":" +:+ rest) with (String ":" rest). rewrite Hsplit.
    destruct more as [|x more]; [done|]. cbn [length Nat.ltb Nat.leb].
    apply Replace1_prefix.
Qed.

End ForwardProperties.

Example forwarded_host_with_port :
  Forward.ForwardMasterController_host "10.1.2.3:20417" "master-0" 20417 = "master-0:20417"
  /\ Forward.ForwardMasterController_host "controller" "master-0" 20417 = "master-0:20417"
  /\ Forward.ForwardMasterController_host "a.b:8080" "b" 20417 = "b:8080".
Proof. repeat split. Qed.

(** A host in brackets: the first part is the bracket. *)
Example forwarded_host_ipv6 :
  Forward.ForwardMasterController_host "[::1]:20417" "master-0" 20417 = "master-0::1]:20417".
Proof. reflexivity. Qed.

Lemma forwarded_host_witness :
  contains "controller" ":" = false /\
  Forward.ForwardMasterController_host "controller" "master-0" 20417
  = "master-0" +:+ ":" +:+ GoStrings.itoa 20417.
Proof.
  split; [reflexivity|].
  apply (forwarded_host "controller" "master-0" 20417). reflexivity.
Defined.

(** ** The query counters *)

Section StatsdProperties.

Import Statsd.

Lemma u64_add_l (a b : Z) : u64 (u64 a + b) = u64 (a + b).
Proof. unfold u64. by rewrite Zplus_mod_idemp_l. Qed.

Lemma u64_range (z : Z) : 0 <= u64 z < 2 ^ 64.
Proof. unfold u64. apply Z.mod_pos_bound. lia. Qed.

Lemma max_step (m a b : Z) :
  (if b >? (if a >? m then a else m) then b else if a >? m then a else m)
  = (if a >? (if b >? m then b else m) then a else if b >? m then b else m).
Proof.
  destruct (a >? m) eqn:Ham; destruct (b >? m) eqn:Hbm;
    destruct (b >? a) eqn:Hba; destruct (a >? b) eqn:Hab;
    rewrite ?Ham, ?Hbm; try reflexivity; lia.
Qed.

Lemma u64_succ_succ (n : Z) : u64 (u64 (n + 1) + 1) = u64 (n + 2).
Proof. rewrite u64_add_l. f_equal. lia. Qed.

(** Two writes give the same counter in either order. *)
Lemma write_swap (ck : ClickhouseCounter) (a b : Write) :
  writes [a; b] ck = writes [b; a] ck.
Proof.
  destruct a as [qa|qa], b as [qb|qb]; cbn [writes write]; unfold WriteCk, WriteApi.
  - destruct (u64 (QueryCount ck + 1) =? 0) eqn:H1; [done|]. cbn.
    rewrite !u64_add_l.
    replace (QueryCount ck + 1 + 1) with (QueryCount ck + 2) by lia.
    destruct (u64 (QueryCount ck + 2) =? 0); [done|].
    f_equal. f_equal.
    + f_equal. lia.
    + f_equal. lia.
    + f_equal. lia.
    + f_equal. lia.
    + do 2 f_equal. lia.
    + apply max_step.
  - destruct (u64 (QueryCount ck + 1) =? 0) eqn:H1; cbn;
      destruct (u64 (ApiCount ck + 1) =? 0) eqn:H2; cbn; rewrite ?H1; done.
  - destruct (u64 (ApiCount ck + 1) =? 0) eqn:H2; cbn;
      destruct (u64 (QueryCount ck + 1) =? 0) eqn:H1; cbn; rewrite ?H2; done.
  - destruct (u64 (ApiCount ck + 1) =? 0) eqn:H1; [done|]. cbn.
    rewrite !u64_add_l.
    replace (ApiCount ck + 1 + 1) with (ApiCount ck + 2) by lia.
    destruct (u64 (ApiCount ck + 2) =? 0); [done|].
    f_equal. f_equal.
    + f_equal. lia.
    + do 2 f_equal. lia.
    + apply max_step.
Qed.

(** X22: The counter does not depend on the order in which the goroutines of
    [WriteCk] and [WriteApi] get the mutex. *)
Theorem write_order_irrelevant (ops ops' : list Write) (ck : ClickhouseCounter) :
  ops ≡ₚ ops' -> writes ops ck = writes ops' ck.
Proof.
  intros Hperm. revert ck.
  induction Hperm as [|x l l' _ IH|x y l|l1 l2 l3 _ IH1 _ IH2]; intros ck.
  - done.
  - cbn [writes]. destruct (write ck x); [apply IH | done..].
  - pose proof (write_swap ck y x) as Hs. cbn [writes] in *.
    repeat match type of Hs with
      | context [match write ?c ?o with _ => _ end] => destruct (write c o)
      end; try discriminate; try done.
    by injection Hs as ->.
  - by rewrite IH1.
Qed.

(** A value of type [uint64]. *)
Definition is_u64 (z : Z) : Prop := 0 <= z < 2 ^ 64.

Definition times_valid (op : Write) : Prop :=
  match op with
  | Ck qc => is_u64 (QueryTime qc)
  | Api qc => is_u64 (ApiTime qc)
  end.

Definition is_ck (op : Write) : bool := match op with Ck _ => true | Api _ => false end.

(** What holds of a counter between two calls of [GetCounter]. *)
Record stats (n_ck n_api : nat) (ck : ClickhouseCounter) : Prop := mkStats {
  st_count : QueryCount ck = Z.of_nat n_ck;
  st_count_range : Z.of_nat n_ck < 2 ^ 64;
  st_sum : 0 <= QueryTimeSum ck <= QueryCount ck * QueryTimeMax ck;
  st_max : 0 <= QueryTimeMax ck;
  st_avg : 0 < QueryCount ck -> QueryTimeAvg ck = QueryTimeSum ck / QueryCount ck;
  st_acount : ApiCount ck = Z.of_nat n_api;
  st_acount_range : Z.of_nat n_api < 2 ^ 64;
  st_asum : 0 <= ApiTimeSum ck <= ApiCount ck * ApiTimeMax ck;
  st_amax : 0 <= ApiTimeMax ck;
  st_aavg : 0 < ApiCount ck -> ApiTimeAvg ck = ApiTimeSum ck / ApiCount ck;
}.

Lemma stats_zero : stats 0 0 zero.
Proof. split; cbn; lia. Qed.

Lemma u64_succ_count (n : nat) :
  Z.of_nat n < 2 ^ 64 -> (u64 (Z.of_nat n + 1) =? 0) = false ->
  u64 (Z.of_nat n + 1) = Z.of_nat (S n) /\ Z.of_nat (S n) < 2 ^ 64.
Proof.
  intros Hn Hz. apply Z.eqb_neq in Hz. unfold u64 in *.
  destruct (decide (Z.of_nat n + 1 = 2 ^ 64)) as [Heq|Hne].
  - rewrite Heq, Z_mod_same_full in Hz. done.
  - rewrite Z.mod_small by lia. lia.
Qed.

Lemma wrapped_sum_le (s t c m : Z) :
  0 <= s <= c * m -> 0 <= t < 2 ^ 64 -> 0 <= c -> 0 <= m ->
  0 <= u64 (s + t) <= (c + 1) * (if t >? m then t else m).
Proof.
  intros Hs Ht Hc Hm. pose proof (u64_range (s + t)) as Hr.
  split; [lia|].
  assert (u64 (s + t) <= s + t).
  { unfold u64. apply Z.mod_le; lia. }
  destruct (t >? m) eqn:Htm; nia.
Qed.

Lemma write_stats n_ck n_api ck op ck' :
  stats n_ck n_api ck -> times_valid op -> write ck op = Ok ck' ->
  stats (if is_ck op then S n_ck else n_ck) (if is_ck op then n_api else S n_api) ck'.
Proof.
  intros [] Hv. destruct op as [qc|qc]; cbn [write is_ck]; unfold WriteCk, WriteApi.
  - rewrite st_count0.
    destruct (u64 (Z.of_nat n_ck + 1) =? 0) eqn:Hz; [discriminate|].
    destruct (u64_succ_count n_ck st_count_range0 Hz) as [Hc Hr].
    intros [= <-]. cbn in Hv. unfold is_u64 in Hv.
    split; cbn; try done; try lia.
    + rewrite Hc. replace (Z.of_nat (S n_ck)) with (QueryCount ck + 1) by lia.
      apply wrapped_sum_le; lia.
    + destruct (QueryTime qc >? QueryTimeMax ck); lia.
  - rewrite st_acount0.
    destruct (u64 (Z.of_nat n_api + 1) =? 0) eqn:Hz; [discriminate|].
    destruct (u64_succ_count n_api st_acount_range0 Hz) as [Hc Hr].
    intros [= <-]. cbn in Hv. unfold is_u64 in Hv.
    split; cbn; try done; try lia.
    + rewrite Hc. replace (Z.of_nat (S n_api)) with (ApiCount ck + 1) by lia.
      apply wrapped_sum_le; lia.
    + destruct (ApiTime qc >? ApiTimeMax ck); lia.
Qed.

Lemma writes_stats ops : forall n_ck n_api ck ck',
  stats n_ck n_api ck -> Forall times_valid ops -> writes ops ck = Ok ck' ->
  stats (n_ck + length (List.filter is_ck ops))
        (n_api + length (List.filter (fun op => negb (is_ck op)) ops)) ck'.
Proof.
  induction ops as [|op ops IH]; intros n_ck n_api ck ck' Hst Hv; cbn [writes].
  - intros [= <-]. cbn. by rewrite !Nat.add_0_r.
  - apply Forall_cons in Hv as [Hop Hv].
    destruct (write ck op) as [ck1|e|e] eqn:Hw; [|discriminate..].
    intros Hrest. pose proof (write_stats _ _ _ _ _ Hst Hop Hw) as Hst1.
    pose proof (IH _ _ _ _ Hst1 Hv Hrest) as Hst'.
    destruct op; cbn [is_ck List.filter negb length] in *;
      by rewrite <- ?Nat.add_succ_comm.
Qed.

Lemma avg_le_max (sum count max : Z) :
  0 <= sum <= count * max -> 0 < count -> sum / count <= max.
Proof.
  intros Hs Hc. apply Z.div_le_upper_bound; [lia|]. lia.
Qed.

(** X23: From the counter [GetCounter] leaves behind, after any writes that did
    not panic: [QueryCount] and [ApiCount] are the numbers of the writes of
    each kind, the averages are the quotients of the sums by the counts, and
    no average is above the maximum.  The sums may have wrapped around; the
    bound holds all the same. *)
Theorem counter_statistics (ops : list Write) (ck : ClickhouseCounter) :
  Forall times_valid ops ->
  writes ops (snd (GetCounter ck)) = Ok ck ->
  QueryCount ck = Z.of_nat (length (List.filter is_ck ops)) /\
  ApiCount ck = Z.of_nat (length (List.filter (fun op => negb (is_ck op)) ops)) /\
  (0 < QueryCount ck ->
   QueryTimeAvg ck = QueryTimeSum ck / QueryCount ck /\
   QueryTimeAvg ck <= QueryTimeMax ck) /\
  (0 < ApiCount ck ->
   ApiTimeAvg ck = ApiTimeSum ck / ApiCount ck /\
   ApiTimeAvg ck <= ApiTimeMax ck).
Proof.
  intros Hv Hrun. cbn [GetCounter snd] in Hrun.
  pose proof (writes_stats ops 0 0 zero ck stats_zero Hv Hrun) as [].
  cbn [Nat.add] in *.
  split; [done|]. split; [done|]. split.
  - intros Hpos. split; [auto|]. rewrite st_avg0 by done. by apply avg_le_max.
  - intros Hpos. split; [auto|]. rewrite st_aavg0 by done. by apply avg_le_max.
Qed.

End StatsdProperties.

(** Three queries of 10, 30 and 20 ms and one API call of 50 ms. *)
Definition query_of (t : Z) : Statsd.ClickhouseCounter :=
  Statsd.mkClickhouseCounter 0 100 2 3 t 0 0 0 0 0 0 0 0.

Definition api_of (t : Z) : Statsd.ClickhouseCounter :=
  Statsd.mkClickhouseCounter 0 0 0 0 0 0 0 0 t 0 0 0 0.

Definition four_writes : list Statsd.Write :=
  [Statsd.Ck (query_of 10); Statsd.Api (api_of 50); Statsd.Ck (query_of 30);
   Statsd.Ck (query_of 20)].

Example four_writes_counter :
  Statsd.writes four_writes Statsd.zero
  = Ok (Statsd.mkClickhouseCounter 3 300 6 18 0 60 20 30 0 50 50 50 1).
Proof. vm_compute. reflexivity. Qed.

Lemma four_writes_valid : Forall times_valid four_writes.
Proof. repeat constructor; cbn; unfold is_u64; lia. Qed.

Lemma write_order_irrelevant_witness :
  Statsd.writes (rev four_writes) Statsd.zero = Statsd.writes four_writes Statsd.zero.
Proof.
  apply (write_order_irrelevant (rev four_writes) four_writes Statsd.zero).
  symmetry. apply Permutation_rev.
Defined.

Lemma counter_statistics_witness :
  Forall times_valid four_writes /\
  Statsd.QueryCount (Statsd.mkClickhouseCounter 3 300 6 18 0 60 20 30 0 50 50 50 1)
  = Z.of_nat (length (List.filter is_ck four_writes)).
Proof.
  split; [apply four_writes_valid|].
  apply (counter_statistics four_writes
           (Statsd.mkClickhouseCounter 3 300 6 18 0 60 20 30 0 50 50 50 1)
           four_writes_valid four_writes_counter).
Defined.
